(** * SmartRAGChunker: a shallow embedding of [transform.py]

    The chunking core of the repository ([_smart_split_content],
    [_create_parent_chunks], [_create_child_chunks],
    [create_hierarchical_chunks] and the two metrics helpers) is translated
    function by function.  Python [str] values are lists of characters; the
    character type is [ascii], read as the code points below 256.  Chunk
    dictionaries become records, [self.sections] an association list in
    insertion order, and the only exception the core can raise
    ([ZeroDivisionError]) an explicit result type.

    Around the core, the loader ([load_sections] on the files it was
    given, [_clean_section_name], [_preprocess_content] with
    [_add_acronym_definitions]) and the delimiter-separated export
    ([_save_rag_format]) are translated in the same way: regular
    expression substitutions become scans of the list of characters. *)

From Stdlib Require Import Ascii String DecimalString DecimalNat.
From Stdlib Require Import ZArith QArith Qround Lia Bool Arith List.
From Stdlib Require Import Permutation.
Import ListNotations.

Local Open Scope list_scope.
Local Open Scope Z_scope.

(** Case analysis on the first comparison of the goal. *)
Ltac case_leb :=
  match goal with
  | |- context [?a <=? ?b] => destruct (Z.leb_spec a b)
  end.

Ltac case_gtb :=
  match goal with
  | |- context [?a >? ?b] => destruct (Z.gtb_spec a b)
  end.

(** ** Python strings *)

Definition str := list ascii.

(** A literal of the source, written as a Rocq string. *)
Definition lit (s : string) : str := list_ascii_of_string s.

Definition len (s : str) : Z := Z.of_nat (length s).

(** [len(d)] for a list or dictionary. *)
Definition len_list {A : Type} (l : list A) : Z := Z.of_nat (length l).

(** Truthiness of a string: [if s:]. *)
Definition truthy (s : str) : bool :=
  match s with [] => false | _ :: _ => true end.

Definition str_eqb (a b : str) : bool :=
  if list_eq_dec ascii_dec a b then true else false.

(** [str.isspace] on one character, which is also what [\s] matches in a
    [str] pattern: tab to carriage return, the four separators 28..31, the
    space, NEL (133) and the no-break space (160). *)
Definition is_space (c : ascii) : bool :=
  let n := nat_of_ascii c in
  (((9 <=? n) && (n <=? 13)) || ((28 <=? n) && (n <=? 32))
   || (n =? 133) || (n =? 160))%nat.

(** The character class [[.!?]]. *)
Definition is_sentence_end (c : ascii) : bool :=
  let n := nat_of_ascii c in ((n =? 46) || (n =? 33) || (n =? 63))%nat.

Definition NL : ascii := ascii_of_nat 10.
Definition SP : ascii := ascii_of_nat 32.

Definition is_newline (c : ascii) : bool := (nat_of_ascii c =? 10)%nat.

Fixpoint lstrip (s : str) : str :=
  match s with
  | [] => []
  | c :: rest => if is_space c then lstrip rest else s
  end.

Definition rstrip (s : str) : str := rev (lstrip (rev s)).

(** [s.strip()] *)
Definition strip (s : str) : str := rstrip (lstrip s).

(** [s[i:]] for any integer [i], negative indices counted from the end. *)
Definition slice_from (i : Z) (s : str) : str :=
  let start := if i <? 0 then Z.max (len s + i) 0 else Z.min i (len s) in
  skipn (Z.to_nat start) s.

(** Puts a character in front of the first piece of a split. *)
Definition cons_head (c : ascii) (pieces : list str) : list str :=
  match pieces with
  | [] => [[c]]
  | p :: ps => (c :: p) :: ps
  end.

(** [content.split('\n\n')]: the occurrences of the separator are found from
    the left and do not overlap; the result is never empty. *)
Fixpoint split_paragraphs (s : str) : list str :=
  match s with
  | [] => [[]]
  | c :: rest =>
      match rest with
      | c2 :: rest2 =>
          if is_newline c && is_newline c2
          then [] :: split_paragraphs rest2
          else cons_head c (split_paragraphs rest)
      | [] => cons_head c (split_paragraphs rest)
      end
  end.

(** [re.split(r'(?<=[.!?])\s+', s)].  A match starts at a whitespace
    character whose predecessor is in [[.!?]] and extends over the whole run
    of whitespace; [prev_end] says that the previous character is such a
    mark, [in_gap] that the scan is inside a match. *)
Fixpoint re_split_from (prev_end in_gap : bool) (s : str) : list str :=
  match s with
  | [] => [[]]
  | c :: rest =>
      if is_space c then
        if in_gap then re_split_from false true rest
        else if prev_end then [] :: re_split_from false true rest
        else cons_head c (re_split_from false false rest)
      else cons_head c (re_split_from (is_sentence_end c) false rest)
  end.

Definition re_split_sentences (s : str) : list str :=
  re_split_from false false s.

(** ** The boundary-aware splitter *)

(** The sentence loop of [_smart_split_content] (lines 331-346): the state
    is the list [chunks] and [temp_chunk]. *)
Fixpoint pack_sentences (target_size overlap : Z)
    (chunks : list str) (temp_chunk : str) (sentences : list str)
    : list str * str :=
  match sentences with
  | [] => (chunks, temp_chunk)
  | sentence :: rest =>
      if len (temp_chunk ++ [SP] ++ sentence) <=? target_size then
        pack_sentences target_size overlap chunks
          (if truthy temp_chunk then temp_chunk ++ [SP] ++ sentence
           else sentence) rest
      else if truthy temp_chunk then
        let chunks := chunks ++ [strip temp_chunk] in
        if overlap >? 0 then
          let overlap_part :=
            if len temp_chunk >? overlap
            then slice_from (- overlap) temp_chunk else temp_chunk in
          pack_sentences target_size overlap chunks
            (overlap_part ++ [SP] ++ sentence) rest
        else pack_sentences target_size overlap chunks sentence rest
      else
        pack_sentences target_size overlap
          (chunks ++ [strip sentence]) [] rest
  end.

(** The overlap seed computed after a paragraph overflow (lines 317-323). *)
Definition overlap_seed (overlap : Z) (current_chunk : str) : str :=
  if (overlap >? 0) && (len current_chunk >? overlap) then
    let overlap_text := slice_from (- overlap) current_chunk in
    let sentences := re_split_sentences overlap_text in
    match sentences with
    | [] => overlap_text
    | _ :: _ => last sentences []
    end
  else [].

(** One iteration of the paragraph loop (lines 306-350). *)
Definition para_step (target_size overlap : Z)
    (st : list str * str) (para : str) : list str * str :=
  let '(chunks, current_chunk) := st in
  let test_chunk :=
    if truthy current_chunk then current_chunk ++ [NL; NL] ++ para
    else para in
  if len test_chunk <=? target_size then (chunks, test_chunk)
  else
    let '(chunks, current_chunk) :=
      if truthy current_chunk
      then (chunks ++ [strip current_chunk],
            overlap_seed overlap current_chunk)
      else (chunks, current_chunk) in
    if len para >? target_size then
      pack_sentences target_size overlap chunks current_chunk
        (re_split_sentences para)
    else (chunks, para).

Definition paragraph_loop (target_size overlap : Z)
    (paragraphs : list str) : list str * str :=
  fold_left (para_step target_size overlap) paragraphs ([], []).

Definition _smart_split_content (content : str) (target_size overlap : Z)
    : list str :=
  let '(chunks, current_chunk) :=
    paragraph_loop target_size overlap (split_paragraphs content) in
  let chunks :=
    if truthy current_chunk then chunks ++ [strip current_chunk]
    else chunks in
  filter (fun chunk => truthy (strip chunk)) chunks.

(** ** Chunk records *)

Inductive Level := parent | child.

Definition Level_eqb (a b : Level) : bool :=
  match a, b with
  | parent, parent | child, child => true
  | _, _ => false
  end.

(** A chunk dictionary.  The keys [parent_id], [child_chunk_ids],
    [child_count] and [global_id] are absent ([None]) until the code stores
    them. *)
Record Chunk := mkChunk {
  chunk_id : str;
  level : Level;
  section_name : str;
  parent_id : option str;
  chunk_index : nat;
  content : str;
  char_count : Z;
  estimated_tokens : Z;
  content_hash : str;
  child_chunk_ids : option (list str);
  child_count : option nat;
  global_id : option nat
}.

(** [self.config] *)
Record Config := mkConfig {
  available_context : Z;
  parent_chunk_size : Z;
  child_chunk_size : Z;
  overlap_size : Z;
  min_chunk_size : Z
}.

(** The configuration [__init__] builds for the default context window of
    4096 tokens ([int(4096 * 0.70)] is 2867). *)
Definition default_config : Config :=
  mkConfig 2867 1200 400 50 100.

(** [f"{i}"] for a natural number. *)
Definition str_of_nat (i : nat) : str :=
  lit (NilEmpty.string_of_uint (Nat.to_uint i)).

(** [enumerate(l, start)] *)
Fixpoint enumerate {A : Type} (start : nat) (l : list A) : list (nat * A) :=
  match l with
  | [] => []
  | x :: rest => (start, x) :: enumerate (S start) rest
  end.

(** [chunk['child_chunk_ids'] = ids; chunk['child_count'] = n] *)
Definition set_children (chunk : Chunk) (ids : list str) (n : nat) : Chunk :=
  mkChunk (chunk_id chunk) (level chunk) (section_name chunk)
    (parent_id chunk) (chunk_index chunk) (content chunk) (char_count chunk)
    (estimated_tokens chunk) (content_hash chunk) (Some ids) (Some n)
    (global_id chunk).

(** [chunk['global_id'] = g] *)
Definition set_global_id (chunk : Chunk) (g : nat) : Chunk :=
  mkChunk (chunk_id chunk) (level chunk) (section_name chunk)
    (parent_id chunk) (chunk_index chunk) (content chunk) (char_count chunk)
    (estimated_tokens chunk) (content_hash chunk) (child_chunk_ids chunk)
    (child_count chunk) (Some g).

(** [section_data] of [create_hierarchical_chunks]. *)
Record SectionData := mkSectionData {
  sd_section_name : str;
  original_length : Z;
  parent_chunks : list Chunk;
  child_chunks : list Chunk
}.

(** The fields of the chunker that [create_hierarchical_chunks] writes. *)
Record Chunker := mkChunker {
  hierarchical_chunks : list (str * SectionData);
  all_chunks : list Chunk
}.

Inductive exn := ZeroDivisionError.

Inductive result (A : Type) :=
| Ok (a : A)
| Raise (e : exn).
Arguments Ok {A} a.
Arguments Raise {A} e.

Section ChunkBuilder.

(** [hashlib.md5(s.encode()).hexdigest()[:8]], a function of the text
    alone. *)
Variable digest8 : str -> str.

Variable config : Config.

(** The dictionary literal of a parent chunk: index [i], text [text]. *)
Definition parent_record (name : str) (i : nat) (text : str) : Chunk :=
  mkChunk (name ++ lit "_P" ++ str_of_nat i) parent name None i text
    (len text) (len text / 4) (digest8 text) None None None.

(** The dictionary literal of a child chunk; [hashed] is the text handed to
    the digest. *)
Definition child_record (name : str) (parent_chunk : Chunk)
    (parent_idx i : nat) (text hashed : str) : Chunk :=
  mkChunk
    (name ++ lit "_P" ++ str_of_nat (parent_idx + 1) ++ lit "_C"
       ++ str_of_nat i)
    child name (Some (chunk_id parent_chunk)) i text
    (len text) (len text / 4) (digest8 hashed) None None None.

Definition _create_parent_chunks (name : str) (content : str)
    : list Chunk :=
  let chunk_size := parent_chunk_size config in
  let overlap := overlap_size config in
  if len content <=? chunk_size then
    [parent_record name 1 content]
  else
    let chunks := _smart_split_content content chunk_size overlap in
    map (fun '(i, chunk_content) => parent_record name i chunk_content)
        (enumerate 1 chunks).

Definition _create_child_chunks (name : str) (parent_chunk : Chunk)
    (parent_idx : nat) : list Chunk :=
  let chunk_size := child_chunk_size config in
  let overlap := overlap_size config in
  let content := content parent_chunk in
  if len content <=? chunk_size then
    [child_record name parent_chunk parent_idx 1 content content]
  else
    let chunks := _smart_split_content content chunk_size overlap in
    map (fun '(i, chunk_content) =>
           child_record name parent_chunk parent_idx i chunk_content content)
        (enumerate 1 chunks).

(** ** The assembler *)

(** The body of the loop over [enumerate(parent_chunks)] (lines 199-205):
    the parent with its two new keys, and its children. *)
Definition link_children (name : str) (entry : nat * Chunk)
    : Chunk * list Chunk :=
  let '(parent_idx, parent_chunk) := entry in
  let child_chunks := _create_child_chunks name parent_chunk parent_idx in
  (set_children parent_chunk (map chunk_id child_chunks)
     (length child_chunks),
   child_chunks).

(** The loop over the parents of one section: each parent paired with its
    children. *)
Definition section_families (name : str) (content : str)
    : list (Chunk * list Chunk) :=
  map (link_children name)
      (enumerate 0 (_create_parent_chunks name content)).

(** [parent_chunks + section_data['child_chunks']], the list that is
    numbered. *)
Definition section_chunks (name : str) (content : str) : list Chunk :=
  let families := section_families name content in
  map fst families ++ concat (map snd families).

(** The numbering loop (lines 210-213); returns the numbered chunks and the
    counter. *)
Fixpoint assign_global_ids (global_id : nat) (chunks : list Chunk)
    : list Chunk * nat :=
  match chunks with
  | [] => ([], global_id)
  | chunk :: rest =>
      let '(numbered, g) := assign_global_ids (S global_id) rest in
      (set_global_id chunk global_id :: numbered, g)
  end.

(** One iteration of the loop over [self.sections.items()].  The chunk
    dictionaries stored in [section_data] and in [self.all_chunks] are the
    same objects, so both views carry the keys written last. *)
Definition process_section (st : Chunker * nat) (doc : str * str)
    : Chunker * nat :=
  let '(self, global_id) := st in
  let '(name, content) := doc in
  let families := section_families name content in
  let parents := map fst families in
  let children := concat (map snd families) in
  let '(numbered, global_id) :=
    assign_global_ids global_id (parents ++ children) in
  let section_data :=
    mkSectionData name (len content)
      (firstn (length parents) numbered)
      (skipn (length parents) numbered) in
  (mkChunker (hierarchical_chunks self ++ [(name, section_data)])
             (all_chunks self ++ numbered),
   global_id).

(** The state after the loop of [create_hierarchical_chunks], from the
    reset fields and [global_id = 1]. *)
Definition build_hierarchy (sections : list (str * str)) : Chunker :=
  fst (fold_left process_section sections (mkChunker [] [], 1%nat)).

(** The chunks of all sections in processing order, before numbering, and
    the numbering of a list from a given counter value. *)
Definition unnumbered_chunks (sections : list (str * str)) : list Chunk :=
  flat_map (fun doc => section_chunks (fst doc) (snd doc)) sections.

(** All the families of a run, in processing order. *)
Definition all_families (sections : list (str * str))
    : list (Chunk * list Chunk) :=
  flat_map (fun doc => section_families (fst doc) (snd doc)) sections.

Definition number_from (g : nat) (chunks : list Chunk) : list Chunk :=
  map (fun entry => set_global_id (snd entry) (fst entry))
      (enumerate g chunks).

(** ** Metrics *)

Definition sum_tokens (chunks : list Chunk) : Z :=
  fold_right Z.add 0 (map estimated_tokens chunks).

Definition of_level (l : Level) (chunks : list Chunk) : list Chunk :=
  filter (fun c => Level_eqb (level c) l) chunks.

(** [sum(tokens) / len(tokens)]: true division, which raises on an empty
    list.  Python computes a float; the quotient is kept exact here, and it
    is zero exactly when the float is. *)
Definition mean_tokens (chunks : list Chunk) : result Q :=
  match chunks with
  | [] => Raise ZeroDivisionError
  | _ :: _ =>
      Ok (inject_Z (sum_tokens chunks)
          / inject_Z (Z.of_nat (length chunks)))%Q
  end.

(** [sum(...) / len(...) if child_chunks else 0] *)
Definition avg_child_tokens_of (child_chunks : list Chunk) : Q :=
  match mean_tokens child_chunks with
  | Ok q => q
  | Raise _ => 0%Q
  end.

(** [a // d] with a float divisor.  The quotient is kept exact, where
    Python rounds; whether the call raises depends on the zero test alone,
    which is exact. *)
Definition floordiv (a : Z) (d : Q) : result Q :=
  if Qeq_bool d 0 then Raise ZeroDivisionError
  else Ok (inject_Z (Qfloor (inject_Z a / d)))%Q.

(** [a / d] *)
Definition truediv (a : Q) (d : Q) : result Q :=
  if Qeq_bool d 0 then Raise ZeroDivisionError else Ok (a / d)%Q.

Definition bind {A B : Type} (r : result A) (k : A -> result B) : result B :=
  match r with
  | Ok a => k a
  | Raise e => Raise e
  end.

(** What [_calculate_optimization_metrics] prints. *)
Record Metrics := mkMetrics {
  m_parent_count : nat;
  m_avg_parent_tokens : Q;
  m_child_count : nat;
  m_avg_child_tokens : Q;
  m_max_chunks_per_query : Q;
  m_context_usage : Q
}.

Definition _calculate_optimization_metrics (model_context_window : Z)
    (self : Chunker) : result Metrics :=
  let parents := of_level parent (all_chunks self) in
  let children := of_level child (all_chunks self) in
  let avg_child_tokens := avg_child_tokens_of children in
  bind (floordiv (available_context config) (avg_child_tokens * 4)%Q)
    (fun max_chunks_per_query =>
  bind (mean_tokens parents) (fun avg_parent =>
  bind (truediv (max_chunks_per_query * avg_child_tokens * 4)%Q
                (inject_Z model_context_window)) (fun usage =>
  Ok (mkMetrics (length parents) avg_parent (length children)
        avg_child_tokens max_chunks_per_query usage)))).

(** [create_hierarchical_chunks]: the fields are written by the loop, then
    the metrics are computed, then [self.all_chunks] is returned. *)
Definition create_hierarchical_chunks (model_context_window : Z)
    (sections : list (str * str)) : Chunker * result (list Chunk) :=
  let self := build_hierarchy sections in
  (self,
   bind (_calculate_optimization_metrics model_context_window self)
        (fun _ => Ok (all_chunks self))).

(** The value stored under ['chunk_size'] by
    [_get_optimization_recommendations]. *)
Inductive ChunkSizeAdvice :=
| ConsiderSmaller
| ConsiderLarger
| Optimal (chunks_per_query : Q).

(** The value stored under ['retrieval']. *)
Inductive RetrievalAdvice := UseSemantic | SimpleTopK.

Definition _get_optimization_recommendations (self : Chunker)
    : result (ChunkSizeAdvice * RetrievalAdvice) :=
  let children := of_level child (all_chunks self) in
  let avg_child_tokens := avg_child_tokens_of children in
  bind (floordiv (available_context config) (avg_child_tokens * 4)%Q)
    (fun optimal_chunks =>
  let chunk_size :=
    if Qlt_le_dec optimal_chunks 3 then ConsiderSmaller
    else if Qlt_le_dec 8 optimal_chunks then ConsiderLarger
    else Optimal optimal_chunks in
  let retrieval :=
    if (100 <? length children)%nat then UseSemantic else SimpleTopK in
  Ok (chunk_size, retrieval)).

End ChunkBuilder.

(** ** Vocabulary of the properties *)

(** A stand-in for the MD5 prefix in closed examples; none of them depends
    on its values. *)
Definition sample_digest : str -> str := firstn 8.

(** A small configuration and two documents for closed examples. *)
Definition small_config : Config := mkConfig 2867 40 20 5 100.

Definition small_sections : list (str * str) :=
  [(lit "intro",
    lit "Alpha beta gamma. Delta epsilon zeta. Eta theta iota kappa.");
   (lit "notes", lit "Short note.")].

(** Two paragraphs that fit the budget of 20 one by one but not together. *)
Definition two_paragraphs : str :=
  lit "Alpha. Beta gamma." ++ [NL; NL] ++ lit "Delta epsilon.".

(** A parent whose text is longer than the child size of [small_config]. *)
Definition long_parent (digest8 : str -> str) : Chunk :=
  parent_record digest8 (lit "intro") 1
    (lit "Alpha beta gamma. Delta epsilon zeta.").

(** Three sentences, none longer than the child size of [small_config]. *)
Definition three_sentences : str :=
  lit "Go on snow. Delta epsilon zetas. End.".

(** A configuration with [overlap_size = child_chunk_size]. *)
Definition overlapping_config : Config := mkConfig 2867 40 20 20 100.

(** The configurations the data model excludes: [overlapSize >= childSize]
    or a size that is not positive. *)
Definition config_invalid (cfg : Config) : bool :=
  (overlap_size cfg >=? child_chunk_size cfg)
  || (parent_chunk_size cfg <=? 0) || (child_chunk_size cfg <=? 0)
  || (overlap_size cfg <=? 0).

(** [pre] is a prefix of [s]: [s.startswith(pre)]. *)
Fixpoint starts_with (pre s : str) : bool :=
  match pre, s with
  | [], _ => true
  | a :: pre', b :: s' =>
      (if ascii_dec a b then true else false) && starts_with pre' s'
  | _ :: _, [] => false
  end.

(** The condition of [no_oversized_unit] on one paragraph: if it is longer
    than the target, none of its sentences is. *)
Definition paragraph_fits (target_size : Z) (para : str) : bool :=
  if len para >? target_size
  then forallb (fun sentence => len sentence <=? target_size)
         (re_split_sentences para)
  else true.

(** No atomic unit is oversized: every paragraph longer than the target
    splits into sentences none of which is longer than the target. *)
Definition no_oversized_unit (content : str) (target_size : Z) : bool :=
  forallb (paragraph_fits target_size) (split_paragraphs content).

(** The target, one overlap length, and the separator put between the
    overlap and the next sentence. *)
Definition size_bound (target_size overlap : Z) : Z :=
  target_size + overlap + 1.

(** [sentence] is an atomic unit of [content]: a piece of the sentence
    split of a paragraph that is longer than the target. *)
Definition unit_of (content : str) (target_size : Z) (sentence : str)
    : Prop :=
  exists para,
    In para (split_paragraphs content) /\ len para > target_size
    /\ In sentence (re_split_sentences para).

(** [x] is an oversized atomic unit of [content] behind at most one
    overlap and one separator. *)
Definition oversized_tail (content : str) (target_size overlap : Z)
    (x : str) : Prop :=
  exists pre sentence,
    x = pre ++ sentence /\ len pre <= overlap + 1
    /\ unit_of content target_size sentence /\ len sentence > target_size.

(** The accumulators of the splitter are within the bound or end with an
    oversized unit; so are the emitted segments, before trimming. *)
Definition sized (content : str) (target_size overlap : Z) (x : str)
    : Prop :=
  len x <= size_bound target_size overlap
  \/ oversized_tail content target_size overlap x.

Definition sized_chunk (content : str) (target_size overlap : Z)
    (chunk : str) : Prop :=
  len chunk <= size_bound target_size overlap
  \/ exists x, chunk = strip x
                /\ oversized_tail content target_size overlap x.

Definition sized_state (content : str) (target_size overlap : Z)
    (st : list str * str) : Prop :=
  Forall (sized_chunk content target_size overlap) (fst st)
  /\ sized content target_size overlap (snd st).

(** What the code stores in a family. *)
Record family_ok (name : str) (fam : Chunk * list Chunk) : Prop := {
  fam_level : level (fst fam) = parent;
  fam_section : section_name (fst fam) = name;
  fam_id :
    chunk_id (fst fam)
    = name ++ lit "_P" ++ str_of_nat (chunk_index (fst fam));
  fam_child_ids : child_chunk_ids (fst fam) = Some (map chunk_id (snd fam));
  fam_child_count : child_count (fst fam) = Some (length (snd fam));
  fam_children :
    forall c, In c (snd fam) ->
      level c = child /\ section_name c = name
      /\ parent_id c = Some (chunk_id (fst fam))
      /\ chunk_id c
         = chunk_id (fst fam) ++ lit "_C" ++ str_of_nat (chunk_index c);
  fam_child_index : map chunk_index (snd fam) = seq 1 (length (snd fam))
}.


(** The characters ["0"] to ["9"]. *)
Definition is_digit (c : ascii) : bool :=
  let n := nat_of_ascii c in ((48 <=? n) && (n <=? 57))%nat.

(** The text of a string with its whitespace removed. *)
Definition non_space (s : str) : str :=
  filter (fun c => negb (is_space c)) s.

Definition suffix_of (o s : str) : Prop := exists pre, s = pre ++ o.

(** [reconstructs k prev segments text]: each segment is an overlap prefix,
    at most [k] characters long and found at the end of the segment before
    it ([prev] for the first one), followed by fresh text; the fresh texts
    in order make up [text]. *)
Inductive reconstructs (k : nat) : str -> list str -> str -> Prop :=
| reconstructs_nil prev : reconstructs k prev [] []
| reconstructs_cons prev o fresh segments text :
    suffix_of o prev ->
    (length o <= k)%nat ->
    reconstructs k (o ++ fresh) segments text ->
    reconstructs k prev ((o ++ fresh) :: segments) (fresh ++ text).

(** The state of the splitter accounts for [text]: the emitted segments
    reconstruct a text [f], and the accumulator is an overlap [o] taken
    from the last emitted segment followed by the rest [r] of [text]. *)
Definition carries (k : nat) (st : list str * str) (text : str) : Prop :=
  exists f o r,
    reconstructs k [] (map non_space (fst st)) f
    /\ non_space (snd st) = o ++ r
    /\ suffix_of o (last (map non_space (fst st)) [])
    /\ (length o <= k)%nat
    /\ text = f ++ r.

Definition str_dec : forall a b : str, {a = b} + {a <> b} :=
  list_eq_dec ascii_dec.

(** The parents of a run with a given id, and the children that name it. *)
Definition parents_with_id (pid : str) (chunks : list Chunk) : list Chunk :=
  filter (fun q => Level_eqb (level q) parent && str_eqb (chunk_id q) pid)
         chunks.

Definition children_of (pid : str) (chunks : list Chunk) : list Chunk :=
  filter
    (fun c =>
       Level_eqb (level c) child
       && match parent_id c with
          | Some q => str_eqb q pid
          | None => false
          end)
    chunks.

(** ** Paragraph accumulation *)

(** ['\n\n'.join(paragraphs)] *)
Fixpoint join_paragraphs (paragraphs : list str) : str :=
  match paragraphs with
  | [] => []
  | p :: rest =>
      match rest with
      | [] => p
      | _ :: _ => p ++ [NL; NL] ++ join_paragraphs rest
      end
  end.

(** [test_chunk] of the paragraph loop (line 308). *)
Definition test_chunk (current_chunk para : str) : str :=
  if truthy current_chunk then current_chunk ++ [NL; NL] ++ para else para.

(** The accumulator after paragraphs that all fit. *)
Definition accumulate (current_chunk : str) (paragraphs : list str) : str :=
  fold_left test_chunk paragraphs current_chunk.

(** A string that does not start with whitespace. *)
Definition no_leading_space (s : str) : Prop :=
  match s with
  | [] => True
  | c :: _ => is_space c = false
  end.

(** ** Shape of the chunk dictionaries *)

(** The keys a chunk of the flat list carries: all have the sizes of their
    own content and a sequence number; a parent has its two child keys and
    no ['parent_id'], a child has ['parent_id'] and no child keys. *)
Definition well_formed_chunk (c : Chunk) : Prop :=
  char_count c = len (content c)
  /\ estimated_tokens c = len (content c) / 4
  /\ global_id c <> None
  /\ match level c with
     | parent =>
         parent_id c = None /\ child_chunk_ids c <> None
         /\ child_count c <> None
     | child =>
         parent_id c <> None /\ child_chunk_ids c = None
         /\ child_count c = None
     end.

(** The chunks of the grouped view, section by section. *)
Definition grouped_chunks (self : Chunker) : list Chunk :=
  flat_map (fun e => parent_chunks (snd e) ++ child_chunks (snd e))
           (hierarchical_chunks self).

(** A section record agrees with its document. *)
Definition section_record_ok (doc : str * str) (e : str * SectionData)
    : Prop :=
  fst e = fst doc
  /\ sd_section_name (snd e) = fst doc
  /\ original_length (snd e) = len (snd doc)
  /\ Forall (fun c => level c = parent /\ section_name c = fst doc)
       (parent_chunks (snd e))
  /\ Forall (fun c => level c = child /\ section_name c = fst doc)
       (child_chunks (snd e)).

(** ** The RAG-ready export *)

Definition BAR : ascii := ascii_of_nat 124.

Definition ascii_eqb (a b : ascii) : bool :=
  if ascii_dec a b then true else false.

(** [s.replace(c, new)] for a pattern [c] of one character. *)
Definition replace_char (c : ascii) (new : str) (s : str) : str :=
  flat_map (fun x => if ascii_eqb x c then new else [x]) s.

(** [f"{z}"] for an integer. *)
Definition str_of_Z (z : Z) : str :=
  if z <? 0 then lit "-" ++ str_of_nat (Z.to_nat (- z))
  else str_of_nat (Z.to_nat z).

(** [chunk['level']], the strings ['parent'] and ['child']. *)
Definition level_str (l : Level) : str :=
  match l with
  | parent => lit "parent"
  | child => lit "child"
  end.

(** [safe_content] (lines 488-492): the bar becomes ["&#124;"], the
    newline a backslash followed by [n]. *)
Definition safe_content (content : str) : str :=
  replace_char NL (lit "\n") (replace_char BAR (lit "&#124;") content).

(** The line written for one chunk (lines 486-498). *)
Definition rag_line (chunk : Chunk) : str :=
  let parent_id :=
    match parent_id chunk with
    | Some pid => pid
    | None => lit "ROOT"
    end in
  chunk_id chunk ++ [BAR] ++ level_str (level chunk) ++ [BAR]
  ++ section_name chunk ++ [BAR] ++ parent_id ++ [BAR]
  ++ str_of_Z (estimated_tokens chunk) ++ [BAR]
  ++ content_hash chunk ++ [BAR] ++ safe_content (content chunk) ++ [NL].

(** The text [_save_rag_format] writes to the file it opens. *)
Definition _save_rag_format (self : Chunker) : str :=
  lit "# SMART RAG-READY CHUNKS" ++ [NL]
  ++ lit "# Format: ID|LEVEL|SECTION|PARENT|TOKENS|HASH|CONTENT" ++ [NL; NL]
  ++ concat (map rag_line (all_chunks self)).

(** The number of occurrences of a character. *)
Definition count_char (c : ascii) (s : str) : nat :=
  length (filter (fun x => ascii_eqb x c) s).

(** A field that holds no bar and no newline. *)
Definition plain_field (s : str) : bool :=
  forallb (fun x => negb (ascii_eqb x BAR) && negb (ascii_eqb x NL)) s.

(** The fields of a chunk other than the content are plain. *)
Definition plain_chunk (c : Chunk) : bool :=
  plain_field (chunk_id c) && plain_field (section_name c)
  && match parent_id c with
     | Some pid => plain_field pid
     | None => true
     end
  && plain_field (content_hash c).

(** ** Section names *)

(** [\w] on one character of a [str] pattern: the alphanumeric characters
    and the underscore. *)
Definition is_word (c : ascii) : bool :=
  let n := nat_of_ascii c in
  (((48 <=? n) && (n <=? 57)) || ((65 <=? n) && (n <=? 90)) || (n =? 95)
   || ((97 <=? n) && (n <=? 122)) || (n =? 170)
   || ((178 <=? n) && (n <=? 179)) || (n =? 181)
   || ((185 <=? n) && (n <=? 186)) || ((188 <=? n) && (n <=? 190))
   || ((192 <=? n) && (n <=? 214)) || ((216 <=? n) && (n <=? 246))
   || ((248 <=? n) && (n <=? 255)))%nat.

(** The characters [str.lower] changes: [A]-[Z] and the accented capitals
    192-214 and 216-222. *)
Definition is_upper (c : ascii) : bool :=
  let n := nat_of_ascii c in
  (((65 <=? n) && (n <=? 90)) || ((192 <=? n) && (n <=? 214))
   || ((216 <=? n) && (n <=? 222)))%nat.

Definition lower_char (c : ascii) : ascii :=
  if is_upper c then ascii_of_nat (nat_of_ascii c + 32) else c.

(** [s.lower()] *)
Definition lower (s : str) : str := map lower_char s.

Definition HYPHEN : ascii := ascii_of_nat 45.
Definition UNDERSCORE : ascii := ascii_of_nat 95.

(** [re.sub(r'[^\w\s-]', '', name)] *)
Definition drop_special (name : str) : str :=
  filter (fun c => is_word c || is_space c || ascii_eqb c HYPHEN) name.

(** [re.sub(r'\s+', '_', s)]: every maximal run of whitespace becomes one
    underscore; [in_run] says that the previous character was whitespace. *)
Fixpoint underscore_runs (in_run : bool) (s : str) : str :=
  match s with
  | [] => []
  | c :: rest =>
      if is_space c then
        if in_run then underscore_runs true rest
        else UNDERSCORE :: underscore_runs true rest
      else c :: underscore_runs false rest
  end.

(** [_clean_section_name] (lines 126-130).  [is_word] and [lower] are the
    tables of the code points below 256, where [str.lower] gives one
    character for one; above them it can give two, the second of which
    is no word character. *)
Definition _clean_section_name (name : str) : str :=
  let clean_name := drop_special name in
  let clean_name := underscore_runs false (strip clean_name) in
  lower clean_name.

(** The characters a cleaned name is made of: word characters that
    [str.lower] leaves alone, and the hyphen. *)
Definition name_char (c : ascii) : bool :=
  (is_word c && negb (is_upper c)) || ascii_eqb c HYPHEN.

(** ** Preprocessing *)

Definition CR : ascii := ascii_of_nat 13.
Definition TAB : ascii := ascii_of_nat 9.
Definition BACKTICK : ascii := ascii_of_nat 96.

(** The fence of a code block, three backticks. *)
Definition fence : str := [BACKTICK; BACKTICK; BACKTICK].

(** The first occurrence of the fence: the text before it and the text
    after it. *)
Fixpoint find_fence (s : str) : option (str * str) :=
  match s with
  | [] => None
  | c :: rest =>
      if starts_with fence s then Some ([], skipn 3 s)
      else
        match find_fence rest with
        | Some (before, after) => Some (c :: before, after)
        | None => None
        end
  end.

(** The match of the pattern of line 141, a fence, as little text as
    possible and a fence, at the start of [s]. *)
Definition fenced_block (s : str) : option str :=
  if starts_with fence s then
    match find_fence (skipn 3 s) with
    | Some (body, _) => Some (fence ++ body ++ fence)
    | None => None
    end
  else None.

(** [f"<<CODE_BLOCK_{n}>>"] *)
Definition placeholder (n : nat) : str :=
  lit "<<CODE_BLOCK_" ++ str_of_nat n ++ lit ">>".

(** [re.sub(pattern, save_code, content)] (lines 136-141): the text with
    every code block replaced by its placeholder, and the blocks in order.
    [n] blocks were saved before; [skip] characters of the current match
    are still to be passed over. *)
Fixpoint save_code_blocks (skip n : nat) (s : str) : str * list str :=
  match s with
  | [] => ([], [])
  | c :: rest =>
      match skip with
      | S k => save_code_blocks k n rest
      | O =>
          match fenced_block s with
          | Some block =>
              let '(text, blocks) :=
                save_code_blocks (length block - 1) (S n) rest in
              (placeholder n ++ text, block :: blocks)
          | None =>
              let '(text, blocks) := save_code_blocks 0 n rest in
              (c :: text, blocks)
          end
      end
  end.

(** [re.sub(r'\r\n', '\n', content)] *)
Fixpoint normalize_line_endings (s : str) : str :=
  match s with
  | [] => []
  | c :: rest =>
      match rest with
      | d :: rest2 =>
          if ascii_eqb c CR && ascii_eqb d NL
          then NL :: normalize_line_endings rest2
          else c :: normalize_line_endings rest
      | [] => [c]
      end
  end.

(** [re.sub(r'\n{3,}', '\n\n', content)]: of a run of newlines the first
    two are kept; [seen] newlines of the current run were read. *)
Fixpoint collapse_blank_lines (seen : nat) (s : str) : str :=
  match s with
  | [] => []
  | c :: rest =>
      if ascii_eqb c NL then
        if (seen <? 2)%nat then c :: collapse_blank_lines (S seen) rest
        else collapse_blank_lines (S seen) rest
      else c :: collapse_blank_lines 0 rest
  end.

(** [re.sub(r'[ \t]+', ' ', content)] *)
Fixpoint collapse_spaces (in_run : bool) (s : str) : str :=
  match s with
  | [] => []
  | c :: rest =>
      if ascii_eqb c SP || ascii_eqb c TAB then
        if in_run then collapse_spaces true rest
        else SP :: collapse_spaces true rest
      else c :: collapse_spaces false rest
  end.

(** [re.sub(r' \n', '\n', content)] *)
Fixpoint drop_trailing_spaces (s : str) : str :=
  match s with
  | [] => []
  | c :: rest =>
      match rest with
      | d :: rest2 =>
          if ascii_eqb c SP && ascii_eqb d NL
          then NL :: drop_trailing_spaces rest2
          else c :: drop_trailing_spaces rest
      | [] => [c]
      end
  end.

(** [s.replace(old, new)] for a pattern [old] that is not empty; [skip]
    characters of the current occurrence are still to be passed over. *)
Fixpoint replace_all (old new : str) (skip : nat) (s : str) : str :=
  match s with
  | [] => []
  | c :: rest =>
      match skip with
      | S k => replace_all old new k rest
      | O =>
          if starts_with old s
          then new ++ replace_all old new (length old - 1) rest
          else c :: replace_all old new 0 rest
      end
  end.

(** The loop that restores the code blocks (lines 150-151). *)
Definition restore_code_blocks (content : str) (code_blocks : list str)
    : str :=
  fold_left
    (fun content entry =>
       replace_all (placeholder (fst entry)) (snd entry) 0 content)
    (enumerate 0 code_blocks) content.

(** [self.domain_acronyms], in the order of the dictionary. *)
Definition domain_acronyms : list (str * str) :=
  [(lit "UE", lit "User Equipment (mobile device)");
   (lit "MME", lit "Mobility Management Entity (core network)");
   (lit "HSS", lit "Home Subscriber Server (user database)");
   (lit "eNodeB", lit "Evolved Node B (base station)");
   (lit "EPS", lit "Evolved Packet System (LTE core)");
   (lit "PDN", lit "Packet Data Network (internet)");
   (lit "QCI", lit "QoS Class Identifier (service quality)");
   (lit "APN", lit "Access Point Name (network gateway)");
   (lit "IMSI", lit "International Mobile Subscriber Identity");
   (lit "GUTI", lit "Globally Unique Temporary Identifier");
   (lit "VoLTE", lit "Voice over LTE (voice calls)");
   (lit "IMS", lit "IP Multimedia Subsystem (services)");
   (lit "SIP", lit "Session Initiation Protocol (signaling)");
   (lit "RTP", lit "Real-time Transport Protocol (media)");
   (lit "PCRF", lit "Policy and Charging Rules Function");
   (lit "PGW", lit "Packet Data Network Gateway");
   (lit "SGW", lit "Serving Gateway (data forwarding)");
   (lit "TAU", lit "Tracking Area Update (location)");
   (lit "NAS", lit "Non-Access Stratum (signaling)");
   (lit "EUTRA", lit "Evolved Universal Terrestrial Radio Access");
   (lit "IoT", lit "Internet of Things");
   (lit "PCC", lit "Policy And Charging Control");
   (lit "EPC", lit "Evolved Packet Core");
   (lit "RLC", lit "Radio Link Control");
   (lit "UL", lit "Up Link");
   (lit "TFT", lit "Traffic Flow Template")].

Definition opt_word (c : option ascii) : bool :=
  match c with
  | Some x => is_word x
  | None => false
  end.

(** [\b] between two neighbours, [None] standing for an end of the
    string: exactly one side is a word character. *)
Definition word_boundary (prev next : option ascii) : bool :=
  xorb (opt_word prev) (opt_word next).

(** The pattern [\b acronym \b] matches at the start of [s], [prev] being
    the character before. *)
Definition matches_word (acronym : str) (prev : option ascii) (s : str)
    : bool :=
  word_boundary prev (hd_error s)
  && starts_with acronym s
  && word_boundary (last (map Some acronym) prev)
       (hd_error (skipn (length acronym) s)).

(** [re.sub(pattern, replacement, content, count=1)] when the pattern is
    found, [None] when [re.search] finds nothing.  The replacement is
    inserted as it is, which is what [re.sub] does with a replacement
    that holds no backslash ([literal_entry]); the replacements of the
    source hold none.  With a backslash [re.sub] expands an escape or
    raises [re.error], which is not modelled. *)
Fixpoint sub_first_word (acronym replacement : str) (prev : option ascii)
    (s : str) : option str :=
  match s with
  | [] => if matches_word acronym prev [] then Some replacement else None
  | c :: rest =>
      if matches_word acronym prev s
      then Some (replacement ++ skipn (length acronym) s)
      else option_map (cons c)
             (sub_first_word acronym replacement (Some c) rest)
  end.

(** [f"{acronym} ({definition})"] *)
Definition acronym_with_definition (acronym definition : str) : str :=
  acronym ++ lit " (" ++ definition ++ lit ")".

(** The body of the loop of [_add_acronym_definitions]; the state is the
    content and the set [defined_acronyms]. *)
Definition define_acronym (st : str * list str) (entry : str * str)
    : str * list str :=
  let '(content, defined_acronyms) := st in
  let '(acronym, definition) := entry in
  match sub_first_word acronym
          (acronym_with_definition acronym definition) None content with
  | Some replaced =>
      if negb (existsb (str_eqb acronym) defined_acronyms)
      then (replaced, acronym :: defined_acronyms)
      else (content, defined_acronyms)
  | None => (content, defined_acronyms)
  end.

Definition _add_acronym_definitions (acronyms : list (str * str))
    (content : str) : str :=
  fst (fold_left define_acronym acronyms (content, [])).

Definition _preprocess_content (acronyms : list (str * str))
    (content : str) : str :=
  let '(content, code_blocks) := save_code_blocks 0 0 content in
  let content := normalize_line_endings content in
  let content := collapse_blank_lines 0 content in
  let content := collapse_spaces false content in
  let content := drop_trailing_spaces content in
  let content := restore_code_blocks content code_blocks in
  let content := _add_acronym_definitions acronyms content in
  strip content.

(** No tab, no space after a space, and no newline after a space, in the
    string [s] that follows the character [prev]. *)
Fixpoint tidy_after (prev : ascii) (s : str) : bool :=
  match s with
  | [] => true
  | c :: rest =>
      negb (ascii_eqb c TAB)
      && negb (ascii_eqb prev SP && (ascii_eqb c SP || ascii_eqb c NL))
      && tidy_after c rest
  end.

Definition tidy (s : str) : bool := tidy_after NL s.

(** No tab and no space after a space. *)
Fixpoint spaced_after (prev : ascii) (s : str) : bool :=
  match s with
  | [] => true
  | c :: rest =>
      negb (ascii_eqb c TAB)
      && negb (ascii_eqb prev SP && ascii_eqb c SP)
      && spaced_after c rest
  end.

(** The definition of an acronym keeps a tidy text tidy. *)
Definition tidy_entry (entry : str * str) : bool :=
  truthy (fst entry)
  && negb (ascii_eqb (last (fst entry) NL) SP)
  && tidy_after (last (fst entry) NL)
       (lit " (" ++ snd entry ++ lit ")").

(** ** Code blocks and their placeholders *)

(** The text every placeholder begins with. *)
Definition placeholder_prefix : str := lit "<<CODE_BLOCK_".

(** The text of a placeholder does not occur in [s]. *)
Fixpoint no_placeholder_text (s : str) : bool :=
  match s with
  | [] => true
  | _ :: rest =>
      negb (starts_with placeholder_prefix s) && no_placeholder_text rest
  end.

(** A text cut into the characters outside the code blocks and the code
    blocks. *)
Inductive piece :=
| Plain (c : ascii)
| Code (block : str).

Definition piece_text (p : piece) : str :=
  match p with
  | Plain c => [c]
  | Code block => block
  end.

Definition pieces_text (ps : list piece) : str := flat_map piece_text ps.

Fixpoint code_pieces (ps : list piece) : list str :=
  match ps with
  | [] => []
  | Plain _ :: rest => code_pieces rest
  | Code block :: rest => block :: code_pieces rest
  end.

(** The text while the blocks are restored: the blocks numbered below
    [k] are back, the others are placeholders; [n] is the number of the
    first block of [ps]. *)
Fixpoint text_at_stage (k n : nat) (ps : list piece) : str :=
  match ps with
  | [] => []
  | Plain c :: rest => c :: text_at_stage k n rest
  | Code block :: rest =>
      (if (n <? k)%nat then block else placeholder n)
        ++ text_at_stage k (S n) rest
  end.

(** A code block begins and ends with a fence. *)
Definition fenced (p : piece) : Prop :=
  match p with
  | Plain _ => True
  | Code block => exists body, block = fence ++ body ++ fence
  end.

(** No occurrence of [old] begins in [x] when [y] follows. *)
Fixpoint no_start (old x y : str) : bool :=
  match x with
  | [] => true
  | _ :: x' => negb (starts_with old (x ++ y)) && no_start old x' y
  end.

Definition LT : ascii := "<"%char.

(** A part of the placeholder prefix after its first character: no
    backtick, and an angle bracket at most in front, with something after
    it. *)
Definition inner_pattern (p : str) : bool :=
  match p with
  | [] => true
  | p0 :: p1 =>
      negb (ascii_eqb p0 BACKTICK)
      && forallb (fun x => negb (ascii_eqb x LT) && negb (ascii_eqb x BACKTICK))
           p1
      && (negb (ascii_eqb p0 LT) || truthy p1)
  end.

(** [re.sub] reads a backslash in the replacement as the start of an
    escape; without one the replacement is inserted as it is. *)
Definition BACKSLASH : ascii := ascii_of_nat 92.

Definition no_backslash (s : str) : bool :=
  forallb (fun c => negb (ascii_eqb c BACKSLASH)) s.

(** An entry whose replacement [f"{acronym} ({definition})"] holds no
    backslash, as those of the source. *)
Definition literal_entry (entry : str * str) : bool :=
  no_backslash (fst entry) && no_backslash (snd entry).

(** ** Loading *)

(** [d[k] = v] on a dictionary kept in insertion order: a key that is
    present keeps its place. *)
Fixpoint dict_set (d : list (str * str)) (k v : str) : list (str * str) :=
  match d with
  | [] => [(k, v)]
  | (k', v') :: rest =>
      if str_eqb k' k then (k', v) :: rest
      else (k', v') :: dict_set rest k v
  end.

(** The body of the loop of [load_sections] (lines 90-111) for one file:
    [stem] is the base name of the file without its extension, [read] the
    text read from it, or [None] when opening or reading it raised, which
    the loop reports and survives. *)
Definition load_file (config : Config) (acronyms : list (str * str))
    (sections : list (str * str)) (file : str * option str)
    : list (str * str) :=
  let '(stem, read) := file in
  let section_name := _clean_section_name stem in
  match read with
  | Some text =>
      let content := strip text in
      if len content <? min_chunk_size config then sections
      else dict_set sections section_name
             (_preprocess_content acronyms content)
  | None => sections
  end.

(** [a // d] on integers. *)
Definition int_floordiv (a d : Z) : result Z :=
  if d =? 0 then Raise ZeroDivisionError else Ok (a / d).

(** [load_sections] on the files found, in sorted order: the sections
    stored, and the value returned.  The summary printed for a dictionary
    that is not empty divides by the child size (line 120). *)
Definition load_sections (config : Config) (acronyms : list (str * str))
    (sections : list (str * str)) (txt_files : list (str * option str))
    : list (str * str) * result bool :=
  match txt_files with
  | [] => (sections, Ok false)
  | _ :: _ =>
      let sections :=
        fold_left (load_file config acronyms) txt_files sections in
      (sections,
       bind (match sections with
             | [] => Ok tt
             | _ :: _ =>
                 bind (int_floordiv (available_context config)
                         (child_chunk_size config))
                      (fun _ => Ok tt)
             end)
            (fun _ => Ok (0 <? len_list sections)))
  end.

(** A file the loop keeps: it was read and, trimmed, is long enough. *)
Definition kept (config : Config) (file : str * option str) : bool :=
  match snd file with
  | Some text => negb (len (strip text) <? min_chunk_size config)
  | None => false
  end.

(** A section as [load_sections] stores it: the cleaned stem of a file
    that was read and is long enough, with the preprocessed text. *)
Definition loaded_from (config : Config) (acronyms : list (str * str))
    (txt_files : list (str * option str)) (doc : str * str) : Prop :=
  exists stem text,
    In (stem, Some text) txt_files
    /\ fst doc = _clean_section_name stem
    /\ min_chunk_size config <= len (strip text)
    /\ snd doc = _preprocess_content acronyms (strip text).

(** A small configuration with a minimum length of 10, and three files:
    one kept, one too short, one that could not be read. *)
Definition tiny_config : Config := mkConfig 2867 40 20 5 10.

Definition three_files : list (str * option str) :=
  [(lit "Intro Notes (v2)",
    Some (lit "  The UE attaches. The MME answers at once.  "));
   (lit "todo", Some (lit " later "));
   (lit "broken", None)].

(** A fingerprint of hexadecimal digits, as the MD5 prefix is. *)
Definition hex_digest : str -> str := fun _ => lit "0a1b2c3d".

(** Two letters with [n] spaces between them. *)
Definition padded (n : nat) : str := lit "a" ++ repeat SP n ++ lit "b".

(** * Properties *)

(** ** Lists and numbering *)

Lemma enumerate_app {A : Type} (l1 l2 : list A) (g : nat) :
  enumerate g (l1 ++ l2) = enumerate g l1 ++ enumerate (g + length l1) l2.
Proof.
  revert g; induction l1 as [|x l1 IH]; intros g; simpl.
  - now rewrite Nat.add_0_r.
  - rewrite IH. do 3 f_equal. lia.
Qed.

Lemma enumerate_length {A : Type} (l : list A) (g : nat) :
  length (enumerate g l) = length l.
Proof. revert g; induction l; intros; simpl; auto. Qed.

Lemma enumerate_snd {A : Type} (l : list A) (g : nat) :
  map snd (enumerate g l) = l.
Proof. revert g; induction l; intros; simpl; f_equal; auto. Qed.

Lemma enumerate_fst {A : Type} (l : list A) (g : nat) :
  map fst (enumerate g l) = seq g (length l).
Proof. revert g; induction l; intros; simpl; f_equal; auto. Qed.

Lemma enumerate_In {A : Type} (l : list A) (g i : nat) (x : A) :
  In (i, x) (enumerate g l) ->
  (g <= i < g + length l)%nat /\ In x l.
Proof.
  revert g; induction l as [|y l IH]; intros g; simpl; [tauto|].
  intros [E | H].
  - inversion E; subst. split; [lia | auto].
  - apply IH in H. split; [lia | tauto].
Qed.

Lemma number_from_app (g : nat) (l1 l2 : list Chunk) :
  number_from g (l1 ++ l2)
  = number_from g l1 ++ number_from (g + length l1) l2.
Proof. unfold number_from. now rewrite enumerate_app, map_app. Qed.

Lemma number_from_length (g : nat) (l : list Chunk) :
  length (number_from g l) = length l.
Proof. unfold number_from. now rewrite length_map, enumerate_length. Qed.

Lemma number_from_global_id (g : nat) (l : list Chunk) :
  map global_id (number_from g l) = map Some (seq g (length l)).
Proof.
  unfold number_from. rewrite map_map. simpl.
  rewrite <- enumerate_fst with (l := l), map_map. reflexivity.
Qed.

Lemma number_from_In (g : nat) (l : list Chunk) (c : Chunk) :
  In c (number_from g l) ->
  exists i c0, c = set_global_id c0 i /\ In c0 l
               /\ (g <= i < g + length l)%nat.
Proof.
  unfold number_from. rewrite in_map_iff.
  intros [[i c0] [E H]]. simpl in E. apply enumerate_In in H.
  exists i, c0. intuition congruence.
Qed.

(** A function of the keys other than [global_id] does not see the
    numbering. *)
Lemma filter_number_from {B : Type} (h : Chunk -> B) (P : Chunk -> bool)
    (g : nat) (l : list Chunk) :
  (forall c i, h (set_global_id c i) = h c) ->
  (forall c i, P (set_global_id c i) = P c) ->
  map h (filter P (number_from g l)) = map h (filter P l).
Proof.
  intros Hh HP. unfold number_from.
  revert g; induction l as [|c l IH]; intros g; simpl; [reflexivity|].
  rewrite HP. destruct (P c); simpl; rewrite ?Hh, IH; reflexivity.
Qed.

Lemma filter_number_from_rel (P : Chunk -> bool) (g : nat)
    (l : list Chunk) :
  (forall c i, P (set_global_id c i) = P c) ->
  Forall2 (fun c' c => exists i, c' = set_global_id c i)
          (filter P (number_from g l)) (filter P l).
Proof.
  intros HP. unfold number_from.
  revert g; induction l as [|c l IH]; intros g; simpl; [constructor|].
  rewrite HP. destruct (P c); [constructor; eauto | apply IH].
Qed.

Lemma filter_number_from_single (P : Chunk -> bool) (g : nat)
    (l : list Chunk) (p : Chunk) :
  (forall c i, P (set_global_id c i) = P c) ->
  filter P l = [p] ->
  exists i, filter P (number_from g l) = [set_global_id p i].
Proof.
  intros HP E. pose proof (filter_number_from_rel P g l HP) as H.
  rewrite E in H. inversion H as [|x y l1 l2 [i ->] Hnil]; subst.
  inversion Hnil; subst. eauto.
Qed.

Section AssemblyFacts.

Variable digest8 : str -> str.
Variable config : Config.

Lemma assign_global_ids_spec (g : nat) (l : list Chunk) :
  assign_global_ids g l = (number_from g l, (g + length l)%nat).
Proof.
  revert g; induction l as [|c l IH]; intros g; simpl.
  - now rewrite Nat.add_0_r.
  - rewrite IH. unfold number_from. simpl. do 2 f_equal. lia.
Qed.

Lemma process_sections_spec (sections : list (str * str))
    (self : Chunker) (g : nat) :
  let final := fold_left (process_section digest8 config) sections (self, g) in
  all_chunks (fst final)
  = all_chunks self
    ++ number_from g (unnumbered_chunks digest8 config sections)
  /\ snd final
     = (g + length (unnumbered_chunks digest8 config sections))%nat.
Proof.
  revert self g; induction sections as [|[name text] rest IH];
    intros self g; simpl.
  - rewrite app_nil_r, Nat.add_0_r. auto.
  - fold (section_chunks digest8 config name text).
    rewrite assign_global_ids_spec.
    match goal with
    | |- context [fold_left _ rest (?st, ?g')] =>
        destruct (IH st g') as [Ha Hg]
    end.
    simpl in Ha, Hg. rewrite Ha, Hg.
    rewrite number_from_app, length_app, <- app_assoc.
    split; [reflexivity | lia].
Qed.

(** The flat list of a run is the numbering, from 1, of the chunks of the
    sections in order. *)
Lemma all_chunks_build (sections : list (str * str)) :
  all_chunks (build_hierarchy digest8 config sections)
  = number_from 1 (unnumbered_chunks digest8 config sections).
Proof.
  unfold build_hierarchy.
  destruct (process_sections_spec sections (mkChunker [] []) 1) as [H _].
  exact H.
Qed.

End AssemblyFacts.

(** ** Identifiers *)

Lemma string_of_uint_digits (d : Decimal.uint) :
  forallb is_digit (lit (NilEmpty.string_of_uint d)) = true.
Proof. induction d; simpl; auto. Qed.

Lemma str_of_nat_digits (i : nat) : forallb is_digit (str_of_nat i) = true.
Proof. apply string_of_uint_digits. Qed.

Lemma str_of_nat_inj (i j : nat) : str_of_nat i = str_of_nat j -> i = j.
Proof.
  unfold str_of_nat, lit. intros H.
  apply (f_equal string_of_list_ascii) in H.
  rewrite !string_of_list_ascii_of_string in H.
  apply (f_equal NilEmpty.uint_of_string) in H.
  rewrite !NilEmpty.usu in H. inversion H as [H'].
  apply (f_equal Nat.of_uint) in H'.
  now rewrite !Unsigned.of_to in H'.
Qed.

(** A marker that is not a digit, followed by digits only, is found in one
    way from the end of a string. *)
Lemma marker_from_end (m : ascii) (d1 d2 r1 r2 : str) :
  is_digit m = false ->
  forallb is_digit d1 = true -> forallb is_digit d2 = true ->
  d1 ++ m :: r1 = d2 ++ m :: r2 -> d1 = d2 /\ r1 = r2.
Proof.
  intros Hm. revert d2; induction d1 as [|a d1 IH]; intros [|b d2];
    simpl; intros H1 H2 E.
  - inversion E; auto.
  - inversion E; subst. apply andb_prop in H2. destruct H2 as [H2 _].
    congruence.
  - inversion E; subst. apply andb_prop in H1. destruct H1 as [H1 _].
    congruence.
  - inversion E; subst.
    apply andb_prop in H1. apply andb_prop in H2.
    destruct (IH d2) as [-> ->]; tauto.
Qed.

Lemma forallb_rev {A : Type} (f : A -> bool) (l : list A) :
  forallb f (rev l) = forallb f l.
Proof.
  induction l as [|x l IH]; simpl; [reflexivity|].
  rewrite forallb_app, IH. simpl. rewrite andb_true_r. apply andb_comm.
Qed.

Lemma tagged_number_inj (u m : ascii) (a b : str) (i j : nat) :
  is_digit m = false ->
  a ++ [u; m] ++ str_of_nat i = b ++ [u; m] ++ str_of_nat j ->
  a = b /\ i = j.
Proof.
  intros Hm E. apply (f_equal (@rev ascii)) in E.
  rewrite !rev_app_distr in E. simpl in E. rewrite <- !app_assoc in E.
  simpl in E.
  apply marker_from_end in E; auto;
    try (rewrite forallb_rev; apply str_of_nat_digits).
  destruct E as [E1 E2]. inversion E2 as [E3].
  apply (f_equal (@rev ascii)) in E1, E3. rewrite !rev_involutive in E1, E3.
  split; [assumption | now apply str_of_nat_inj].
Qed.

Lemma parent_id_inj (a b : str) (i j : nat) :
  a ++ lit "_P" ++ str_of_nat i = b ++ lit "_P" ++ str_of_nat j ->
  a = b /\ i = j.
Proof. apply tagged_number_inj. reflexivity. Qed.

Lemma child_id_inj (a b : str) (i j : nat) :
  a ++ lit "_C" ++ str_of_nat i = b ++ lit "_C" ++ str_of_nat j ->
  a = b /\ i = j.
Proof. apply tagged_number_inj. reflexivity. Qed.

Lemma str_eqb_eq (a b : str) : str_eqb a b = true <-> a = b.
Proof.
  unfold str_eqb. destruct (list_eq_dec ascii_dec a b); split;
    congruence.
Qed.

Lemma str_eqb_refl (a : str) : str_eqb a a = true.
Proof. now apply str_eqb_eq. Qed.

Lemma Level_eqb_eq (a b : Level) : Level_eqb a b = true <-> a = b.
Proof. destruct a, b; simpl; split; congruence. Qed.

(** ** Shape of the chunks of one section *)

Section BuilderFacts.

Variable digest8 : str -> str.
Variable config : Config.

Local Abbreviation create_parents := (_create_parent_chunks digest8 config).
Local Abbreviation create_children := (_create_child_chunks digest8 config).
Local Abbreviation families := (section_families digest8 config).

(** Both branches of [_create_parent_chunks] number some list of texts
    from 1. *)
Lemma create_parents_shape (name text : str) :
  exists texts,
    create_parents name text
    = map (fun e => parent_record digest8 name (fst e) (snd e))
          (enumerate 1 texts).
Proof.
  unfold _create_parent_chunks.
  destruct (len text <=? parent_chunk_size config).
  - exists [text]. reflexivity.
  - eexists. apply map_ext. intros [i t]. reflexivity.
Qed.

Lemma create_children_shape (name : str) (p : Chunk) (idx : nat) :
  exists texts,
    create_children name p idx
    = map (fun e => child_record digest8 name p idx (fst e) (snd e)
                      (content p))
          (enumerate 1 texts).
Proof.
  unfold _create_child_chunks.
  destruct (len (content p) <=? child_chunk_size config).
  - exists [content p]. reflexivity.
  - eexists. apply map_ext. intros [i t]. reflexivity.
Qed.

Lemma enumerate_map_enumerate {A B : Type} (F : nat -> A -> B)
    (g : nat) (l : list A) :
  enumerate g (map (fun e => F (fst e) (snd e)) (enumerate (S g) l))
  = map (fun e => (fst e, F (S (fst e)) (snd e))) (enumerate g l).
Proof.
  revert g; induction l as [|x l IH]; intros g; simpl; [reflexivity|].
  now rewrite IH.
Qed.

(** The families of a section: the parent at position [idx] carries the
    index [idx + 1]. *)
Lemma families_shape (name text : str) :
  exists texts,
    families name text
    = map (fun e => link_children digest8 config name
                      (fst e, parent_record digest8 name (S (fst e)) (snd e)))
          (enumerate 0 texts).
Proof.
  unfold section_families.
  destruct (create_parents_shape name text) as [texts ->].
  exists texts. rewrite enumerate_map_enumerate, map_map. reflexivity.
Qed.

Lemma link_children_ok (name : str) (idx : nat) (t : str) :
  family_ok name
    (link_children digest8 config name
       (idx, parent_record digest8 name (S idx) t)).
Proof.
  unfold link_children.
  set (p := parent_record digest8 name (S idx) t).
  destruct (create_children_shape name p idx) as [texts E].
  rewrite E.
  constructor; simpl; try reflexivity.
  - intros c Hc. apply in_map_iff in Hc. destruct Hc as [[i u] [<- _]].
    simpl. repeat split.
    rewrite Nat.add_1_r, <- !app_assoc. reflexivity.
  - rewrite map_map. simpl. rewrite length_map, enumerate_length.
    apply enumerate_fst.
Qed.

Lemma families_ok (name text : str) :
  Forall (family_ok name) (families name text).
Proof.
  destruct (families_shape name text) as [texts ->].
  apply Forall_forall. intros fam H. apply in_map_iff in H.
  destruct H as [[idx t] [<- _]]. apply link_children_ok.
Qed.

Lemma families_parent_ids (name text : str) :
  map (fun fam => chunk_id (fst fam)) (families name text)
  = map (fun i => name ++ lit "_P" ++ str_of_nat (S i))
        (seq 0 (length (families name text))).
Proof.
  destruct (families_shape name text) as [texts ->].
  rewrite length_map, enumerate_length, map_map.
  rewrite <- (enumerate_fst texts 0), map_map.
  apply map_ext. intros [idx t]. reflexivity.
Qed.

Local Abbreviation raw := (unnumbered_chunks digest8 config).
Local Abbreviation run := (fun sections =>
  all_chunks (build_hierarchy digest8 config sections)).

Lemma section_chunks_parent_part (name text : str) (p : Chunk) :
  In p (map fst (families name text)) ->
  level p = parent /\ section_name p = name.
Proof.
  rewrite in_map_iff. intros [fam [<- H]].
  pose proof (families_ok name text) as Hok.
  rewrite Forall_forall in Hok. destruct (Hok fam H). auto.
Qed.

Lemma section_chunks_child_part (name text : str) (c : Chunk) :
  In c (concat (map snd (families name text))) ->
  level c = child /\ section_name c = name
  /\ exists fam, In fam (families name text) /\ In c (snd fam).
Proof.
  rewrite in_concat. intros [cs [Hcs Hc]].
  apply in_map_iff in Hcs. destruct Hcs as [fam [<- Hfam]].
  pose proof (families_ok name text) as Hok.
  rewrite Forall_forall in Hok.
  destruct (fam_children _ _ (Hok fam Hfam) c Hc) as (? & ? & _).
  eauto.
Qed.

Lemma raw_section_name (sections : list (str * str)) (c : Chunk) :
  In c (raw sections) -> In (section_name c) (map fst sections).
Proof.
  unfold unnumbered_chunks. rewrite in_flat_map.
  intros [doc [Hdoc Hc]]. unfold section_chunks in Hc.
  apply in_app_or in Hc. apply in_map_iff. exists doc. split; [|assumption].
  destruct Hc as [Hc | Hc].
  - now apply section_chunks_parent_part in Hc.
  - now apply section_chunks_child_part in Hc.
Qed.

(** Within the numbering of the sections from any counter value, the
    parents of a section come before its children. *)
Lemma parents_numbered_first (sections : list (str * str)) (g : nat) :
  NoDup (map fst sections) ->
  forall p c,
    In p (number_from g (raw sections)) ->
    In c (number_from g (raw sections)) ->
    section_name p = section_name c ->
    level p = parent -> level c = child ->
    exists gp gc,
      global_id p = Some gp /\ global_id c = Some gc /\ (gp < gc)%nat.
Proof.
  revert g; induction sections as [|[name text] rest IH]; intros g Hnd;
    [simpl; tauto|].
  inversion Hnd as [|? ? Hnotin Hnd']; subst.
  intros p c Hp Hc Hsec Hlp Hlc.
  simpl in Hp, Hc. unfold section_chunks in Hp, Hc.
  rewrite !number_from_app in Hp, Hc.
  set (ps := map fst (families name text)) in *.
  set (cs := concat (map snd (families name text))) in *.
  assert (Hrest : forall x,
             In x (number_from (g + length (ps ++ cs)) (raw rest)) ->
             In (section_name x) (map fst rest)
             /\ exists i, global_id x = Some i
                          /\ (g + length ps + length cs <= i)%nat).
  { intros x Hx. apply number_from_In in Hx.
    destruct Hx as (i & x0 & -> & Hx0 & Hi). split.
    - simpl. now apply raw_section_name.
    - exists i. rewrite length_app in Hi. split; [reflexivity | lia]. }
  assert (Hps : forall x, In x (number_from g ps) ->
             level x = parent /\ section_name x = name
             /\ exists i, global_id x = Some i /\ (i < g + length ps)%nat).
  { intros x Hx. apply number_from_In in Hx.
    destruct Hx as (i & x0 & -> & Hx0 & Hi).
    apply section_chunks_parent_part in Hx0. simpl.
    repeat split; try tauto. exists i. split; [reflexivity | lia]. }
  assert (Hcs : forall x, In x (number_from (g + length ps) cs) ->
             level x = child /\ section_name x = name
             /\ exists i, global_id x = Some i
                  /\ (g + length ps <= i < g + length ps + length cs)%nat).
  { intros x Hx. apply number_from_In in Hx.
    destruct Hx as (i & x0 & -> & Hx0 & Hi).
    apply section_chunks_child_part in Hx0. simpl.
    repeat split; try tauto. exists i. split; [reflexivity | lia]. }
  apply in_app_or in Hp, Hc.
  destruct Hp as [Hp | Hp]; [apply in_app_or in Hp; destruct Hp as [Hp|Hp]|];
  (destruct Hc as [Hc | Hc];
     [apply in_app_or in Hc; destruct Hc as [Hc|Hc]|]);
  try (apply Hps in Hp; destruct Hp as (Hp1 & Hp2 & gp & Hp3 & Hp4));
  try (apply Hcs in Hp; destruct Hp as (Hp1 & Hp2 & gp & Hp3 & Hp4));
  try (apply Hps in Hc; destruct Hc as (Hc1 & Hc2 & gc & Hc3 & Hc4));
  try (apply Hcs in Hc; destruct Hc as (Hc1 & Hc2 & gc & Hc3 & Hc4));
  try congruence;
  try (exists gp, gc; repeat split; try assumption; lia).
  - apply Hrest in Hc. destruct Hc as (_ & gc & Hc3 & Hc4).
    exists gp, gc. repeat split; try assumption; lia.
  - apply Hrest in Hp. destruct Hp as (Hp & _).
    rewrite Hsec, Hc2 in Hp. contradiction.
  - now apply (IH (g + length (ps ++ cs))%nat Hnd' p c).
Qed.

(** ** Families of a run *)

Lemma filter_all {A : Type} (P : A -> bool) (l : list A) :
  (forall x, In x l -> P x = true) -> filter P l = l.
Proof.
  induction l as [|x l IH]; simpl; intros H; [reflexivity|].
  rewrite (H x (or_introl eq_refl)), IH; auto.
Qed.

Lemma filter_none {A : Type} (P : A -> bool) (l : list A) :
  (forall x, In x l -> P x = false) -> filter P l = [].
Proof.
  induction l as [|x l IH]; simpl; intros H; [reflexivity|].
  rewrite (H x (or_introl eq_refl)), IH; auto.
Qed.

Lemma filter_parents_raw (sections : list (str * str)) :
  of_level parent (raw sections)
  = map fst (all_families digest8 config sections).
Proof.
  unfold of_level, unnumbered_chunks, all_families.
  induction sections as [|doc rest IH]; simpl; [reflexivity|].
  unfold section_chunks at 1.
  rewrite !filter_app, map_app, IH, <- app_assoc. f_equal.
  - apply filter_all. intros x Hx.
    apply section_chunks_parent_part in Hx. apply Level_eqb_eq. tauto.
  - rewrite filter_none; [reflexivity|]. intros x Hx.
    apply section_chunks_child_part in Hx. destruct Hx as [Hx _].
    rewrite Hx. reflexivity.
Qed.

Lemma filter_children_raw (sections : list (str * str)) :
  of_level child (raw sections)
  = concat (map snd (all_families digest8 config sections)).
Proof.
  unfold of_level, unnumbered_chunks, all_families.
  induction sections as [|doc rest IH]; simpl; [reflexivity|].
  unfold section_chunks at 1.
  rewrite !filter_app, map_app, concat_app, IH, <- app_assoc.
  rewrite filter_none; [simpl; f_equal|].
  - apply filter_all. intros x Hx.
    apply section_chunks_child_part in Hx. apply Level_eqb_eq. tauto.
  - intros x Hx. apply section_chunks_parent_part in Hx.
    destruct Hx as [Hx _]. rewrite Hx. reflexivity.
Qed.

Lemma all_families_ok (sections : list (str * str)) (fam : Chunk * list Chunk) :
  In fam (all_families digest8 config sections) ->
  exists name, In name (map fst sections) /\ family_ok name fam.
Proof.
  unfold all_families. rewrite in_flat_map. intros [doc [Hdoc Hfam]].
  exists (fst doc). split; [now apply in_map|].
  pose proof (families_ok (fst doc) (snd doc)) as Hok.
  rewrite Forall_forall in Hok. auto.
Qed.

Lemma NoDup_app_intro {A : Type} (l1 l2 : list A) :
  NoDup l1 -> NoDup l2 -> (forall x, In x l1 -> In x l2 -> False) ->
  NoDup (l1 ++ l2).
Proof.
  induction l1 as [|x l1 IH]; simpl; intros H1 H2 H; [assumption|].
  inversion H1; subst. constructor.
  - intros Hin. apply in_app_or in Hin. destruct Hin; [tauto|]. eauto.
  - apply IH; eauto.
Qed.

Lemma NoDup_map_injective {A B : Type} (f : A -> B) (l : list A) :
  (forall x y, f x = f y -> x = y) -> NoDup l -> NoDup (map f l).
Proof.
  intros Hf. induction 1 as [|x l Hx Hl IH]; simpl; constructor; auto.
  rewrite in_map_iff. intros [y [E Hy]]. apply Hf in E. congruence.
Qed.

(** Parent ids are unique within a run whose section names are. *)
Lemma parent_ids_NoDup (sections : list (str * str)) :
  NoDup (map fst sections) ->
  NoDup (map (fun fam => chunk_id (fst fam))
             (all_families digest8 config sections)).
Proof.
  unfold all_families.
  induction sections as [|[name text] rest IH]; simpl; intros Hnd;
    [constructor|].
  inversion Hnd as [|? ? Hnotin Hnd']; subst.
  rewrite map_app. apply NoDup_app_intro; [| now apply IH |].
  - rewrite families_parent_ids. apply NoDup_map_injective.
    + intros i j E. apply parent_id_inj in E. lia.
    + apply seq_NoDup.
  - intros x H1 H2. rewrite families_parent_ids in H1.
    apply in_map_iff in H1. destruct H1 as [i [<- _]].
    apply in_map_iff in H2. destruct H2 as [fam [E Hfam]].
    apply all_families_ok in Hfam. destruct Hfam as [name' [Hn Hok]].
    rewrite (fam_id _ _ Hok) in E. apply parent_id_inj in E.
    destruct E as [-> _]. contradiction.
Qed.

Lemma family_child_ids_NoDup (name : str) (fam : Chunk * list Chunk) :
  family_ok name fam -> NoDup (map chunk_id (snd fam)).
Proof.
  intros Hok.
  assert (E : map chunk_id (snd fam)
              = map (fun i => chunk_id (fst fam) ++ lit "_C" ++ str_of_nat i)
                    (map chunk_index (snd fam))).
  { rewrite map_map. apply map_ext_in. intros c Hc.
    now destruct (fam_children _ _ Hok c Hc) as (_ & _ & _ & ->). }
  rewrite E, (fam_child_index _ _ Hok). apply NoDup_map_injective.
  - intros i j H. now apply child_id_inj in H.
  - apply seq_NoDup.
Qed.

(** Among the children of families with distinct parent ids, those that
    name a parent are its own children, in order. *)
Lemma children_of_family (F : list (Chunk * list Chunk)) :
  NoDup (map (fun fam => chunk_id (fst fam)) F) ->
  (forall fam c, In fam F -> In c (snd fam) ->
     level c = child /\ parent_id c = Some (chunk_id (fst fam))) ->
  forall fam, In fam F ->
    children_of (chunk_id (fst fam)) (concat (map snd F)) = snd fam.
Proof.
  induction F as [|f0 F IH]; simpl; intros Hnd Hch fam Hin; [tauto|].
  inversion Hnd as [|? ? Hnotin Hnd']; subst.
  unfold children_of in *. rewrite filter_app.
  destruct Hin as [<- | Hin].
  - rewrite filter_all, filter_none; [apply app_nil_r | |].
    + intros c Hc. apply in_concat in Hc. destruct Hc as [cs [Hcs Hc]].
      apply in_map_iff in Hcs. destruct Hcs as [f1 [<- Hf1]].
      destruct (Hch f1 c (or_intror Hf1) Hc) as [-> ->]. simpl.
      destruct (str_eqb (chunk_id (fst f1)) (chunk_id (fst f0))) eqn:E;
        [|reflexivity].
      apply str_eqb_eq in E. exfalso. apply Hnotin. rewrite <- E.
      apply (in_map (fun fam => chunk_id (fst fam))). assumption.
    + intros c Hc. destruct (Hch f0 c (or_introl eq_refl) Hc) as [-> ->].
      simpl. apply str_eqb_refl.
  - rewrite filter_none; [simpl; apply IH; auto|].
    intros c Hc. destruct (Hch f0 c (or_introl eq_refl) Hc) as [-> ->].
    simpl.
    destruct (str_eqb (chunk_id (fst f0)) (chunk_id (fst fam))) eqn:E;
      [|reflexivity].
    apply str_eqb_eq in E. exfalso. apply Hnotin. rewrite E.
    apply (in_map (fun fam => chunk_id (fst fam))). assumption.
Qed.

Lemma parents_with_id_family (F : list (Chunk * list Chunk)) :
  NoDup (map (fun fam => chunk_id (fst fam)) F) ->
  (forall fam, In fam F -> level (fst fam) = parent) ->
  forall fam, In fam F ->
    parents_with_id (chunk_id (fst fam)) (map fst F) = [fst fam].
Proof.
  induction F as [|f0 F IH]; simpl; intros Hnd Hl fam Hin; [tauto|].
  inversion Hnd as [|? ? Hnotin Hnd']; subst.
  unfold parents_with_id in *. simpl.
  rewrite (Hl f0 (or_introl eq_refl)). simpl.
  destruct Hin as [<- | Hin].
  - rewrite str_eqb_refl. f_equal. apply filter_none.
    intros p Hp. apply in_map_iff in Hp. destruct Hp as [f1 [<- Hf1]].
    rewrite (Hl f1 (or_intror Hf1)). simpl.
    destruct (str_eqb (chunk_id (fst f1)) (chunk_id (fst f0))) eqn:E;
      [|reflexivity].
    apply str_eqb_eq in E. exfalso. apply Hnotin. rewrite <- E.
    apply (in_map (fun fam => chunk_id (fst fam))). assumption.
  - destruct (str_eqb (chunk_id (fst f0)) (chunk_id (fst fam))) eqn:E.
    + apply str_eqb_eq in E. exfalso. apply Hnotin. rewrite E.
      apply (in_map (fun fam => chunk_id (fst fam))). assumption.
    + apply IH; auto.
Qed.

Lemma children_of_of_level (pid : str) (l : list Chunk) :
  children_of pid l = children_of pid (of_level child l).
Proof.
  unfold children_of, of_level.
  induction l as [|c l IH]; simpl; [reflexivity|].
  destruct (Level_eqb (level c) child) eqn:E; simpl; rewrite ?E; simpl;
    rewrite IH; reflexivity.
Qed.

Lemma parents_with_id_of_level (pid : str) (l : list Chunk) :
  parents_with_id pid l = parents_with_id pid (of_level parent l).
Proof.
  unfold parents_with_id, of_level.
  induction l as [|c l IH]; simpl; [reflexivity|].
  destruct (Level_eqb (level c) parent) eqn:E; simpl; rewrite ?E; simpl;
    rewrite IH; reflexivity.
Qed.

(** The two sides of the linkage, on the chunks before numbering. *)
Lemma raw_linkage (sections : list (str * str)) (fam : Chunk * list Chunk) :
  NoDup (map fst sections) ->
  In fam (all_families digest8 config sections) ->
  parents_with_id (chunk_id (fst fam)) (raw sections) = [fst fam]
  /\ children_of (chunk_id (fst fam)) (raw sections) = snd fam.
Proof.
  intros Hnd Hfam. split.
  - rewrite parents_with_id_of_level, filter_parents_raw.
    apply parents_with_id_family; auto using parent_ids_NoDup.
    intros f Hf. apply all_families_ok in Hf. destruct Hf as [n [_ Hok]].
    apply (fam_level _ _ Hok).
  - rewrite children_of_of_level, filter_children_raw.
    apply children_of_family; auto using parent_ids_NoDup.
    intros f c Hf Hc. apply all_families_ok in Hf.
    destruct Hf as [n [_ Hok]].
    destruct (fam_children _ _ Hok c Hc) as (? & _ & ? & _). auto.
Qed.

Lemma raw_parent_family (sections : list (str * str)) (p : Chunk) :
  In p (raw sections) -> level p = parent ->
  exists fam, In fam (all_families digest8 config sections) /\ p = fst fam.
Proof.
  intros Hp Hl.
  assert (H : In p (of_level parent (raw sections))).
  { apply filter_In. split; [assumption|]. now apply Level_eqb_eq. }
  rewrite filter_parents_raw in H. apply in_map_iff in H.
  destruct H as [fam [<- H]]. eauto.
Qed.

Lemma raw_child_in_family (sections : list (str * str)) (c : Chunk) :
  In c (raw sections) -> level c = child ->
  exists fam, In fam (all_families digest8 config sections)
              /\ In c (snd fam).
Proof.
  intros Hc Hl.
  assert (H : In c (of_level child (raw sections))).
  { apply filter_In. split; [assumption|]. now apply Level_eqb_eq. }
  rewrite filter_children_raw in H. apply in_concat in H.
  destruct H as [cs [Hcs H]]. apply in_map_iff in Hcs.
  destruct Hcs as [fam [<- Hfam]]. eauto.
Qed.

End BuilderFacts.

(** ** Sequencing, linkage and identifiers of a run *)

(** C6.  The [global_id] values of the flat list are 1, 2, 3, ... in list
    order, one counter running through all sections, and within a section
    every parent is numbered before every child. *)
Theorem global_sequence_contiguous (digest8 : str -> str) (config : Config)
    (sections : list (str * str)) :
  NoDup (map fst sections) ->
  let flat := all_chunks (build_hierarchy digest8 config sections) in
  map global_id flat = map Some (seq 1 (length flat))
  /\ forall p c,
       In p flat -> In c flat ->
       section_name p = section_name c ->
       level p = parent -> level c = child ->
       exists gp gc,
         global_id p = Some gp /\ global_id c = Some gc /\ (gp < gc)%nat.
Proof.
  intros Hnd flat. subst flat. rewrite all_chunks_build. split.
  - rewrite number_from_length. apply number_from_global_id.
  - now apply parents_numbered_first.
Qed.

Lemma global_sequence_contiguous_witness :
  let flat := all_chunks (build_hierarchy sample_digest small_config
                            small_sections) in
  map global_id flat = map Some (seq 1 8)
  /\ forall p c,
       In p flat -> In c flat ->
       section_name p = section_name c ->
       level p = parent -> level c = child ->
       exists gp gc,
         global_id p = Some gp /\ global_id c = Some gc /\ (gp < gc)%nat.
Proof.
  apply (global_sequence_contiguous sample_digest small_config
           small_sections).
  repeat constructor; simpl; intuition discriminate.
Defined.

(** C7.  Every child names exactly one parent of the run, whose
    [child_chunk_ids] holds the child's id once; every parent's
    [child_chunk_ids] is the list of ids, in order, of the children that
    name it, and [child_count] is its length. *)
Theorem parent_child_linkage (digest8 : str -> str) (config : Config)
    (sections : list (str * str)) :
  NoDup (map fst sections) ->
  let flat := all_chunks (build_hierarchy digest8 config sections) in
  (forall c, In c flat -> level c = child ->
     exists pid p ids,
       parent_id c = Some pid
       /\ parents_with_id pid flat = [p]
       /\ child_chunk_ids p = Some ids
       /\ count_occ str_dec ids (chunk_id c) = 1%nat)
  /\ (forall p, In p flat -> level p = parent ->
        child_chunk_ids p
        = Some (map chunk_id (children_of (chunk_id p) flat))
        /\ child_count p
           = Some (length (children_of (chunk_id p) flat))).
Proof.
  intros Hnd flat. subst flat. rewrite all_chunks_build.
  set (raw := unnumbered_chunks digest8 config sections).
  assert (Hkids : forall pid,
            map chunk_id (children_of pid (number_from 1 raw))
            = map chunk_id (children_of pid raw)).
  { intros pid. apply filter_number_from; reflexivity. }
  assert (Hparents : forall fam,
            In fam (all_families digest8 config sections) ->
            exists i, parents_with_id (chunk_id (fst fam))
                        (number_from 1 raw)
                      = [set_global_id (fst fam) i]).
  { intros fam Hfam.
    destruct (raw_linkage digest8 config sections fam Hnd Hfam) as [H _].
    apply filter_number_from_single; [reflexivity | exact H]. }
  split.
  - intros c Hc Hl. apply number_from_In in Hc.
    destruct Hc as (i & c0 & -> & Hc0 & _). simpl in Hl.
    destruct (raw_child_in_family digest8 config sections c0 Hc0 Hl)
      as (fam & Hfam & Hin).
    destruct (all_families_ok digest8 config sections fam Hfam)
      as (name & _ & Hok).
    destruct (Hparents fam Hfam) as [j Hj].
    exists (chunk_id (fst fam)), (set_global_id (fst fam) j),
      (map chunk_id (snd fam)).
    destruct (fam_children _ _ Hok c0 Hin) as (_ & _ & Hpid & _).
    repeat split; simpl; auto.
    + apply (fam_child_ids _ _ Hok).
    + apply NoDup_count_occ'.
      * apply (family_child_ids_NoDup name fam Hok).
      * now apply in_map.
  - intros p Hp Hl. apply number_from_In in Hp.
    destruct Hp as (i & p0 & -> & Hp0 & _). simpl in Hl.
    destruct (raw_parent_family digest8 config sections p0 Hp0 Hl)
      as (fam & Hfam & ->).
    destruct (all_families_ok digest8 config sections fam Hfam)
      as (name & _ & Hok).
    destruct (raw_linkage digest8 config sections fam Hnd Hfam) as [_ Hk].
    simpl. rewrite <- (length_map chunk_id (children_of _ (number_from _ _))).
    rewrite Hkids. fold raw in Hk. rewrite Hk, length_map. split.
    + apply (fam_child_ids _ _ Hok).
    + apply (fam_child_count _ _ Hok).
Qed.

Lemma parent_child_linkage_witness :
  let flat := all_chunks (build_hierarchy sample_digest small_config
                            small_sections) in
  (forall c, In c flat -> level c = child ->
     exists pid p ids,
       parent_id c = Some pid
       /\ parents_with_id pid flat = [p]
       /\ child_chunk_ids p = Some ids
       /\ count_occ str_dec ids (chunk_id c) = 1%nat)
  /\ (forall p, In p flat -> level p = parent ->
        child_chunk_ids p
        = Some (map chunk_id (children_of (chunk_id p) flat))
        /\ child_count p
           = Some (length (children_of (chunk_id p) flat))).
Proof.
  apply (parent_child_linkage sample_digest small_config small_sections).
  repeat constructor; simpl; intuition discriminate.
Defined.

(** C10.  The id of a child is its [parent_id] followed by ["_C"] and its
    own index, and any reading of the child id as a prefix, ["_C"] and a
    number gives back that parent id. *)
Theorem child_id_extends_parent_id (digest8 : str -> str) (config : Config)
    (sections : list (str * str)) (c : Chunk) :
  In c (all_chunks (build_hierarchy digest8 config sections)) ->
  level c = child ->
  exists pid,
    parent_id c = Some pid
    /\ chunk_id c = pid ++ lit "_C" ++ str_of_nat (chunk_index c)
    /\ forall q i, chunk_id c = q ++ lit "_C" ++ str_of_nat i -> q = pid.
Proof.
  rewrite all_chunks_build. intros Hc Hl. apply number_from_In in Hc.
  destruct Hc as (i & c0 & -> & Hc0 & _). simpl in *.
  destruct (raw_child_in_family digest8 config sections c0 Hc0 Hl)
    as (fam & Hfam & Hin).
  destruct (all_families_ok digest8 config sections fam Hfam)
    as (name & _ & Hok).
  destruct (fam_children _ _ Hok c0 Hin) as (_ & _ & Hpid & Hid).
  exists (chunk_id (fst fam)). repeat split; auto.
  intros q j E. rewrite Hid in E. apply child_id_inj in E. symmetry. tauto.
Qed.

Lemma child_id_extends_parent_id_witness :
  exists pid,
    Some (lit "intro_P2") = Some pid
    /\ lit "intro_P2_C1" = pid ++ lit "_C" ++ str_of_nat 1
    /\ forall q i, lit "intro_P2_C1" = q ++ lit "_C" ++ str_of_nat i ->
                   q = pid.
Proof.
  apply (child_id_extends_parent_id sample_digest small_config
           small_sections
           (nth 4 (all_chunks (build_hierarchy sample_digest small_config
                                 small_sections))
                (parent_record sample_digest [] 0 []))).
  - vm_compute. tauto.
  - reflexivity.
Defined.

(** ** The overlap seed of the paragraph loop *)

(** When the paragraph that overflowed fits the budget on its own, the
    accumulator becomes that paragraph: the seed computed from the emitted
    segment is not kept (line 350). *)
Lemma para_step_drops_seed (target_size overlap : Z) (chunks : list str)
    (current_chunk para : str) :
  truthy current_chunk = true ->
  len (current_chunk ++ [NL; NL] ++ para) > target_size ->
  len para <= target_size ->
  para_step target_size overlap (chunks, current_chunk) para
  = (chunks ++ [strip current_chunk], para).
Proof.
  intros Ht Hover Hfit. unfold para_step. rewrite Ht.
  destruct (Z.leb_spec (len (current_chunk ++ [NL; NL] ++ para))
              target_size); [lia|].
  destruct (Z.gtb_spec (len para) target_size); [lia | reflexivity].
Qed.

(** C1.  On [two_paragraphs] with a budget of 20 and an overlap of 13 the
    first segment is emitted because the second paragraph overflows; the
    seed computed from it is ["Beta gamma."], and the second segment does
    not begin with it. *)
Theorem overlap_seed_not_carried :
  _smart_split_content two_paragraphs 20 13
  = [lit "Alpha. Beta gamma."; lit "Delta epsilon."]
  /\ overlap_seed 13 (lit "Alpha. Beta gamma.") = lit "Beta gamma."
  /\ starts_with (lit "Beta gamma.") (lit "Delta epsilon.") = false.
Proof. repeat split. Qed.

(** ** Configuration *)

Lemma overlapping_config_accepted :
  config_invalid overlapping_config = true
  /\ exists chunks,
       snd (create_hierarchical_chunks sample_digest overlapping_config
              4096 small_sections) = Ok chunks
       /\ length chunks = 8%nat.
Proof. split; [reflexivity|]. eexists. split; reflexivity. Qed.

(** C2 (amended).  No configuration is rejected: whatever the sizes, every
    chunk of every section is in the flat list, numbered from 1, and the
    call returns that list unless the metrics raise [ZeroDivisionError].
    The configuration of the constructor is a valid one. *)
Theorem no_configuration_check (digest8 : str -> str) (config : Config)
    (model_context_window : Z) (sections : list (str * str)) :
  let r := create_hierarchical_chunks digest8 config model_context_window
             sections in
  all_chunks (fst r)
  = number_from 1 (unnumbered_chunks digest8 config sections)
  /\ (snd r = Ok (all_chunks (fst r)) \/ snd r = Raise ZeroDivisionError)
  /\ (forall doc chunk,
        In doc sections ->
        In chunk (section_chunks digest8 config (fst doc) (snd doc)) ->
        exists g, In (set_global_id chunk g) (all_chunks (fst r)))
  /\ config_invalid default_config = false
  /\ child_chunk_size default_config <= parent_chunk_size default_config.
Proof.
  simpl. rewrite all_chunks_build. repeat split; [| |discriminate].
  - destruct (_calculate_optimization_metrics config model_context_window _)
      as [m | []]; simpl; auto.
  - intros doc chunk Hdoc Hchunk.
    assert (H : In chunk (unnumbered_chunks digest8 config sections)).
    { unfold unnumbered_chunks. apply in_flat_map. eauto. }
    unfold number_from.
    apply In_nth with (d := chunk) in H. destruct H as (n & Hn & <-).
    exists (1 + n)%nat. apply in_map_iff.
    exists ((1 + n)%nat, nth n (unnumbered_chunks digest8 config sections)
                           chunk).
    split; [reflexivity|].
    revert n Hn. generalize 1%nat.
    induction (unnumbered_chunks digest8 config sections) as [|x l IH];
      intros g n Hn; simpl in *; [lia|].
    destruct n as [|n].
    + left. f_equal. lia.
    + right. replace (g + S n)%nat with (S g + n)%nat by lia.
      apply IH. lia.
Qed.

(** ** Metrics *)

Lemma avg_child_tokens_zero (children : list Chunk) :
  sum_tokens children = 0 ->
  Qeq_bool (avg_child_tokens_of children * 4) 0 = true.
Proof.
  intros H. apply Qeq_bool_iff. unfold avg_child_tokens_of, mean_tokens.
  destruct children as [|c l]; [reflexivity|].
  rewrite H. unfold Qeq, Qdiv, Qmult. simpl. reflexivity.
Qed.

(** C3.  With no child chunk, or with children whose token estimates are
    all zero, the average is zero and both metrics functions divide by
    it. *)
Theorem metrics_divide_by_zero (config : Config) (model_context_window : Z)
    (self : Chunker) :
  sum_tokens (of_level child (all_chunks self)) = 0 ->
  _calculate_optimization_metrics config model_context_window self
  = Raise ZeroDivisionError
  /\ _get_optimization_recommendations config self
     = Raise ZeroDivisionError.
Proof.
  intros H. unfold _calculate_optimization_metrics,
    _get_optimization_recommendations, floordiv.
  rewrite (avg_child_tokens_zero _ H). split; reflexivity.
Qed.

Lemma metrics_divide_by_zero_witness :
  _calculate_optimization_metrics default_config 4096 (mkChunker [] [])
  = Raise ZeroDivisionError
  /\ _get_optimization_recommendations default_config (mkChunker [] [])
     = Raise ZeroDivisionError.
Proof.
  apply (metrics_divide_by_zero default_config 4096 (mkChunker [] [])).
  reflexivity.
Defined.

(** With no section at all the whole call raises. *)
Lemma create_hierarchical_chunks_empty_raises :
  snd (create_hierarchical_chunks sample_digest default_config 4096 [])
  = Raise ZeroDivisionError.
Proof. reflexivity. Qed.

(** ** Fingerprints *)

Section Fingerprints.

Variable digest8 : str -> str.
Variable config : Config.

Lemma parent_hash_own_content (name text : str) (p : Chunk) :
  In p (_create_parent_chunks digest8 config name text) ->
  content_hash p = digest8 (content p).
Proof.
  destruct (create_parents_shape digest8 config name text) as [texts ->].
  rewrite in_map_iff. intros [[i t] [<- _]]. reflexivity.
Qed.

(** Every child, in either branch, carries the digest of the text of its
    parent. *)
Lemma child_hash_parent_content (name : str) (parent_chunk : Chunk)
    (parent_idx : nat) (c : Chunk) :
  In c (_create_child_chunks digest8 config name parent_chunk parent_idx) ->
  content_hash c = digest8 (content parent_chunk).
Proof.
  destruct (create_children_shape digest8 config name parent_chunk
              parent_idx) as [texts ->].
  rewrite in_map_iff. intros [[i t] [<- _]]. reflexivity.
Qed.

End Fingerprints.

(** C4.  The two children of [long_parent] both carry the digest of the
    text of the parent, not of their own text. *)
Theorem child_hash_of_parent_text (digest8 : str -> str) :
  map (fun c => (content c, content_hash c))
      (_create_child_chunks digest8 small_config (lit "intro")
         (long_parent digest8) 0)
  = [(lit "Alpha beta gamma.",
      digest8 (lit "Alpha beta gamma. Delta epsilon zeta."));
     (lit "amma. Delta epsilon zeta.",
      digest8 (lit "Alpha beta gamma. Delta epsilon zeta."))].
Proof. reflexivity. Qed.

(** ** Empty content *)


(** ** Lengths of strings *)

Lemma len_app (a b : str) : len (a ++ b) = len a + len b.
Proof. unfold len. rewrite length_app. lia. Qed.

Lemma len_nonneg (s : str) : 0 <= len s.
Proof. unfold len. lia. Qed.

Lemma lstrip_length (s : str) : (length (lstrip s) <= length s)%nat.
Proof.
  induction s as [|c s IH]; simpl; [lia|].
  destruct (is_space c); simpl; lia.
Qed.

Lemma strip_len (s : str) : len (strip s) <= len s.
Proof.
  unfold len, strip, rstrip. rewrite length_rev.
  pose proof (lstrip_length (rev (lstrip s))) as H1.
  rewrite length_rev in H1. pose proof (lstrip_length s). lia.
Qed.

Lemma cons_head_nonempty (c : ascii) (l : list str) : cons_head c l <> [].
Proof. destruct l; discriminate. Qed.

Lemma cons_head_concat (c : ascii) (l : list str) :
  concat (cons_head c l) = c :: concat l.
Proof. destruct l; reflexivity. Qed.

Lemma re_split_from_nonempty (a b : bool) (s : str) :
  re_split_from a b s <> [].
Proof.
  revert a b; induction s as [|c s IH]; intros a b; simpl; [discriminate|].
  destruct (is_space c); [|apply cons_head_nonempty].
  destruct b; [apply IH|].
  destruct a; [discriminate | apply cons_head_nonempty].
Qed.

Lemma re_split_from_length (a b : bool) (s : str) :
  (length (concat (re_split_from a b s)) <= length s)%nat.
Proof.
  revert a b; induction s as [|c s IH]; intros a b; simpl; [lia|].
  destruct (is_space c).
  - destruct b; [specialize (IH false true); lia|].
    destruct a; simpl.
    + specialize (IH false true); lia.
    + rewrite cons_head_concat. simpl. specialize (IH false false). lia.
  - rewrite cons_head_concat. simpl.
    specialize (IH (is_sentence_end c) false). lia.
Qed.

Lemma in_concat_length {A : Type} (l : list (list A)) (x : list A) :
  In x l -> (length x <= length (concat l))%nat.
Proof.
  induction l as [|y l IH]; simpl; [tauto|].
  rewrite length_app. intros [-> | H]; [lia | apply IH in H; lia].
Qed.

Lemma last_In {A : Type} (l : list A) (d : A) : l <> [] -> In (last l d) l.
Proof.
  induction l as [|x l IH]; [congruence|]. intros _.
  destruct l as [|y l]; [left; reflexivity|].
  right. apply IH. discriminate.
Qed.

Lemma sentence_len (s piece : str) :
  In piece (re_split_sentences s) -> len piece <= len s.
Proof.
  intros H. apply in_concat_length in H.
  pose proof (re_split_from_length false false s).
  unfold len, re_split_sentences in *. lia.
Qed.

Lemma slice_from_tail_len (k : Z) (s : str) :
  0 < k -> len (slice_from (- k) s) <= k.
Proof.
  intros Hk. unfold slice_from, len.
  destruct (Z.ltb_spec (- k) 0); [|lia].
  rewrite length_skipn. lia.
Qed.

Lemma overlap_seed_len (overlap : Z) (current_chunk : str) :
  len (overlap_seed overlap current_chunk) <= Z.max 0 overlap.
Proof.
  unfold overlap_seed.
  destruct (Z.gtb_spec overlap 0); simpl; [|unfold len; simpl; lia].
  destruct (len current_chunk >? overlap); [|unfold len; simpl; lia].
  pose proof (slice_from_tail_len overlap current_chunk ltac:(lia)) as Ht.
  pose proof (re_split_from_nonempty false false
                (slice_from (- overlap) current_chunk)) as Hne.
  fold (re_split_sentences (slice_from (- overlap) current_chunk)) in Hne.
  destruct (re_split_sentences (slice_from (- overlap) current_chunk))
    as [|x l] eqn:E; [congruence|].
  assert (Hin : In (last (x :: l) [])
                   (re_split_sentences
                      (slice_from (- overlap) current_chunk))).
  { rewrite E. apply last_In. discriminate. }
  apply sentence_len in Hin. lia.
Qed.

(** ** Size discipline of the splitter *)

Lemma Forall_snoc {A : Type} (P : A -> Prop) (l : list A) (x : A) :
  Forall P l -> P x -> Forall P (l ++ [x]).
Proof. intros. apply Forall_app. auto. Qed.

Section SizeBound.

Variable content : str.
Variables target_size overlap : Z.
Hypothesis target_nonneg : 0 <= target_size.
Hypothesis overlap_nonneg : 0 <= overlap.

Local Abbreviation sized := (sized content target_size overlap).
Local Abbreviation sized_chunk := (sized_chunk content target_size overlap).
Local Abbreviation sized_state := (sized_state content target_size overlap).

Lemma sized_short (x : str) : len x <= target_size -> sized x.
Proof. intros H. left. unfold size_bound. lia. Qed.

Lemma sized_strip (x : str) : sized x -> sized_chunk (strip x).
Proof.
  intros [H | H]; [left | right; eauto].
  pose proof (strip_len x). lia.
Qed.

(** A sentence behind a short prefix is within the bound or an oversized
    tail. *)
Lemma sized_unit (pre sentence : str) :
  unit_of content target_size sentence ->
  len pre <= overlap + 1 ->
  sized (pre ++ sentence).
Proof.
  intros Hu Hpre. destruct (Z.le_gt_cases (len sentence) target_size).
  - left. rewrite len_app. unfold size_bound. lia.
  - right. exists pre, sentence. repeat split; auto. lia.
Qed.

Lemma pack_sentences_sized (sentences : list str) :
  Forall (unit_of content target_size) sentences ->
  forall chunks temp_chunk,
    sized_state (chunks, temp_chunk) ->
    sized_state
      (pack_sentences target_size overlap chunks temp_chunk sentences).
Proof.
  induction 1 as [|sentence rest Hs Hrest IH]; intros chunks temp [Hc Ht];
    simpl in *; [split; assumption|].
  case_leb.
  - apply IH. split; cbn [fst snd]; [assumption|].
    apply sized_short. pose proof (len_nonneg temp).
    destruct (truthy temp); [assumption|].
    rewrite len_app in *. change (len (SP :: sentence))
      with (len ([SP] ++ sentence)) in *. rewrite len_app in *.
    change (len [SP]) with 1 in *. lia.
  - destruct (truthy temp) eqn:Etemp.
    + destruct (Z.gtb_spec overlap 0) as [Hov | Hov].
      * apply IH. split; cbn [fst snd].
        -- apply Forall_snoc; [assumption | now apply sized_strip].
        -- change (SP :: sentence) with ([SP] ++ sentence).
           rewrite app_assoc. apply sized_unit; [assumption|].
           rewrite len_app. change (len [SP]) with 1.
           destruct (Z.gtb_spec (len temp) overlap).
           ++ pose proof (slice_from_tail_len overlap temp Hov). lia.
           ++ lia.
      * apply IH. split; cbn [fst snd].
        -- apply Forall_snoc; [assumption | now apply sized_strip].
        -- apply (sized_unit [] sentence Hs). unfold len. simpl. lia.
    + apply IH. split; cbn [fst snd].
      * apply Forall_snoc; [assumption|]. apply sized_strip.
        apply (sized_unit [] sentence Hs). unfold len. simpl. lia.
      * apply sized_short. unfold len. simpl. lia.
Qed.

Lemma para_step_sized (st : list str * str) (para : str) :
  In para (split_paragraphs content) ->
  sized_state st -> sized_state (para_step target_size overlap st para).
Proof.
  intros Hpara Hst.
  destruct st as [chunks cur]. destruct Hst as [Hc Hcur]. simpl in Hc, Hcur.
  unfold para_step. case_leb.
  - split; cbn [fst snd]; [assumption | now apply sized_short].
  - assert (Hmid : sized_state
              (if truthy cur
               then (chunks ++ [strip cur], overlap_seed overlap cur)
               else (chunks, cur))).
    { destruct (truthy cur); split; cbn [fst snd]; auto.
      - apply Forall_snoc; [assumption | now apply sized_strip].
      - left. pose proof (overlap_seed_len overlap cur).
        unfold size_bound. lia. }
    destruct (if truthy cur
              then (chunks ++ [strip cur], overlap_seed overlap cur)
              else (chunks, cur)) as [chunks' cur'].
    destruct (Z.gtb_spec (len para) target_size) as [Hlong | Hshort].
    + apply pack_sentences_sized; [|assumption].
      apply Forall_forall. intros x Hx. exists para.
      repeat split; auto. lia.
    + destruct Hmid as [Hc' _]. split; cbn [fst snd]; [assumption|].
      now apply sized_short.
Qed.

Lemma fold_para_step_sized (paragraphs : list str) :
  (forall para, In para paragraphs -> In para (split_paragraphs content)) ->
  forall st,
    sized_state st ->
    sized_state (fold_left (para_step target_size overlap) paragraphs st).
Proof.
  induction paragraphs as [|p ps IH]; intros Hsub st Hst; simpl;
    [assumption|].
  apply IH; [intros; apply Hsub; now right|].
  apply para_step_sized; [apply Hsub; now left | assumption].
Qed.

(** Every segment is at most the target, one overlap and one separator
    long, or it is the trimmed form of an oversized unit behind at most
    one overlap and one separator. *)
Lemma smart_split_sized (chunk : str) :
  In chunk (_smart_split_content content target_size overlap) ->
  sized_chunk chunk.
Proof.
  intros Hin. unfold _smart_split_content in Hin.
  assert (H : sized_state
                (paragraph_loop target_size overlap
                   (split_paragraphs content))).
  { apply fold_para_step_sized; [auto|].
    split; simpl; [constructor|]. apply sized_short. unfold len. simpl.
    lia. }
  destruct (paragraph_loop target_size overlap (split_paragraphs content))
    as [chunks cur].
  destruct H as [Hc Hcur]. simpl in Hc, Hcur.
  apply filter_In in Hin. destruct Hin as [Hin _].
  rewrite Forall_forall in Hc.
  destruct (truthy cur); [|auto].
  apply in_app_or in Hin. destruct Hin as [Hin | [<- | []]]; [auto|].
  now apply sized_strip.
Qed.

End SizeBound.

(** A content without an oversized unit has no oversized tail. *)
Lemma no_oversized_unit_tail (content : str) (target_size overlap : Z)
    (x : str) :
  no_oversized_unit content target_size = true ->
  ~ oversized_tail content target_size overlap x.
Proof.
  unfold no_oversized_unit.
  intros Hno (pre & sentence & _ & _ & (para & Hpara & Hlong & Hs) & Hbig).
  rewrite forallb_forall in Hno. specialize (Hno para Hpara).
  unfold paragraph_fits in Hno.
  destruct (Z.gtb_spec (len para) target_size); [|lia].
  rewrite forallb_forall in Hno. apply Hno in Hs.
  apply Z.leb_le in Hs. lia.
Qed.

(** No segment of the splitter is blank. *)
Lemma smart_split_not_blank (content chunk : str) (target_size overlap : Z) :
  In chunk (_smart_split_content content target_size overlap) ->
  truthy (strip chunk) = true.
Proof.
  unfold _smart_split_content.
  destruct (paragraph_loop target_size overlap (split_paragraphs content))
    as [chunks cur].
  intros H. apply filter_In in H. tauto.
Qed.

(** The middle child of [three_sentences] is 26 characters long with a
    child size of 20 and an overlap of 5, although no sentence is longer
    than 20; and the parent built from empty content is empty. *)
Lemma size_slack_exceeded :
  no_oversized_unit three_sentences (child_chunk_size small_config) = true
  /\ map char_count
       (_create_child_chunks sample_digest small_config (lit "d")
          (parent_record sample_digest (lit "d") 1 three_sentences) 0)
     = [11; 26; 10]
  /\ child_chunk_size small_config + overlap_size small_config = 25
  /\ map (fun p => truthy (strip (content p)))
       (_create_parent_chunks sample_digest small_config (lit "d") [])
     = [false].
Proof. repeat split. Qed.

(** C8 (amended).  Every parent and every child is at most the target
    size, one overlap length and one separator character long, unless it
    is the trimmed form of a sentence that alone exceeds the target behind
    at most one overlap and one separator; and chunks built from content
    that is not blank are not blank. *)
Theorem size_discipline (digest8 : str -> str) (config : Config)
    (name text : str) (parent_chunk : Chunk) (parent_idx : nat) :
  0 <= overlap_size config ->
  0 <= parent_chunk_size config ->
  0 <= child_chunk_size config ->
  (forall p, In p (_create_parent_chunks digest8 config name text) ->
     sized_chunk text (parent_chunk_size config) (overlap_size config)
       (content p)
     /\ char_count p = len (content p)
     /\ (truthy (strip text) = true ->
         truthy (strip (content p)) = true))
  /\ (forall c,
        In c (_create_child_chunks digest8 config name parent_chunk
                parent_idx) ->
        sized_chunk (content parent_chunk) (child_chunk_size config)
          (overlap_size config) (content c)
        /\ char_count c = len (content c)
        /\ (truthy (strip (content parent_chunk)) = true ->
            truthy (strip (content c)) = true)).
Proof.
  intros Hov Hp Hc. split.
  - unfold _create_parent_chunks. intros p. case_leb.
    + intros [<- | []]. simpl. repeat split; [|auto].
      left. unfold size_bound. lia.
    + rewrite in_map_iff. intros [[i t] [<- Hin]].
      apply enumerate_In in Hin. destruct Hin as [_ Hin]. simpl.
      repeat split.
      * now apply smart_split_sized.
      * intros _. apply (smart_split_not_blank _ _ _ _ Hin).
  - unfold _create_child_chunks. intros c. case_leb.
    + intros [<- | []]. simpl. repeat split; [|auto].
      left. unfold size_bound. lia.
    + rewrite in_map_iff. intros [[i t] [<- Hin]].
      apply enumerate_In in Hin. destruct Hin as [_ Hin]. simpl.
      repeat split.
      * now apply smart_split_sized.
      * intros _. apply (smart_split_not_blank _ _ _ _ Hin).
Qed.

Lemma size_discipline_witness :
  (forall p,
     In p (_create_parent_chunks sample_digest small_config (lit "d")
             three_sentences) ->
     sized_chunk three_sentences 40 5 (content p)
     /\ char_count p = len (content p)
     /\ truthy (strip (content p)) = true)
  /\ (forall c,
        In c (_create_child_chunks sample_digest small_config (lit "d")
                (parent_record sample_digest (lit "d") 1 three_sentences)
                0) ->
        sized_chunk three_sentences 20 5 (content c)
        /\ char_count c = len (content c)
        /\ truthy (strip (content c)) = true).
Proof.
  destruct (size_discipline sample_digest small_config (lit "d")
              three_sentences
              (parent_record sample_digest (lit "d") 1 three_sentences) 0)
    as [Hparents Hchildren]; [simpl; lia | simpl; lia | simpl; lia |].
  split.
  - intros p Hin. destruct (Hparents p Hin) as (H1 & H2 & H3).
    repeat split; [exact H1 | exact H2 | apply H3; reflexivity].
  - intros c Hin. destruct (Hchildren c Hin) as (H1 & H2 & H3).
    repeat split; [exact H1 | exact H2 | apply H3; reflexivity].
Defined.

(** Without an oversized unit the bound holds for every chunk. *)
Lemma bound_without_oversized_unit (digest8 : str -> str) (config : Config)
    (name text : str) (p : Chunk) :
  0 <= overlap_size config ->
  0 <= parent_chunk_size config ->
  no_oversized_unit text (parent_chunk_size config) = true ->
  In p (_create_parent_chunks digest8 config name text) ->
  char_count p <= parent_chunk_size config + overlap_size config + 1.
Proof.
  intros Hov Hp Hno. unfold _create_parent_chunks. case_leb.
  - intros [<- | []]. simpl. lia.
  - rewrite in_map_iff. intros [[i t] [<- Hin]].
    apply enumerate_In in Hin. destruct Hin as [_ Hin]. simpl.
    destruct (smart_split_sized text _ _ Hp Hov t Hin)
      as [Hle | (x & _ & Hbig)].
    + exact Hle.
    + now apply no_oversized_unit_tail in Hbig.
Qed.

(** ** Text without whitespace *)

Lemma non_space_app (a b : str) :
  non_space (a ++ b) = non_space a ++ non_space b.
Proof. apply filter_app. Qed.

Lemma non_space_lstrip (s : str) : non_space (lstrip s) = non_space s.
Proof.
  induction s as [|c s IH]; simpl; [reflexivity|].
  destruct (is_space c) eqn:E; simpl; rewrite ?E; simpl; auto.
Qed.

Lemma non_space_strip (s : str) : non_space (strip s) = non_space s.
Proof.
  unfold strip, rstrip, non_space.
  rewrite filter_rev. fold (non_space (lstrip (rev (lstrip s)))).
  rewrite non_space_lstrip. unfold non_space. rewrite filter_rev.
  rewrite rev_involutive. apply non_space_lstrip.
Qed.

Lemma is_newline_space (c : ascii) : is_newline c = true -> is_space c = true.
Proof.
  unfold is_newline, is_space. intros H. apply Nat.eqb_eq in H.
  rewrite H. reflexivity.
Qed.

Lemma non_space_re_split (a b : bool) (s : str) :
  non_space (concat (re_split_from a b s)) = non_space s.
Proof.
  revert a b; induction s as [|c s IH]; intros a b; simpl; [reflexivity|].
  destruct (is_space c) eqn:E; simpl.
  - destruct b; [apply IH|]. destruct a; simpl; [apply IH|].
    rewrite cons_head_concat. simpl. rewrite E. simpl. apply IH.
  - rewrite cons_head_concat. simpl. rewrite E. simpl. f_equal. apply IH.
Qed.

Lemma non_space_sentences (s : str) :
  non_space (concat (re_split_sentences s)) = non_space s.
Proof. apply non_space_re_split. Qed.

Lemma non_space_paragraphs_aux (n : nat) (s : str) :
  (length s <= n)%nat ->
  non_space (concat (split_paragraphs s)) = non_space s.
Proof.
  revert s; induction n as [|n IH]; intros s Hs.
  - destruct s; [reflexivity | simpl in Hs; lia].
  - destruct s as [|c [|c2 s]]; [reflexivity | |].
    + simpl. destruct (is_space c); reflexivity.
    + cbn [split_paragraphs].
      destruct (is_newline c && is_newline c2) eqn:E.
      * apply andb_prop in E. destruct E as [E1 E2].
        apply is_newline_space in E1, E2.
        cbn [concat app]. simpl non_space at 2. rewrite E1, E2. simpl.
        apply IH. simpl in Hs. lia.
      * rewrite cons_head_concat. simpl non_space.
        destruct (is_space c); simpl; [|f_equal];
          apply (IH (c2 :: s)); simpl in *; lia.
Qed.

Lemma non_space_paragraphs (s : str) :
  non_space (concat (split_paragraphs s)) = non_space s.
Proof. apply (non_space_paragraphs_aux (length s)). lia. Qed.

Lemma non_space_nil_blank (s : str) :
  non_space s = [] -> lstrip s = [].
Proof.
  induction s as [|c s IH]; simpl; [reflexivity|].
  destruct (is_space c); simpl; [assumption | discriminate].
Qed.

Lemma truthy_strip (s : str) : truthy (strip s) = truthy (non_space s).
Proof.
  destruct (non_space s) as [|x l] eqn:E.
  - unfold strip. rewrite (non_space_nil_blank s E). reflexivity.
  - rewrite <- non_space_strip in E.
    destruct (strip s); [discriminate | reflexivity].
Qed.

(** ** Suffixes *)

Lemma suffix_of_nil (s : str) : suffix_of [] s.
Proof. exists s. now rewrite app_nil_r. Qed.

Lemma suffix_of_refl (s : str) : suffix_of s s.
Proof. now exists []. Qed.

Lemma suffix_of_nil_inv (o : str) : suffix_of o [] -> o = [].
Proof.
  intros [pre E]. symmetry in E. apply app_eq_nil in E. tauto.
Qed.

Lemma suffix_of_trans (a b c : str) :
  suffix_of a b -> suffix_of b c -> suffix_of a c.
Proof.
  intros [p ->] [q ->]. exists (q ++ p). now rewrite app_assoc.
Qed.

Lemma suffix_of_non_space (o s : str) :
  suffix_of o s -> suffix_of (non_space o) (non_space s).
Proof. intros [pre ->]. exists (non_space pre). apply non_space_app. Qed.

Lemma slice_from_suffix (i : Z) (s : str) : suffix_of (slice_from i s) s.
Proof.
  unfold slice_from. eexists. symmetry. apply firstn_skipn.
Qed.

Lemma non_space_length (s : str) : (length (non_space s) <= length s)%nat.
Proof. apply filter_length_le. Qed.

(** The last piece of a sentence split is the end of the string, and the
    whole string when nothing was split off. *)
Lemma re_split_last (a b : bool) (s : str) :
  exists pre,
    s = pre ++ last (re_split_from a b s) []
    /\ (tl (re_split_from a b s) = [] -> b = false -> pre = []).
Proof.
  revert a b; induction s as [|c s IH]; intros a b.
  - exists []. split; reflexivity.
  - assert (Hcons : forall a',
              exists pre,
                c :: s = pre ++ last (cons_head c (re_split_from a' false s)) []
                /\ (tl (cons_head c (re_split_from a' false s)) = [] ->
                    pre = [])).
    { intros a'. destruct (IH a' false) as (pre & E & Hone).
      pose proof (re_split_from_nonempty a' false s) as Hne.
      destruct (re_split_from a' false s) as [|p [|p2 ps]]; [congruence| |].
      - simpl in *. rewrite (Hone eq_refl eq_refl) in E. simpl in E.
        subst p. exists []. split; reflexivity.
      - exists (c :: pre). split; [|discriminate].
        simpl in *. now rewrite E at 1. }
    simpl. destruct (is_space c).
    + destruct b.
      * destruct (IH false true) as (pre & E & _).
        exists (c :: pre). split; [|discriminate]. simpl. now rewrite E at 1.
      * destruct a.
        -- destruct (IH false true) as (pre & E & _).
           pose proof (re_split_from_nonempty false true s) as Hne.
           exists (c :: pre). split.
           ++ destruct (re_split_from false true s) as [|p ps];
                [congruence|]. simpl in *. now rewrite E at 1.
           ++ simpl. intros H. congruence.
        -- destruct (Hcons false) as (pre & E & H). exists pre. auto.
    + destruct (Hcons (is_sentence_end c)) as (pre & E & H).
      exists pre. split; [assumption|]. intros H1 _. auto.
Qed.

Lemma overlap_seed_suffix (overlap : Z) (current_chunk : str) :
  suffix_of (overlap_seed overlap current_chunk) current_chunk.
Proof.
  unfold overlap_seed.
  destruct ((overlap >? 0) && (len current_chunk >? overlap));
    [|apply suffix_of_nil].
  apply suffix_of_trans with (b := slice_from (- overlap) current_chunk);
    [|apply slice_from_suffix].
  destruct (re_split_last false false (slice_from (- overlap) current_chunk))
    as (pre & E & _).
  fold (re_split_sentences (slice_from (- overlap) current_chunk)) in E.
  destruct (re_split_sentences (slice_from (- overlap) current_chunk))
    as [|x l] eqn:El; [apply suffix_of_refl|].
  exists pre. exact E.
Qed.

(** ** Reconstruction *)

Lemma last_cons {A : Type} (x : A) (l : list A) (d : A) :
  last (x :: l) d = last l x.
Proof.
  revert x d; induction l as [|y l IH]; intros x d; [reflexivity|].
  change (last (x :: y :: l) d) with (last (y :: l) d).
  rewrite (IH y d). symmetry. apply (IH y x).
Qed.

Lemma reconstructs_snoc (k : nat) (prev : str) (segments : list str)
    (text o r : str) :
  reconstructs k prev segments text ->
  suffix_of o (last segments prev) -> (length o <= k)%nat ->
  reconstructs k prev (segments ++ [o ++ r]) (text ++ r).
Proof.
  induction 1 as [prev | prev o1 f1 segments text Ho1 Hk1 Hrec IH];
    intros Ho Hk; simpl.
  - rewrite <- (app_nil_r r) at 2. constructor; auto. constructor.
  - rewrite <- app_assoc. constructor; auto.
    apply IH; auto. now rewrite last_cons in Ho.
Qed.

Lemma reconstructs_any_prev (k : nat) (prev : str) (segments : list str)
    (text : str) :
  reconstructs k [] segments text -> reconstructs k prev segments text.
Proof.
  inversion 1 as [|? o fresh segs t Ho Hk Hrec]; subst; constructor; auto.
  apply suffix_of_nil_inv in Ho. subst o. apply suffix_of_nil.
Qed.

(** Dropping the empty segments keeps a reconstruction. *)
Lemma reconstructs_filter (k : nat) (prev : str) (segments : list str)
    (text : str) :
  reconstructs k prev segments text ->
  reconstructs k prev (filter truthy segments) text.
Proof.
  induction 1 as [prev | prev o fresh segments text Ho Hk Hrec IH]; simpl.
  - constructor.
  - destruct (o ++ fresh) as [|x l] eqn:E; simpl.
    + apply app_eq_nil in E. destruct E as [-> ->]. simpl.
      now apply reconstructs_any_prev.
    + rewrite <- E. constructor; auto. now rewrite E.
Qed.

(** Without overlap the segments concatenate to the text. *)
Lemma reconstructs_no_overlap (prev : str) (segments : list str)
    (text : str) :
  reconstructs 0 prev segments text -> concat segments = text.
Proof.
  induction 1 as [prev | prev o fresh segments text Ho Hk Hrec IH];
    simpl; [reflexivity|].
  destruct o; [|simpl in Hk; lia]. simpl. now rewrite IH.
Qed.

Section Reconstruction.

Variables target_size overlap : Z.

Local Abbreviation k := (Z.to_nat overlap).

Lemma carries_extend (chunks : list str) (cur cur' text x : str) :
  carries k (chunks, cur) text ->
  non_space cur' = non_space cur ++ x ->
  carries k (chunks, cur') (text ++ x).
Proof.
  intros (f & o & r & Hrec & Hcur & Ho & Hk & ->) E. simpl in *.
  exists f, o, (r ++ x). simpl. repeat split; auto.
  - now rewrite E, Hcur, app_assoc.
  - now rewrite app_assoc.
Qed.

Lemma carries_emit (chunks : list str) (cur seed text : str) :
  carries k (chunks, cur) text ->
  suffix_of (non_space seed) (non_space cur) ->
  (length (non_space seed) <= k)%nat ->
  carries k (chunks ++ [strip cur], seed) text.
Proof.
  intros (f & o & r & Hrec & Hcur & Ho & Hk & ->) Hs Hl. simpl in *.
  exists (f ++ r), (non_space seed), []. simpl.
  rewrite map_app. simpl. rewrite non_space_strip, Hcur, last_last.
  repeat split; auto.
  - now apply reconstructs_snoc.
  - now rewrite app_nil_r.
  - now rewrite <- Hcur.
  - now rewrite app_nil_r.
Qed.

Lemma carries_restart (chunks : list str) (cur para text : str) :
  carries k (chunks, cur) text ->
  carries k (chunks ++ [strip cur], para) (text ++ non_space para).
Proof.
  intros H. apply carries_extend with (cur := []); [|reflexivity].
  apply carries_emit; [assumption | apply suffix_of_nil | simpl; lia].
Qed.

Lemma overlap_part_ok (temp : str) :
  overlap > 0 ->
  let overlap_part :=
    if len temp >? overlap then slice_from (- overlap) temp else temp in
  suffix_of (non_space overlap_part) (non_space temp)
  /\ (length (non_space overlap_part) <= k)%nat.
Proof.
  intros Hov. simpl. destruct (Z.gtb_spec (len temp) overlap).
  - split.
    + apply suffix_of_non_space, slice_from_suffix.
    + pose proof (slice_from_tail_len overlap temp ltac:(lia)).
      pose proof (non_space_length (slice_from (- overlap) temp)).
      unfold len in *. lia.
  - split; [apply suffix_of_refl|].
    pose proof (non_space_length temp). unfold len in *. lia.
Qed.

Lemma pack_sentences_carries (sentences : list str) :
  forall chunks temp text,
    carries k (chunks, temp) text ->
    carries k (pack_sentences target_size overlap chunks temp sentences)
      (text ++ non_space (concat sentences)).
Proof.
  induction sentences as [|sentence rest IH]; intros chunks temp text H;
    simpl.
  - now rewrite app_nil_r.
  - rewrite non_space_app, app_assoc.
    destruct (len (temp ++ SP :: sentence) <=? target_size).
    + apply IH. apply carries_extend with (cur := temp); [assumption|].
      destruct temp; [reflexivity|].
      cbn [truthy]. rewrite non_space_app. reflexivity.
    + destruct (truthy temp) eqn:Et.
      * destruct (Z.gtb_spec overlap 0) as [Hov | Hov].
        -- apply IH.
           destruct (overlap_part_ok temp ltac:(lia)) as [Hs Hl].
           eapply carries_extend.
           ++ apply carries_emit; eassumption.
           ++ rewrite non_space_app. reflexivity.
        -- apply IH. now apply carries_restart.
      * destruct temp; [|discriminate]. apply IH.
        apply carries_emit; [|apply suffix_of_nil | simpl; lia].
        apply carries_extend with (cur := []); auto.
Qed.

Lemma overlap_seed_ok (cur : str) :
  suffix_of (non_space (overlap_seed overlap cur)) (non_space cur)
  /\ (length (non_space (overlap_seed overlap cur)) <= k)%nat.
Proof.
  split.
  - apply suffix_of_non_space, overlap_seed_suffix.
  - pose proof (overlap_seed_len overlap cur).
    pose proof (non_space_length (overlap_seed overlap cur)).
    unfold len in *. lia.
Qed.

Lemma para_step_carries (st : list str * str) (para text : str) :
  carries k st text ->
  carries k (para_step target_size overlap st para)
    (text ++ non_space para).
Proof.
  destruct st as [chunks cur]. intros H. unfold para_step. case_leb.
  - apply carries_extend with (cur := cur); [assumption|].
    destruct cur; [reflexivity|]. cbn [truthy].
    rewrite !non_space_app. reflexivity.
  - destruct (truthy cur) eqn:Et.
    + destruct (len para >? target_size).
      * rewrite <- (non_space_sentences para).
        apply pack_sentences_carries.
        destruct (overlap_seed_ok cur). now apply carries_emit.
      * now apply carries_restart.
    + destruct cur; [|discriminate].
      destruct (len para >? target_size).
      * rewrite <- (non_space_sentences para).
        now apply pack_sentences_carries.
      * apply carries_extend with (cur := []); auto.
Qed.

Lemma fold_para_step_carries (paragraphs : list str) :
  forall st text,
    carries k st text ->
    carries k (fold_left (para_step target_size overlap) paragraphs st)
      (text ++ non_space (concat paragraphs)).
Proof.
  induction paragraphs as [|p ps IH]; intros st text Hst; simpl.
  - now rewrite app_nil_r.
  - rewrite non_space_app, app_assoc. apply IH.
    now apply para_step_carries.
Qed.

Lemma paragraph_loop_carries (paragraphs : list str) :
  carries k (paragraph_loop target_size overlap paragraphs)
    (non_space (concat paragraphs)).
Proof.
  unfold paragraph_loop.
  apply (fold_para_step_carries paragraphs ([], []) []).
  exists [], [], []. simpl. repeat split; auto.
  - constructor.
  - apply suffix_of_nil.
  - lia.
Qed.

(** The segments of the splitter reconstruct the content up to
    whitespace. *)
Lemma smart_split_reconstructs (content : str) :
  reconstructs k []
    (map non_space (_smart_split_content content target_size overlap))
    (non_space content).
Proof.
  unfold _smart_split_content.
  pose proof (paragraph_loop_carries (split_paragraphs content)) as H.
  rewrite non_space_paragraphs in H.
  destruct (paragraph_loop target_size overlap (split_paragraphs content))
    as [chunks cur].
  assert (Hall : reconstructs k []
            (map non_space
               (if truthy cur then chunks ++ [strip cur] else chunks))
            (non_space content)).
  { destruct (truthy cur) eqn:Et.
    - apply carries_emit with (seed := []) in H;
        [|apply suffix_of_nil | simpl; lia].
      destruct H as (f & o & r & Hrec & Hcur & _ & _ & ->). simpl in *.
      symmetry in Hcur. apply app_eq_nil in Hcur. destruct Hcur as [_ ->].
      now rewrite app_nil_r.
    - destruct cur; [|discriminate].
      destruct H as (f & o & r & Hrec & Hcur & _ & _ & ->). simpl in *.
      symmetry in Hcur. apply app_eq_nil in Hcur. destruct Hcur as [_ ->].
      now rewrite app_nil_r. }
  apply reconstructs_filter in Hall.
  replace (map non_space
             (filter (fun chunk => truthy (strip chunk))
                (if truthy cur then chunks ++ [strip cur] else chunks)))
    with (filter truthy
            (map non_space
               (if truthy cur then chunks ++ [strip cur] else chunks)));
    [assumption|].
  generalize (if truthy cur then chunks ++ [strip cur] else chunks).
  intros l. induction l as [|x l IHl]; simpl; [reflexivity|].
  rewrite truthy_strip. destruct (truthy (non_space x)); simpl;
    now rewrite IHl.
Qed.

End Reconstruction.

(** C9.  The parents of a document are numbered 1, 2, ... in list order,
    and their contents, each without the overlap prefix it carries over
    from the parent before it, make up the content of the document up to
    whitespace. *)
Theorem parents_reconstruct_document (digest8 : str -> str)
    (config : Config) (name text : str) :
  let parents := _create_parent_chunks digest8 config name text in
  map chunk_index parents = seq 1 (length parents)
  /\ reconstructs (Z.to_nat (overlap_size config)) []
       (map (fun p => non_space (content p)) parents)
       (non_space text).
Proof.
  simpl. split.
  - destruct (create_parents_shape digest8 config name text) as [texts ->].
    rewrite length_map, enumerate_length, map_map. simpl.
    apply enumerate_fst.
  - unfold _create_parent_chunks.
    destruct (len text <=? parent_chunk_size config).
    + simpl. rewrite <- (app_nil_r (non_space text)) at 2.
      change (non_space text) with ([] ++ non_space text) at 1.
      constructor; [apply suffix_of_nil | simpl; lia | constructor].
    + rewrite map_map.
      rewrite map_ext with
        (g := fun e => non_space (snd e)) by (intros [i t]; reflexivity).
      rewrite <- map_map, enumerate_snd. apply smart_split_reconstructs.
Qed.

(** * Further properties of the splitter *)

(** ** Trimming *)

Lemma lstrip_no_leading_space (s : str) : no_leading_space (lstrip s).
Proof.
  induction s as [|c s IH]; simpl; [exact I|].
  destruct (is_space c) eqn:E; [assumption | exact E].
Qed.

Lemma lstrip_fixed (s : str) : no_leading_space s -> lstrip s = s.
Proof. destruct s as [|c s]; simpl; [reflexivity|]. now intros ->. Qed.

Lemma lstrip_app (a b : str) :
  lstrip (a ++ b)
  = match lstrip a with
    | [] => lstrip b
    | _ :: _ => lstrip a ++ b
    end.
Proof.
  induction a as [|c a IH]; simpl.
  - destruct (lstrip b); reflexivity.
  - destruct (is_space c); [assumption | reflexivity].
Qed.

Lemma rstrip_cons (c : ascii) (s : str) :
  rstrip (c :: s)
  = match rstrip s with
    | [] => if is_space c then [] else [c]
    | _ :: _ => c :: rstrip s
    end.
Proof.
  unfold rstrip. simpl. rewrite lstrip_app.
  destruct (lstrip (rev s)) as [|x l] eqn:E; simpl.
  - destruct (is_space c); reflexivity.
  - rewrite rev_app_distr. simpl.
    destruct (rev l ++ [x]) eqn:E2; [|reflexivity].
    apply app_eq_nil in E2. destruct E2; discriminate.
Qed.

Lemma rstrip_no_leading_space (s : str) :
  no_leading_space s -> no_leading_space (rstrip s).
Proof.
  destruct s as [|c s]; [intros _; exact I|]. simpl. intros Hc.
  rewrite rstrip_cons. destruct (rstrip s); simpl; rewrite ?Hc; simpl; auto.
Qed.

Lemma rstrip_idempotent (s : str) : rstrip (rstrip s) = rstrip s.
Proof.
  unfold rstrip. rewrite rev_involutive. f_equal.
  apply lstrip_fixed, lstrip_no_leading_space.
Qed.

Lemma strip_idempotent (s : str) : strip (strip s) = strip s.
Proof.
  unfold strip. rewrite (lstrip_fixed (rstrip (lstrip s))).
  - apply rstrip_idempotent.
  - apply rstrip_no_leading_space, lstrip_no_leading_space.
Qed.

(** Every emitted segment is the trimmed form of some text. *)
Lemma pack_sentences_trimmed (target_size overlap : Z)
    (sentences : list str) :
  forall chunks temp,
    Forall (fun c => strip c = c) chunks ->
    Forall (fun c => strip c = c)
      (fst (pack_sentences target_size overlap chunks temp sentences)).
Proof.
  induction sentences as [|sentence rest IH]; intros chunks temp H; simpl;
    [assumption|].
  destruct (len (temp ++ SP :: sentence) <=? target_size); [now apply IH|].
  destruct (truthy temp).
  - destruct (overlap >? 0); apply IH; apply Forall_snoc;
      auto using strip_idempotent.
  - apply IH. apply Forall_snoc; auto using strip_idempotent.
Qed.

Lemma para_step_trimmed (target_size overlap : Z) (st : list str * str)
    (para : str) :
  Forall (fun c => strip c = c) (fst st) ->
  Forall (fun c => strip c = c)
    (fst (para_step target_size overlap st para)).
Proof.
  destruct st as [chunks cur]. simpl. intros H. case_leb; [assumption|].
  assert (Hmid : Forall (fun c => strip c = c)
            (fst (if truthy cur
                  then (chunks ++ [strip cur], overlap_seed overlap cur)
                  else (chunks, cur)))).
  { destruct (truthy cur); simpl; [|assumption].
    apply Forall_snoc; auto using strip_idempotent. }
  destruct (if truthy cur
            then (chunks ++ [strip cur], overlap_seed overlap cur)
            else (chunks, cur)) as [chunks' cur'].
  destruct (len para >? target_size); [|assumption].
  now apply pack_sentences_trimmed.
Qed.

Lemma paragraph_loop_trimmed (target_size overlap : Z)
    (paragraphs : list str) :
  Forall (fun c => strip c = c)
    (fst (paragraph_loop target_size overlap paragraphs)).
Proof.
  unfold paragraph_loop.
  assert (H : Forall (fun c => strip c = c) (fst (@nil str, @nil ascii)))
    by constructor.
  revert H. generalize (@nil str, @nil ascii).
  induction paragraphs as [|p ps IH]; intros st H; simpl; [assumption|].
  apply IH. now apply para_step_trimmed.
Qed.

(** X1.  Every segment the splitter returns is trimmed (stripping it again
    changes nothing) and is not empty. *)
Theorem segments_trimmed_nonempty (content chunk : str)
    (target_size overlap : Z) :
  In chunk (_smart_split_content content target_size overlap) ->
  strip chunk = chunk /\ chunk <> [].
Proof.
  intros Hin. split.
  - unfold _smart_split_content in Hin.
    pose proof (paragraph_loop_trimmed target_size overlap
                  (split_paragraphs content)) as H.
    destruct (paragraph_loop target_size overlap (split_paragraphs content))
      as [chunks cur].
    simpl in H. apply filter_In in Hin. destruct Hin as [Hin _].
    rewrite Forall_forall in H.
    destruct (truthy cur); [|auto].
    apply in_app_or in Hin. destruct Hin as [Hin | [<- | []]]; [auto|].
    apply strip_idempotent.
  - apply smart_split_not_blank in Hin. intros ->. discriminate.
Qed.

Lemma segments_trimmed_nonempty_witness :
  strip (lit "Delta epsilon.") = lit "Delta epsilon."
  /\ lit "Delta epsilon." <> [].
Proof.
  apply (segments_trimmed_nonempty two_paragraphs (lit "Delta epsilon.")
           20 13).
  vm_compute. tauto.
Defined.

(** ** Blank and short content *)

Lemma reconstructs_nil_text (k : nat) (segments : list str) :
  reconstructs k [] segments [] -> Forall (fun c => c = []) segments.
Proof.
  intros H. remember (@nil ascii) as prev eqn:Ep in H at 1.
  remember (@nil ascii) as text eqn:Et in H.
  revert Ep Et.
  induction H as [prev | prev o fresh segments text Ho Hk Hrec IH];
    intros Ep Et; [constructor|].
  subst prev. apply suffix_of_nil_inv in Ho. subst o.
  apply app_eq_nil in Et. destruct Et as [-> ->]. simpl in *.
  constructor; auto.
Qed.

(** X2.  A text with nothing but whitespace gives no segment, whatever
    the budget and the overlap. *)
Theorem blank_content_no_segment (content : str) (target_size overlap : Z) :
  non_space content = [] ->
  _smart_split_content content target_size overlap = [].
Proof.
  intros Hblank.
  pose proof (smart_split_reconstructs target_size overlap content) as H.
  rewrite Hblank in H. apply reconstructs_nil_text in H.
  destruct (_smart_split_content content target_size overlap) as [|c l] eqn:E;
    [reflexivity|].
  assert (Hin : In c (_smart_split_content content target_size overlap))
    by (rewrite E; now left).
  apply smart_split_not_blank in Hin. rewrite truthy_strip in Hin.
  inversion H as [|? ? Hc _]; subst. rewrite Hc in Hin. discriminate.
Qed.

Lemma blank_content_no_segment_witness :
  _smart_split_content [SP; NL; NL; SP; NL] 0 5 = [].
Proof.
  apply (blank_content_no_segment [SP; NL; NL; SP; NL] 0 5). reflexivity.
Defined.

(** ** Splitting into paragraphs and joining back *)

Lemma is_newline_eq (c : ascii) : is_newline c = true -> c = NL.
Proof.
  unfold is_newline, NL. intros H. apply Nat.eqb_eq in H.
  rewrite <- H. symmetry. apply ascii_nat_embedding.
Qed.

Lemma split_paragraphs_nonempty (s : str) : split_paragraphs s <> [].
Proof.
  destruct s as [|c [|c2 s]]; simpl; try discriminate.
  destruct (is_newline c && is_newline c2);
    [discriminate | apply cons_head_nonempty].
Qed.

Lemma join_cons_head (c : ascii) (l : list str) :
  join_paragraphs (cons_head c l) = c :: join_paragraphs l.
Proof. destruct l as [|p [|q r]]; reflexivity. Qed.

Lemma join_split_aux (n : nat) (s : str) :
  (length s <= n)%nat -> join_paragraphs (split_paragraphs s) = s.
Proof.
  revert s; induction n as [|n IH]; intros s Hs.
  - destruct s; [reflexivity | simpl in Hs; lia].
  - destruct s as [|c [|c2 s]]; [reflexivity | reflexivity |].
    cbn [split_paragraphs].
    destruct (is_newline c && is_newline c2) eqn:E.
    + apply andb_prop in E. destruct E as [E1 E2].
      apply is_newline_eq in E1, E2. subst c c2.
      pose proof (split_paragraphs_nonempty s) as Hne.
      pose proof (IH s ltac:(simpl in Hs; lia)) as Hs'.
      destruct (split_paragraphs s) as [|p l]; [congruence|].
      cbn [join_paragraphs]. simpl. now rewrite <- Hs'.
    + rewrite join_cons_head. f_equal. apply (IH (c2 :: s)). simpl in *. lia.
Qed.

(** ['\n\n'.join(s.split('\n\n')) == s] *)
Lemma join_split (s : str) : join_paragraphs (split_paragraphs s) = s.
Proof. apply (join_split_aux (length s)). lia. Qed.

Lemma join_cons (p : str) (l : list str) :
  l <> [] -> join_paragraphs (p :: l) = p ++ [NL; NL] ++ join_paragraphs l.
Proof. destruct l; [congruence | reflexivity]. Qed.

Lemma test_chunk_len (cur para : str) : len cur <= len (test_chunk cur para).
Proof.
  unfold test_chunk. destruct cur; simpl.
  - apply len_nonneg.
  - change (a :: cur ++ NL :: NL :: para)
      with ((a :: cur) ++ NL :: NL :: para).
    rewrite len_app. pose proof (len_nonneg (NL :: NL :: para)). lia.
Qed.

Lemma accumulate_len (paragraphs : list str) (cur : str) :
  len cur <= len (accumulate cur paragraphs).
Proof.
  unfold accumulate. revert cur.
  induction paragraphs as [|p ps IH]; intros cur; simpl; [lia|].
  pose proof (test_chunk_len cur p). pose proof (IH (test_chunk cur p)).
  lia.
Qed.

Lemma para_step_fits (target_size overlap : Z) (chunks : list str)
    (cur para : str) :
  len (test_chunk cur para) <= target_size ->
  para_step target_size overlap (chunks, cur) para
  = (chunks, test_chunk cur para).
Proof.
  unfold para_step, test_chunk. intros H.
  destruct (truthy cur); simpl in *; case_leb; try reflexivity; lia.
Qed.

(** As long as everything fits, the loop only accumulates. *)
Lemma paragraph_fold_fits (target_size overlap : Z)
    (paragraphs : list str) :
  forall chunks cur,
    len (accumulate cur paragraphs) <= target_size ->
    fold_left (para_step target_size overlap) paragraphs (chunks, cur)
    = (chunks, accumulate cur paragraphs).
Proof.
  unfold accumulate.
  induction paragraphs as [|p ps IH]; intros chunks cur H;
    cbn [fold_left] in *; [reflexivity|].
  pose proof (accumulate_len ps (test_chunk cur p)) as Hlen.
  unfold accumulate in Hlen.
  rewrite para_step_fits by lia. now apply IH.
Qed.

Lemma accumulate_truthy (paragraphs : list str) (cur : str) :
  truthy cur = true ->
  accumulate cur paragraphs = join_paragraphs (cur :: paragraphs).
Proof.
  unfold accumulate. revert cur.
  induction paragraphs as [|p ps IH]; intros cur Hc; simpl; [reflexivity|].
  unfold test_chunk at 2. rewrite Hc. rewrite IH.
  - destruct ps; simpl; now rewrite <- ?app_assoc.
  - destruct cur; [discriminate | reflexivity].
Qed.

(** From an empty accumulator the leading empty paragraphs leave no
    trace; what is accumulated differs from the joined text by leading
    newlines only. *)
Lemma accumulate_lstrip (paragraphs : list str) :
  lstrip (accumulate [] paragraphs) = lstrip (join_paragraphs paragraphs)
  /\ len (accumulate [] paragraphs) <= len (join_paragraphs paragraphs).
Proof.
  induction paragraphs as [|p ps IH]; [split; [reflexivity | cbn; lia]|].
  change (accumulate [] (p :: ps)) with (accumulate p ps).
  destruct p as [|c p].
  - destruct IH as [IH1 IH2].
    destruct ps as [|q r]; [split; [reflexivity | cbn; lia]|].
    rewrite join_cons by discriminate. split.
    + rewrite IH1. reflexivity.
    + rewrite !len_app. change (len []) with 0. change (len [NL; NL]) with 2.
      lia.
  - rewrite accumulate_truthy by reflexivity. split; [reflexivity | lia].
Qed.

(** X3.  A text no longer than the budget comes back as one segment, the
    trimmed text, or as no segment when it is blank. *)
Theorem short_content_single_segment (content : str)
    (target_size overlap : Z) :
  len content <= target_size ->
  _smart_split_content content target_size overlap
  = if truthy (strip content) then [strip content] else [].
Proof.
  intros Hfit. unfold _smart_split_content, paragraph_loop.
  destruct (accumulate_lstrip (split_paragraphs content)) as [Hl Hn].
  rewrite join_split in Hl, Hn.
  rewrite paragraph_fold_fits by lia.
  set (cur := accumulate [] (split_paragraphs content)) in *.
  assert (Hs : strip cur = strip content) by (unfold strip; now rewrite Hl).
  destruct (truthy cur) eqn:Ec; simpl.
  - rewrite strip_idempotent, Hs. destruct (truthy (strip content)); reflexivity.
  - destruct cur; [|discriminate]. rewrite <- Hs. reflexivity.
Qed.

Lemma short_content_single_segment_witness :
  _smart_split_content ([NL; NL] ++ lit " Short note. ") 20 5
  = if truthy (strip ([NL; NL] ++ lit " Short note. "))
    then [strip ([NL; NL] ++ lit " Short note. ")] else [].
Proof.
  apply (short_content_single_segment ([NL; NL] ++ lit " Short note. ") 20 5).
  vm_compute. discriminate.
Defined.

(** X4.  Two paragraphs that fit the budget one by one but not together
    are cut exactly at the paragraph boundary: the segments are the two
    trimmed paragraphs. *)
Theorem two_paragraphs_cut_at_boundary (content p1 p2 : str)
    (target_size overlap : Z) :
  split_paragraphs content = [p1; p2] ->
  len p1 <= target_size -> len p2 <= target_size ->
  len (p1 ++ [NL; NL] ++ p2) > target_size ->
  truthy (strip p1) = true -> truthy (strip p2) = true ->
  _smart_split_content content target_size overlap = [strip p1; strip p2].
Proof.
  intros Hsplit H1 H2 Hboth Hb1 Hb2.
  assert (Ht1 : truthy p1 = true) by (destruct p1; [discriminate | reflexivity]).
  assert (Ht2 : truthy p2 = true) by (destruct p2; [discriminate | reflexivity]).
  unfold _smart_split_content, paragraph_loop. rewrite Hsplit.
  cbn [fold_left].
  assert (E1 : para_step target_size overlap ([], []) p1 = ([], p1)).
  { unfold para_step. cbn [truthy].
    destruct (Z.leb_spec (len p1) target_size); [reflexivity | lia]. }
  rewrite E1, para_step_drops_seed by assumption.
  rewrite Ht2. simpl. rewrite !strip_idempotent, Hb1, Hb2. reflexivity.
Qed.

Lemma two_paragraphs_cut_at_boundary_witness :
  _smart_split_content two_paragraphs 20 13
  = [strip (lit "Alpha. Beta gamma."); strip (lit "Delta epsilon.")].
Proof.
  apply (two_paragraphs_cut_at_boundary two_paragraphs
           (lit "Alpha. Beta gamma.") (lit "Delta epsilon.") 20 13);
    try reflexivity; vm_compute; congruence.
Defined.

(** X5.  With an overlap that is not positive the segments partition the
    text: their characters other than whitespace, in order, are those of
    the content. *)
Theorem no_overlap_partition (content : str) (target_size overlap : Z) :
  overlap <= 0 ->
  concat (map non_space (_smart_split_content content target_size overlap))
  = non_space content.
Proof.
  intros Hov.
  pose proof (smart_split_reconstructs target_size overlap content) as H.
  replace (Z.to_nat overlap) with 0%nat in H by lia.
  now apply reconstructs_no_overlap in H.
Qed.

Lemma no_overlap_partition_witness :
  concat (map non_space (_smart_split_content three_sentences 20 0))
  = non_space three_sentences.
Proof. apply (no_overlap_partition three_sentences 20 0). lia. Defined.

(** * Further properties of the hierarchy *)

Section HierarchyFacts.

Variable digest8 : str -> str.
Variable config : Config.

Local Abbreviation create_parents := (_create_parent_chunks digest8 config).
Local Abbreviation create_children := (_create_child_chunks digest8 config).
Local Abbreviation families := (section_families digest8 config).
Local Abbreviation raw := (unnumbered_chunks digest8 config).

(** The children of one parent reconstruct the text of the parent. *)
Lemma children_reconstruct (name : str) (parent_chunk : Chunk)
    (parent_idx : nat) :
  reconstructs (Z.to_nat (overlap_size config)) []
    (map (fun c => non_space (content c))
         (create_children name parent_chunk parent_idx))
    (non_space (content parent_chunk)).
Proof.
  unfold _create_child_chunks.
  destruct (len (content parent_chunk) <=? child_chunk_size config).
  - simpl. rewrite <- (app_nil_r (non_space (content parent_chunk))) at 2.
    change (non_space (content parent_chunk))
      with ([] ++ non_space (content parent_chunk)) at 1.
    constructor; [apply suffix_of_nil | simpl; lia | constructor].
  - rewrite map_map.
    rewrite map_ext with
      (g := fun e => non_space (snd e)) by (intros [i t]; reflexivity).
    rewrite <- map_map, enumerate_snd. apply smart_split_reconstructs.
Qed.

Lemma reconstructs_nonempty (k : nat) (text : str) :
  reconstructs k [] [] text -> text = [].
Proof. now inversion 1. Qed.

Lemma truthy_strip_true (s : str) :
  truthy (strip s) = true <-> non_space s <> [].
Proof.
  rewrite truthy_strip. destruct (non_space s); simpl; split;
    congruence.
Qed.

(** Text that is not blank gives at least one segment. *)
Lemma smart_split_some (content : str) (target_size overlap : Z) :
  truthy (strip content) = true ->
  _smart_split_content content target_size overlap <> [].
Proof.
  intros Hb E. apply truthy_strip_true in Hb. apply Hb.
  pose proof (smart_split_reconstructs target_size overlap content) as H.
  rewrite E in H. now apply reconstructs_nonempty in H.
Qed.

Lemma create_parents_not_blank (name text : str) :
  truthy (strip text) = true ->
  create_parents name text <> []
  /\ forall p, In p (create_parents name text) ->
       truthy (strip (content p)) = true.
Proof.
  intros Hb. unfold _create_parent_chunks.
  destruct (len text <=? parent_chunk_size config).
  - split; [discriminate|]. intros p [<- | []]. exact Hb.
  - split.
    + pose proof (smart_split_some text (parent_chunk_size config)
                    (overlap_size config) Hb) as Hne.
      destruct (_smart_split_content text (parent_chunk_size config)
                  (overlap_size config)); [congruence | discriminate].
    + intros p Hp. apply in_map_iff in Hp. destruct Hp as [[i t] [<- Hin]].
      apply enumerate_In in Hin. destruct Hin as [_ Hin].
      apply (smart_split_not_blank _ _ _ _ Hin).
Qed.

Lemma create_children_not_blank (name : str) (parent_chunk : Chunk)
    (parent_idx : nat) :
  truthy (strip (content parent_chunk)) = true ->
  create_children name parent_chunk parent_idx <> []
  /\ forall c, In c (create_children name parent_chunk parent_idx) ->
       truthy (strip (content c)) = true.
Proof.
  intros Hb. unfold _create_child_chunks.
  destruct (len (content parent_chunk) <=? child_chunk_size config).
  - split; [discriminate|]. intros p [<- | []]. exact Hb.
  - split.
    + pose proof (smart_split_some (content parent_chunk)
                    (child_chunk_size config) (overlap_size config) Hb)
        as Hne.
      destruct (_smart_split_content (content parent_chunk)
                  (child_chunk_size config) (overlap_size config));
        [congruence | discriminate].
    + intros p Hp. apply in_map_iff in Hp. destruct Hp as [[i t] [<- Hin]].
      apply enumerate_In in Hin. destruct Hin as [_ Hin].
      apply (smart_split_not_blank _ _ _ _ Hin).
Qed.

(** A family is a parent of the section linked to its children. *)
Lemma families_In (name text : str) (fam : Chunk * list Chunk) :
  In fam (families name text) ->
  exists idx p,
    In p (create_parents name text)
    /\ fam = link_children digest8 config name (idx, p).
Proof.
  unfold section_families. rewrite in_map_iff.
  intros [[idx p] [<- H]]. apply enumerate_In in H. exists idx, p. tauto.
Qed.

Lemma families_not_blank (name text : str) (fam : Chunk * list Chunk) :
  truthy (strip text) = true ->
  In fam (families name text) ->
  truthy (strip (content (fst fam))) = true
  /\ snd fam <> []
  /\ forall c, In c (snd fam) -> truthy (strip (content c)) = true.
Proof.
  intros Hb Hfam. apply families_In in Hfam.
  destruct Hfam as (idx & p & Hp & ->).
  destruct (create_parents_not_blank name text Hb) as [_ Hall].
  specialize (Hall p Hp). simpl.
  destruct (create_children_not_blank name p idx Hall). auto.
Qed.

End HierarchyFacts.

(** * Content within the budget, and empty content *)






(** X6.  The children of a parent are numbered 1, 2, ... in list order,
    all name that parent, and their contents, each without the overlap
    prefix it carries over from the child before it, make up the content
    of the parent up to whitespace. *)
Theorem children_reconstruct_parent (digest8 : str -> str) (config : Config)
    (name : str) (parent_chunk : Chunk) (parent_idx : nat) :
  let children :=
    _create_child_chunks digest8 config name parent_chunk parent_idx in
  map chunk_index children = seq 1 (length children)
  /\ (forall c, In c children -> parent_id c = Some (chunk_id parent_chunk))
  /\ reconstructs (Z.to_nat (overlap_size config)) []
       (map (fun c => non_space (content c)) children)
       (non_space (content parent_chunk)).
Proof.
  simpl. repeat split.
  - destruct (create_children_shape digest8 config name parent_chunk
                parent_idx) as [texts ->].
    rewrite length_map, enumerate_length, map_map. simpl.
    apply enumerate_fst.
  - destruct (create_children_shape digest8 config name parent_chunk
                parent_idx) as [texts ->].
    intros c Hc. apply in_map_iff in Hc. now destruct Hc as [[i t] [<- _]].
  - apply children_reconstruct.
Qed.

(** X7.  When no document is blank, no chunk of the run is blank, every
    parent has at least one child, and every document has a parent with
    index 1. *)
Theorem no_blank_chunk_in_run (digest8 : str -> str) (config : Config)
    (sections : list (str * str)) :
  (forall doc, In doc sections -> truthy (strip (snd doc)) = true) ->
  let flat := all_chunks (build_hierarchy digest8 config sections) in
  (forall c, In c flat ->
     truthy (strip (content c)) = true
     /\ (level c = parent ->
         exists n, child_count c = Some n /\ (1 <= n)%nat))
  /\ (forall doc, In doc sections ->
        exists p, In p flat /\ level p = parent
                  /\ section_name p = fst doc /\ chunk_index p = 1%nat).
Proof.
  intros Hdocs flat. subst flat. rewrite all_chunks_build. split.
  - intros c Hc. apply number_from_In in Hc.
    destruct Hc as (i & c0 & -> & Hc0 & _). simpl.
    unfold unnumbered_chunks in Hc0. apply in_flat_map in Hc0.
    destruct Hc0 as (doc & Hdoc & Hc0). specialize (Hdocs doc Hdoc).
    unfold section_chunks in Hc0. apply in_app_or in Hc0.
    destruct Hc0 as [Hc0 | Hc0].
    + apply in_map_iff in Hc0. destruct Hc0 as (fam & <- & Hfam).
      destruct (families_not_blank digest8 config _ _ fam Hdocs Hfam)
        as (Hp & Hne & _).
      split; [assumption|]. intros _.
      pose proof (families_ok digest8 config (fst doc) (snd doc)) as Hok.
      rewrite Forall_forall in Hok. specialize (Hok fam Hfam).
      exists (length (snd fam)). split; [apply (fam_child_count _ _ Hok)|].
      destruct (snd fam); [congruence | simpl; lia].
    + apply in_concat in Hc0. destruct Hc0 as (cs & Hcs & Hc0).
      apply in_map_iff in Hcs. destruct Hcs as (fam & <- & Hfam).
      destruct (families_not_blank digest8 config _ _ fam Hdocs Hfam)
        as (_ & _ & Hall).
      split; [auto|].
      pose proof (families_ok digest8 config (fst doc) (snd doc)) as Hok.
      rewrite Forall_forall in Hok. specialize (Hok fam Hfam).
      destruct (fam_children _ _ Hok c0 Hc0) as (Hl & _). congruence.
  - intros doc Hdoc. specialize (Hdocs doc Hdoc).
    destruct (create_parents_not_blank digest8 config (fst doc) (snd doc)
                Hdocs) as [Hne _].
    destruct (families_shape digest8 config (fst doc) (snd doc))
      as [texts Hfams].
    assert (Htexts : texts <> []).
    { intros ->. apply Hne. unfold section_families in Hfams.
      simpl in Hfams. apply map_eq_nil in Hfams.
      destruct (_create_parent_chunks digest8 config (fst doc) (snd doc));
        [reflexivity | discriminate]. }
    destruct texts as [|t texts]; [congruence|].
    set (fam := link_children digest8 config (fst doc)
                  (0%nat, parent_record digest8 (fst doc) 1 t)).
    assert (Hfam : In fam (section_families digest8 config (fst doc)
                             (snd doc))).
    { rewrite Hfams. left. reflexivity. }
    assert (Hraw : In (fst fam) (unnumbered_chunks digest8 config sections)).
    { unfold unnumbered_chunks. apply in_flat_map. exists doc.
      split; [assumption|]. unfold section_chunks. apply in_or_app. left.
      now apply in_map. }
    apply In_nth with (d := fst fam) in Hraw.
    destruct Hraw as (n & Hn & Hnth).
    exists (set_global_id (fst fam) (1 + n)). repeat split.
    unfold number_from. apply in_map_iff.
    exists ((1 + n)%nat, fst fam). split; [reflexivity|].
    rewrite <- Hnth at 1. clear Hnth.
    revert n Hn. generalize 1%nat.
    induction (unnumbered_chunks digest8 config sections) as [|x l IH];
      intros g n Hn; simpl in *; [lia|].
    destruct n as [|n].
    + left. f_equal. lia.
    + right. replace (g + S n)%nat with (S g + n)%nat by lia.
      apply IH. lia.
Qed.

Lemma no_blank_chunk_in_run_witness :
  let flat := all_chunks (build_hierarchy sample_digest small_config
                            small_sections) in
  (forall c, In c flat ->
     truthy (strip (content c)) = true
     /\ (level c = parent ->
         exists n, child_count c = Some n /\ (1 <= n)%nat))
  /\ (forall doc, In doc small_sections ->
        exists p, In p flat /\ level p = parent
                  /\ section_name p = fst doc /\ chunk_index p = 1%nat).
Proof.
  apply (no_blank_chunk_in_run sample_digest small_config small_sections).
  intros doc [<- | [<- | []]]; reflexivity.
Defined.

(** X8.  Every chunk of the flat list has the character and token counts
    of its own content and a sequence number; parents carry their child
    keys and no parent id, children a parent id and no child keys. *)
Theorem flat_chunks_well_formed (digest8 : str -> str) (config : Config)
    (sections : list (str * str)) (c : Chunk) :
  In c (all_chunks (build_hierarchy digest8 config sections)) ->
  well_formed_chunk c.
Proof.
  rewrite all_chunks_build. intros Hc. apply number_from_In in Hc.
  destruct Hc as (i & c0 & -> & Hc0 & _).
  unfold unnumbered_chunks in Hc0. apply in_flat_map in Hc0.
  destruct Hc0 as (doc & _ & Hc0).
  unfold section_chunks in Hc0. apply in_app_or in Hc0.
  destruct Hc0 as [Hc0 | Hc0].
  - apply in_map_iff in Hc0. destruct Hc0 as (fam & <- & Hfam).
    destruct (families_shape digest8 config (fst doc) (snd doc))
      as [texts Hfams].
    rewrite Hfams in Hfam. apply in_map_iff in Hfam.
    destruct Hfam as ([idx t] & <- & _).
    unfold well_formed_chunk. simpl. repeat split; discriminate.
  - apply in_concat in Hc0. destruct Hc0 as (cs & Hcs & Hc0).
    apply in_map_iff in Hcs. destruct Hcs as (fam & <- & Hfam).
    apply families_In in Hfam. destruct Hfam as (idx & p & _ & ->).
    simpl in Hc0.
    destruct (create_children_shape digest8 config (fst doc) p idx)
      as [texts E].
    rewrite E in Hc0. apply in_map_iff in Hc0.
    destruct Hc0 as ([j t] & <- & _).
    unfold well_formed_chunk. simpl. repeat split; discriminate.
Qed.

Lemma flat_chunks_well_formed_witness :
  well_formed_chunk
    (nth 4 (all_chunks (build_hierarchy sample_digest small_config
                          small_sections))
         (parent_record sample_digest [] 0 [])).
Proof.
  apply (flat_chunks_well_formed sample_digest small_config small_sections).
  vm_compute. tauto.
Defined.

(** ** Uniqueness of the chunk ids *)

Lemma two_markers_differ (m1 m2 : ascii) (d1 d2 r1 r2 : str) :
  is_digit m1 = false -> is_digit m2 = false -> m1 <> m2 ->
  forallb is_digit d1 = true -> forallb is_digit d2 = true ->
  d1 ++ m1 :: r1 <> d2 ++ m2 :: r2.
Proof.
  intros Hm1 Hm2 Hne. revert d2; induction d1 as [|a d1 IH]; intros [|b d2];
    simpl; intros H1 H2 E.
  - inversion E; auto.
  - inversion E; subst. apply andb_prop in H2. destruct H2 as [H2 _].
    congruence.
  - inversion E; subst. apply andb_prop in H1. destruct H1 as [H1 _].
    congruence.
  - inversion E; subst.
    apply andb_prop in H1. apply andb_prop in H2.
    apply (IH d2); tauto.
Qed.

(** A parent id is never a child id. *)
Lemma parent_id_not_child_id (a b : str) (i j : nat) :
  a ++ lit "_P" ++ str_of_nat i <> b ++ lit "_C" ++ str_of_nat j.
Proof.
  intros E. apply (f_equal (@rev ascii)) in E.
  rewrite !rev_app_distr in E. simpl in E. rewrite <- !app_assoc in E.
  simpl in E.
  apply two_markers_differ in E; auto;
    try (rewrite forallb_rev; apply str_of_nat_digits).
  discriminate.
Qed.

Lemma filter_partition_perm {A : Type} (f g : A -> bool) (l : list A) :
  (forall x, g x = negb (f x)) ->
  Permutation l (filter f l ++ filter g l).
Proof.
  intros Hg. induction l as [|x l IH]; simpl; [constructor|].
  rewrite Hg. destruct (f x); simpl.
  - now constructor.
  - now apply Permutation_cons_app.
Qed.

Section UniqueIds.

Variable digest8 : str -> str.
Variable config : Config.

Lemma child_ids_NoDup (F : list (Chunk * list Chunk)) :
  NoDup (map (fun fam => chunk_id (fst fam)) F) ->
  (forall fam, In fam F -> exists name, family_ok name fam) ->
  NoDup (map chunk_id (concat (map snd F))).
Proof.
  induction F as [|f0 F IH]; simpl; intros Hnd Hok; [constructor|].
  inversion Hnd as [|? ? Hnotin Hnd']; subst.
  rewrite map_app. apply NoDup_app_intro.
  - destruct (Hok f0 (or_introl eq_refl)) as [name H0].
    apply (family_child_ids_NoDup name f0 H0).
  - apply IH; auto.
  - intros x H1 H2.
    apply in_map_iff in H1. destruct H1 as (c1 & <- & Hc1).
    apply in_map_iff in H2. destruct H2 as (c2 & E & Hc2).
    apply in_concat in Hc2. destruct Hc2 as (cs & Hcs & Hc2).
    apply in_map_iff in Hcs. destruct Hcs as (f1 & <- & Hf1).
    destruct (Hok f0 (or_introl eq_refl)) as [n0 H0].
    destruct (Hok f1 (or_intror Hf1)) as [n1 H1].
    destruct (fam_children _ _ H0 c1 Hc1) as (_ & _ & _ & E1).
    destruct (fam_children _ _ H1 c2 Hc2) as (_ & _ & _ & E2).
    rewrite E1, E2 in E. apply child_id_inj in E. destruct E as [E _].
    apply Hnotin. rewrite <- E.
    apply (in_map (fun fam => chunk_id (fst fam))). assumption.
Qed.

Lemma raw_ids_NoDup (sections : list (str * str)) :
  NoDup (map fst sections) ->
  NoDup (map chunk_id (unnumbered_chunks digest8 config sections)).
Proof.
  intros Hnd.
  set (raw := unnumbered_chunks digest8 config sections).
  assert (Hperm : Permutation raw
                    (of_level parent raw ++ of_level child raw)).
  { apply filter_partition_perm. intros x. destruct (level x); reflexivity. }
  apply (Permutation_map chunk_id) in Hperm.
  apply (Permutation_NoDup (Permutation_sym Hperm)).
  unfold raw. rewrite filter_parents_raw, filter_children_raw, map_app.
  set (F := all_families digest8 config sections).
  assert (HF : forall fam, In fam F -> exists name, family_ok name fam).
  { intros fam Hfam. apply all_families_ok in Hfam.
    destruct Hfam as (name & _ & Hok). eauto. }
  apply NoDup_app_intro.
  - rewrite map_map. now apply parent_ids_NoDup.
  - apply child_ids_NoDup; [|assumption]. now apply parent_ids_NoDup.
  - intros x H1 H2.
    apply in_map_iff in H1. destruct H1 as (p & <- & Hp).
    apply in_map_iff in Hp. destruct Hp as (f0 & <- & Hf0).
    apply in_map_iff in H2. destruct H2 as (c & E & Hc).
    apply in_concat in Hc. destruct Hc as (cs & Hcs & Hc).
    apply in_map_iff in Hcs. destruct Hcs as (f1 & <- & Hf1).
    destruct (HF f0 Hf0) as [n0 H0]. destruct (HF f1 Hf1) as [n1 H1].
    destruct (fam_children _ _ H1 c Hc) as (_ & _ & _ & E1).
    rewrite E1, (fam_id _ _ H0) in E. symmetry in E.
    now apply parent_id_not_child_id in E.
Qed.

End UniqueIds.

(** X9.  With distinct section names no two chunks of the flat list have
    the same id. *)
Theorem chunk_ids_unique (digest8 : str -> str) (config : Config)
    (sections : list (str * str)) :
  NoDup (map fst sections) ->
  NoDup (map chunk_id (all_chunks (build_hierarchy digest8 config sections))).
Proof.
  intros Hnd. rewrite all_chunks_build.
  unfold number_from. rewrite map_map. simpl.
  rewrite <- map_map, enumerate_snd. now apply raw_ids_NoDup.
Qed.

Lemma chunk_ids_unique_witness :
  NoDup (map chunk_id
           (all_chunks (build_hierarchy sample_digest small_config
                          small_sections))).
Proof.
  apply (chunk_ids_unique sample_digest small_config small_sections).
  repeat constructor; simpl; intuition discriminate.
Defined.

(** ** The grouped view *)

Lemma firstn_length_app {A : Type} (a b : list A) :
  firstn (length a) (a ++ b) = a.
Proof. induction a; simpl; [now destruct b | now f_equal]. Qed.

Lemma skipn_length_app {A : Type} (a b : list A) :
  skipn (length a) (a ++ b) = b.
Proof. induction a; simpl; auto. Qed.

Section GroupedView.

Variable digest8 : str -> str.
Variable config : Config.

Lemma number_from_keeps (g : nat) (l : list Chunk) (lv : Level) (name : str) :
  Forall (fun c => level c = lv /\ section_name c = name) l ->
  Forall (fun c => level c = lv /\ section_name c = name) (number_from g l).
Proof.
  intros H. apply Forall_forall. intros c Hc. apply number_from_In in Hc.
  destruct Hc as (i & c0 & -> & Hc0 & _).
  rewrite Forall_forall in H. apply (H c0 Hc0).
Qed.

Lemma process_sections_grouped (sections : list (str * str)) :
  forall self g,
    let final :=
      fold_left (process_section digest8 config) sections (self, g) in
    exists added,
      hierarchical_chunks (fst final) = hierarchical_chunks self ++ added
      /\ flat_map (fun e => parent_chunks (snd e) ++ child_chunks (snd e))
           added
         = number_from g (unnumbered_chunks digest8 config sections)
      /\ Forall2 section_record_ok sections added.
Proof.
  induction sections as [|[name text] rest IH]; intros self g; simpl.
  - exists []. rewrite app_nil_r. repeat split; constructor.
  - fold (section_chunks digest8 config name text).
    rewrite assign_global_ids_spec.
    set (fams := section_families digest8 config name text).
    set (ps := map fst fams). set (cs := concat (map snd fams)).
    match goal with
    | |- context [fold_left _ rest (?st, ?g')] =>
        destruct (IH st g') as (added & Hh & Hflat & Hok)
    end.
    simpl in Hh.
    assert (Esc : section_chunks digest8 config name text = ps ++ cs)
      by reflexivity.
    rewrite Esc in *.
    eexists (_ :: added). split; [|split].
    + rewrite Hh, <- app_assoc. reflexivity.
    + cbn [flat_map parent_chunks child_chunks snd].
      rewrite firstn_skipn, Hflat. symmetry. apply number_from_app.
    + constructor; [|assumption].
      unfold section_record_ok. cbn [fst snd sd_section_name original_length
        parent_chunks child_chunks].
      rewrite number_from_app.
      rewrite <- (number_from_length g ps) at 1 3.
      rewrite firstn_length_app, skipn_length_app.
      repeat split; apply number_from_keeps; apply Forall_forall; intros c Hc.
      * now apply (section_chunks_parent_part digest8 config name text).
      * apply (section_chunks_child_part digest8 config name text) in Hc.
        tauto.
Qed.

End GroupedView.

(** X10.  The grouped view holds one record per document, in order, with
    the document's name and length; its parent list holds parents and its
    child list children of that document; and the records' chunks, taken
    section by section, are exactly the flat list. *)
Theorem grouped_view_consistent (digest8 : str -> str) (config : Config)
    (sections : list (str * str)) :
  let self := build_hierarchy digest8 config sections in
  grouped_chunks self = all_chunks self
  /\ Forall2 section_record_ok sections (hierarchical_chunks self).
Proof.
  simpl. unfold grouped_chunks. rewrite all_chunks_build.
  unfold build_hierarchy.
  destruct (process_sections_grouped digest8 config sections
              (mkChunker [] []) 1) as (added & Hh & Hflat & Hok).
  simpl in Hh. rewrite Hh. auto.
Qed.

(** ** When the call raises *)

Lemma sum_tokens_nonempty (l : list Chunk) : sum_tokens l <> 0 -> l <> [].
Proof. intros H ->. now apply H. Qed.

Lemma avg_child_tokens_nonzero (children : list Chunk) :
  sum_tokens children <> 0 ->
  Qeq_bool (avg_child_tokens_of children * 4) 0 = false.
Proof.
  intros H. destruct (Qeq_bool (avg_child_tokens_of children * 4) 0) eqn:E;
    [|reflexivity].
  exfalso. apply H. apply Qeq_bool_iff in E.
  unfold avg_child_tokens_of, mean_tokens in E.
  destruct children as [|c l]; [reflexivity|].
  unfold Qeq, Qdiv, Qmult, Qinv in E. simpl in E. lia.
Qed.

Lemma inject_Z_zero (z : Z) : Qeq_bool (inject_Z z) 0 = (z =? 0).
Proof. unfold Qeq_bool. simpl. now rewrite Z.mul_1_r. Qed.

Lemma parents_of_children (digest8 : str -> str) (config : Config)
    (sections : list (str * str)) :
  let flat := all_chunks (build_hierarchy digest8 config sections) in
  of_level child flat <> [] -> of_level parent flat <> [].
Proof.
  simpl. rewrite all_chunks_build. unfold of_level.
  intros Hc Hp. apply Hc.
  apply (f_equal (map (fun _ => tt))) in Hp.
  rewrite filter_number_from in Hp by reflexivity.
  apply map_eq_nil in Hp. fold (of_level parent
    (unnumbered_chunks digest8 config sections)) in Hp.
  rewrite filter_parents_raw in Hp. apply map_eq_nil in Hp.
  apply map_eq_nil with (f := fun _ : Chunk => tt).
  rewrite filter_number_from by reflexivity.
  fold (of_level child (unnumbered_chunks digest8 config sections)).
  rewrite filter_children_raw, Hp. reflexivity.
Qed.

(** X11.  [create_hierarchical_chunks] raises [ZeroDivisionError] exactly
    when the token estimates of the children sum to zero (in particular
    when there is no child) or the context window is zero; otherwise it
    returns the flat list it has stored. *)
Theorem create_hierarchical_chunks_result (digest8 : str -> str)
    (config : Config) (model_context_window : Z)
    (sections : list (str * str)) :
  let r := create_hierarchical_chunks digest8 config model_context_window
             sections in
  let children := of_level child (all_chunks (fst r)) in
  (sum_tokens children = 0 \/ model_context_window = 0 ->
   snd r = Raise ZeroDivisionError)
  /\ (sum_tokens children <> 0 -> model_context_window <> 0 ->
      snd r = Ok (all_chunks (fst r))).
Proof.
  simpl. unfold _calculate_optimization_metrics, floordiv, truediv.
  set (self := build_hierarchy digest8 config sections).
  destruct (Z.eq_dec (sum_tokens (of_level child (all_chunks self))) 0)
    as [Hz | Hnz].
  - rewrite (avg_child_tokens_zero _ Hz). split; [reflexivity | tauto].
  - rewrite (avg_child_tokens_nonzero _ Hnz). simpl.
    pose proof (parents_of_children digest8 config sections
                  (sum_tokens_nonempty _ Hnz)) as Hp.
    fold self in Hp. unfold mean_tokens.
    destruct (of_level parent (all_chunks self)) as [|p ps] eqn:Ep;
      [congruence|].
    simpl. rewrite inject_Z_zero.
    destruct (Z.eqb_spec model_context_window 0); simpl; split;
      intros; tauto || reflexivity.
Qed.

(** * The RAG-ready export *)

Lemma ascii_eqb_eq (a b : ascii) : ascii_eqb a b = true <-> a = b.
Proof.
  unfold ascii_eqb. destruct (ascii_dec a b); split; congruence.
Qed.

Lemma count_char_app (c : ascii) (a b : str) :
  count_char c (a ++ b) = (count_char c a + count_char c b)%nat.
Proof. unfold count_char. now rewrite filter_app, length_app. Qed.

Lemma plain_field_app (a b : str) :
  plain_field (a ++ b) = plain_field a && plain_field b.
Proof. apply forallb_app. Qed.

Lemma plain_field_count (s : str) :
  plain_field s = true -> count_char BAR s = 0%nat /\ count_char NL s = 0%nat.
Proof.
  unfold plain_field, count_char. induction s as [|x s IH]; simpl;
    [auto|].
  intros H. apply andb_prop in H. destruct H as [Hx Hs].
  apply andb_prop in Hx. destruct Hx as [Hb Hn].
  apply negb_true_iff in Hb, Hn. rewrite Hb, Hn. auto.
Qed.

Lemma forallb_replace_char (P : ascii -> bool) (c : ascii) (new s : str) :
  forallb P new = true ->
  (forall x, In x s -> ascii_eqb x c = false -> P x = true) ->
  forallb P (replace_char c new s) = true.
Proof.
  intros Hnew. unfold replace_char.
  induction s as [|x s IH]; simpl; intros H; [reflexivity|].
  rewrite forallb_app, IH by auto.
  destruct (ascii_eqb x c) eqn:E; [now rewrite Hnew|].
  simpl. rewrite (H x (or_introl eq_refl) E). reflexivity.
Qed.

Lemma safe_content_is_plain (content : str) :
  plain_field (safe_content content) = true.
Proof.
  unfold safe_content, plain_field.
  apply forallb_replace_char; [reflexivity|].
  intros x Hx Hnl. rewrite Hnl, andb_true_r.
  assert (H : forallb (fun y => negb (ascii_eqb y BAR))
                (replace_char BAR (lit "&#124;") content) = true).
  { apply forallb_replace_char; [reflexivity|]. intros y _ ->. reflexivity. }
  rewrite forallb_forall in H. auto.
Qed.

Lemma replace_char_absent (c : ascii) (new s : str) :
  forallb (fun x => negb (ascii_eqb x c)) s = true ->
  replace_char c new s = s.
Proof.
  unfold replace_char. induction s as [|x s IH]; simpl; [reflexivity|].
  intros H. apply andb_prop in H. destruct H as [Hx Hs].
  apply negb_true_iff in Hx. rewrite Hx. simpl. now rewrite (IH Hs).
Qed.

(** X12.  The content field of an exported line holds neither the field
    delimiter nor a newline, whatever the content of the chunk, and a
    content that holds neither is written as it is. *)
Theorem safe_content_plain (content : str) :
  plain_field (safe_content content) = true
  /\ (plain_field content = true -> safe_content content = content).
Proof.
  split; [apply safe_content_is_plain|].
  unfold plain_field, safe_content. intros H. rewrite forallb_forall in H.
  rewrite (replace_char_absent BAR).
  - apply replace_char_absent. apply forallb_forall. intros x Hx.
    specialize (H x Hx). apply andb_prop in H. tauto.
  - apply forallb_forall. intros x Hx.
    specialize (H x Hx). apply andb_prop in H. tauto.
Qed.

Lemma digits_plain (s : str) : forallb is_digit s = true -> plain_field s = true.
Proof.
  unfold plain_field. induction s as [|c s IH]; simpl; [reflexivity|].
  intros H. apply andb_prop in H. destruct H as [Hc Hs]. rewrite IH by auto.
  rewrite andb_true_r. clear -Hc.
  destruct c as [[] [] [] [] [] [] [] []]; try discriminate; reflexivity.
Qed.

Lemma str_of_Z_plain (z : Z) : plain_field (str_of_Z z) = true.
Proof.
  unfold str_of_Z. destruct (z <? 0).
  - rewrite plain_field_app.
    rewrite (digits_plain (str_of_nat (Z.to_nat (- z))))
      by apply str_of_nat_digits.
    reflexivity.
  - apply digits_plain, str_of_nat_digits.
Qed.

Lemma level_str_plain (l : Level) : plain_field (level_str l) = true.
Proof. destruct l; reflexivity. Qed.

(** A line is seven plain fields between six bars and ends with the only
    newline it holds. *)
Lemma rag_line_shape (c : Chunk) :
  plain_chunk c = true ->
  exists body,
    rag_line c = body ++ [NL]
    /\ count_char NL body = 0%nat /\ count_char BAR body = 6%nat.
Proof.
  unfold plain_chunk. intros H.
  apply andb_prop in H. destruct H as [H Hhash].
  apply andb_prop in H. destruct H as [H Hpid].
  apply andb_prop in H. destruct H as [Hid Hsec].
  set (pid := match parent_id c with Some q => q | None => lit "ROOT" end).
  assert (Hpid' : plain_field pid = true).
  { subst pid. destruct (parent_id c); [assumption | reflexivity]. }
  exists (chunk_id c ++ [BAR] ++ level_str (level c) ++ [BAR]
          ++ section_name c ++ [BAR] ++ pid ++ [BAR]
          ++ str_of_Z (estimated_tokens c) ++ [BAR]
          ++ content_hash c ++ [BAR] ++ safe_content (content c)).
  split; [unfold rag_line; fold pid; now rewrite <- !app_assoc|].
  destruct (plain_field_count _ Hid) as [B1 N1].
  destruct (plain_field_count _ (level_str_plain (level c))) as [B2 N2].
  destruct (plain_field_count _ Hsec) as [B3 N3].
  destruct (plain_field_count _ Hpid') as [B4 N4].
  destruct (plain_field_count _ (str_of_Z_plain (estimated_tokens c)))
    as [B5 N5].
  destruct (plain_field_count _ Hhash) as [B6 N6].
  destruct (plain_field_count _ (safe_content_is_plain (content c)))
    as [B7 N7].
  rewrite !count_char_app, B1, B2, B3, B4, B5, B6, B7,
    N1, N2, N3, N4, N5, N6, N7.
  split; reflexivity.
Qed.

(** X13.  When the ids, section names and fingerprints hold no bar and no
    newline, the exported text has the three newlines of its header and
    one line per chunk, and every such line has its six bars: it splits
    back into the seven fields. *)
Theorem rag_export_one_line_per_chunk (self : Chunker) :
  forallb plain_chunk (all_chunks self) = true ->
  count_char NL (_save_rag_format self)
  = (3 + length (all_chunks self))%nat
  /\ count_char BAR (_save_rag_format self)
     = (6 + 6 * length (all_chunks self))%nat
  /\ forall c, In c (all_chunks self) ->
       exists body,
         rag_line c = body ++ [NL]
         /\ count_char NL body = 0%nat /\ count_char BAR body = 6%nat.
Proof.
  intros H. rewrite forallb_forall in H.
  split; [|split; [|intros c Hc; apply rag_line_shape; auto]].
  - unfold _save_rag_format. rewrite !count_char_app.
    change (count_char NL (lit "# SMART RAG-READY CHUNKS")) with 0%nat.
    change (count_char NL
              (lit "# Format: ID|LEVEL|SECTION|PARENT|TOKENS|HASH|CONTENT"))
      with 0%nat.
    change (count_char NL [NL]) with 1%nat.
    change (count_char NL [NL; NL]) with 2%nat.
    induction (all_chunks self) as [|c l IH]; [reflexivity|].
    simpl map. simpl concat. rewrite count_char_app.
    destruct (rag_line_shape c (H c (or_introl eq_refl)))
      as (body & -> & Hn & _).
    rewrite count_char_app, Hn.
    change (count_char NL [NL]) with 1%nat.
    specialize (IH (fun x Hx => H x (or_intror Hx))). simpl length. lia.
  - unfold _save_rag_format. rewrite !count_char_app.
    change (count_char BAR (lit "# SMART RAG-READY CHUNKS")) with 0%nat.
    change (count_char BAR
              (lit "# Format: ID|LEVEL|SECTION|PARENT|TOKENS|HASH|CONTENT"))
      with 6%nat.
    change (count_char BAR [NL]) with 0%nat.
    change (count_char BAR [NL; NL]) with 0%nat.
    induction (all_chunks self) as [|c l IH]; [reflexivity|].
    simpl map. simpl concat. rewrite count_char_app.
    destruct (rag_line_shape c (H c (or_introl eq_refl)))
      as (body & -> & _ & Hb).
    rewrite count_char_app, Hb.
    change (count_char BAR [NL]) with 0%nat.
    specialize (IH (fun x Hx => H x (or_intror Hx))). simpl length. lia.
Qed.

Lemma rag_export_one_line_per_chunk_witness :
  let self := build_hierarchy (fun _ => lit "0a1b2c3d") small_config
                small_sections in
  count_char NL (_save_rag_format self) = (3 + 8)%nat
  /\ count_char BAR (_save_rag_format self) = (6 + 6 * 8)%nat
  /\ forall c, In c (all_chunks self) ->
       exists body,
         rag_line c = body ++ [NL]
         /\ count_char NL body = 0%nat /\ count_char BAR body = 6%nat.
Proof.
  apply (rag_export_one_line_per_chunk
           (build_hierarchy (fun _ => lit "0a1b2c3d") small_config
              small_sections)).
  reflexivity.
Defined.

(** * Section names *)

Lemma lstrip_In (x : ascii) (s : str) : In x (lstrip s) -> In x s.
Proof.
  induction s as [|c s IH]; simpl; [tauto|].
  destruct (is_space c); [auto | tauto].
Qed.

Lemma strip_In (x : ascii) (s : str) : In x (strip s) -> In x s.
Proof.
  unfold strip, rstrip. intros H. apply in_rev in H.
  apply lstrip_In in H. apply in_rev in H. now apply lstrip_In.
Qed.

Lemma name_char_lower (c : ascii) :
  is_word c || ascii_eqb c HYPHEN = true -> name_char (lower_char c) = true.
Proof.
  destruct c as [[] [] [] [] [] [] [] []]; intros H; try discriminate H;
    reflexivity.
Qed.

Lemma name_char_fixed (c : ascii) :
  name_char c = true ->
  is_space c = false /\ lower_char c = c
  /\ is_word c || is_space c || ascii_eqb c HYPHEN = true.
Proof.
  destruct c as [[] [] [] [] [] [] [] []]; intros H; try discriminate H;
    repeat split.
Qed.

Lemma underscore_runs_chars (in_run : bool) (s : str) (x : ascii) :
  In x (underscore_runs in_run s) ->
  x = UNDERSCORE \/ (In x s /\ is_space x = false).
Proof.
  revert in_run; induction s as [|c s IH]; intros in_run; simpl; [tauto|].
  destruct (is_space c) eqn:E.
  - destruct in_run; simpl; intros H.
    + apply IH in H. tauto.
    + destruct H as [<- | H]; [auto|]. apply IH in H. tauto.
  - simpl. intros [<- | H]; [auto|]. apply IH in H. tauto.
Qed.

Lemma clean_section_name_chars (name : str) (x : ascii) :
  In x (_clean_section_name name) -> name_char x = true.
Proof.
  unfold _clean_section_name, lower. intros Hx.
  apply in_map_iff in Hx. destruct Hx as (c & <- & Hc).
  apply name_char_lower. apply underscore_runs_chars in Hc.
  destruct Hc as [-> | [Hc Hs]]; [reflexivity|].
  apply strip_In in Hc. unfold drop_special in Hc.
  apply filter_In in Hc. destruct Hc as [_ Hc]. rewrite Hs in Hc.
  now rewrite orb_false_r in Hc.
Qed.

Lemma name_char_plain (x : ascii) :
  name_char x = true ->
  negb (ascii_eqb x BAR) && negb (ascii_eqb x NL) = true.
Proof.
  destruct x as [[] [] [] [] [] [] [] []]; intros H; try discriminate H;
    reflexivity.
Qed.

(** X14.  A cleaned section name holds no whitespace, and no bar or
    newline that would break an exported line. *)
Theorem clean_section_name_no_delimiter (name : str) :
  forallb (fun c => negb (is_space c)) (_clean_section_name name) = true
  /\ plain_field (_clean_section_name name) = true.
Proof.
  split; apply forallb_forall; intros x Hx;
    apply clean_section_name_chars in Hx.
  - now destruct (name_char_fixed x Hx) as (-> & _).
  - now apply name_char_plain.
Qed.

(** * Preprocessing *)

(** ** Text that is kept *)

Lemma starts_with_app (pre s : str) :
  starts_with pre s = true -> s = pre ++ skipn (length pre) s.
Proof.
  revert s; induction pre as [|a pre IH]; intros [|b s]; simpl;
    try discriminate; try reflexivity.
  destruct (ascii_dec a b); [subst | discriminate]. simpl.
  intros H. f_equal. auto.
Qed.

Lemma find_fence_some (s before after : str) :
  find_fence s = Some (before, after) -> s = before ++ fence ++ after.
Proof.
  revert before after; induction s as [|c s IH]; intros b a;
    [discriminate|].
  cbn [find_fence]. destruct (starts_with fence (c :: s)) eqn:Ef.
  - intros H. inversion H; subst. apply starts_with_app in Ef. exact Ef.
  - destruct (find_fence s) as [[b' a']|]; [|discriminate].
    intros H. inversion H; subst. cbn [app]. f_equal. now apply IH.
Qed.

Lemma fenced_block_prefix (s block : str) :
  fenced_block s = Some block ->
  exists body after,
    block = fence ++ body ++ fence /\ s = block ++ after.
Proof.
  unfold fenced_block. destruct (starts_with fence s) eqn:E; [|discriminate].
  apply starts_with_app in E.
  destruct (find_fence (skipn 3 s)) as [[body after]|] eqn:Eb;
    [|discriminate].
  intros H. inversion H; subst. apply find_fence_some in Eb.
  exists body, after. split; [reflexivity|].
  change (length fence) with 3%nat in E. rewrite E at 1. rewrite Eb.
  unfold fence. cbn [app]. now rewrite <- app_assoc.
Qed.

Lemma non_space_fence_block (body : str) :
  non_space (fence ++ body ++ fence) <> [].
Proof. discriminate. Qed.

Lemma non_space_placeholder (n : nat) (t : str) :
  non_space (placeholder n ++ t) <> [].
Proof. discriminate. Qed.

Lemma save_code_blocks_blocks (s : str) :
  forall skip n,
    Forall (fun block => non_space block <> [])
      (snd (save_code_blocks skip n s)).
Proof.
  induction s as [|c s IH]; intros skip n; simpl; [constructor|].
  destruct skip as [|k]; [|apply IH].
  destruct (fenced_block (c :: s)) as [block|] eqn:E.
  - specialize (IH (length block - 1)%nat (S n)).
    destruct (save_code_blocks (length block - 1) (S n) s) as [t bs].
    simpl in *. constructor; [|assumption].
    apply fenced_block_prefix in E. destruct E as (body & after & -> & _).
    apply non_space_fence_block.
  - specialize (IH 0%nat n).
    destruct (save_code_blocks 0 n s) as [t bs]. assumption.
Qed.

Lemma save_code_blocks_not_blank (s : str) (n : nat) :
  non_space s <> [] -> non_space (fst (save_code_blocks 0 n s)) <> [].
Proof.
  induction s as [|c s IH]; simpl; [congruence|].
  destruct (fenced_block (c :: s)) as [block|].
  - destruct (save_code_blocks (length block - 1) (S n) s) as [t bs].
    intros _. apply non_space_placeholder.
  - destruct (save_code_blocks 0 n s) as [t bs] eqn:E. simpl in *.
    destruct (is_space c); simpl; [assumption | discriminate].
Qed.

Lemma find_fence_none (c : ascii) (s : str) :
  find_fence (c :: s) = None ->
  starts_with fence (c :: s) = false /\ find_fence s = None.
Proof.
  cbn [find_fence].
  destruct (starts_with fence (c :: s)); [discriminate|].
  destruct (find_fence s) as [[b a]|]; [discriminate | auto].
Qed.

(** Without a fence nothing is saved. *)
Lemma save_code_blocks_no_fence (s : str) (n : nat) :
  find_fence s = None -> save_code_blocks 0 n s = (s, []).
Proof.
  induction s as [|c s IH]; [reflexivity|]. intros H.
  apply find_fence_none in H. destruct H as [H1 H2].
  cbn [save_code_blocks]. unfold fenced_block. rewrite H1.
  now rewrite (IH H2).
Qed.

Lemma ascii_eqb_CR_space (c : ascii) : ascii_eqb c CR = true -> is_space c = true.
Proof. intros H. apply ascii_eqb_eq in H. now subst. Qed.

Lemma ascii_eqb_NL_space (c : ascii) : ascii_eqb c NL = true -> is_space c = true.
Proof. intros H. apply ascii_eqb_eq in H. now subst. Qed.

Lemma ascii_eqb_SP_space (c : ascii) : ascii_eqb c SP = true -> is_space c = true.
Proof. intros H. apply ascii_eqb_eq in H. now subst. Qed.

Lemma ascii_eqb_TAB_space (c : ascii) : ascii_eqb c TAB = true -> is_space c = true.
Proof. intros H. apply ascii_eqb_eq in H. now subst. Qed.

Lemma non_space_line_endings_aux (n : nat) (s : str) :
  (length s <= n)%nat -> non_space (normalize_line_endings s) = non_space s.
Proof.
  revert s; induction n as [|n IH]; intros s Hs.
  - destruct s; [reflexivity | simpl in Hs; lia].
  - destruct s as [|c [|d s]]; [reflexivity | reflexivity |].
    cbn [normalize_line_endings].
    destruct (ascii_eqb c CR && ascii_eqb d NL) eqn:E.
    + apply andb_prop in E. destruct E as [E1 E2].
      apply ascii_eqb_CR_space in E1. apply ascii_eqb_NL_space in E2.
      simpl non_space. rewrite E1, E2. simpl.
      apply IH. simpl in Hs. lia.
    + simpl non_space. destruct (is_space c); simpl; [|f_equal];
        apply (IH (d :: s)); simpl in *; lia.
Qed.

Lemma non_space_line_endings (s : str) :
  non_space (normalize_line_endings s) = non_space s.
Proof. apply (non_space_line_endings_aux (length s)). lia. Qed.

Lemma non_space_blank_lines (seen : nat) (s : str) :
  non_space (collapse_blank_lines seen s) = non_space s.
Proof.
  revert seen; induction s as [|c s IH]; intros seen; simpl; [reflexivity|].
  destruct (ascii_eqb c NL) eqn:E.
  - apply ascii_eqb_NL_space in E.
    destruct (seen <? 2)%nat; simpl; rewrite E; simpl; apply IH.
  - simpl. destruct (is_space c); simpl; [|f_equal]; apply IH.
Qed.

Lemma non_space_collapse_spaces (in_run : bool) (s : str) :
  non_space (collapse_spaces in_run s) = non_space s.
Proof.
  revert in_run; induction s as [|c s IH]; intros in_run; simpl;
    [reflexivity|].
  destruct (ascii_eqb c SP || ascii_eqb c TAB) eqn:E.
  - assert (Hc : is_space c = true).
    { apply orb_prop in E.
      destruct E; [now apply ascii_eqb_SP_space
                  | now apply ascii_eqb_TAB_space]. }
    rewrite Hc. simpl. destruct in_run; simpl; apply IH.
  - simpl. destruct (is_space c); simpl; [|f_equal]; apply IH.
Qed.

Lemma non_space_trailing_aux (n : nat) (s : str) :
  (length s <= n)%nat -> non_space (drop_trailing_spaces s) = non_space s.
Proof.
  revert s; induction n as [|n IH]; intros s Hs.
  - destruct s; [reflexivity | simpl in Hs; lia].
  - destruct s as [|c [|d s]]; [reflexivity | reflexivity |].
    cbn [drop_trailing_spaces].
    destruct (ascii_eqb c SP && ascii_eqb d NL) eqn:E.
    + apply andb_prop in E. destruct E as [E1 E2].
      apply ascii_eqb_SP_space in E1. apply ascii_eqb_NL_space in E2.
      simpl non_space. rewrite E1, E2. simpl.
      apply IH. simpl in Hs. lia.
    + simpl non_space. destruct (is_space c); simpl; [|f_equal];
        apply (IH (d :: s)); simpl in *; lia.
Qed.

Lemma non_space_trailing (s : str) :
  non_space (drop_trailing_spaces s) = non_space s.
Proof. apply (non_space_trailing_aux (length s)). lia. Qed.

Lemma replace_all_not_blank (old new s : str) :
  non_space new <> [] -> non_space s <> [] ->
  non_space (replace_all old new 0 s) <> [].
Proof.
  intros Hnew. induction s as [|c s IH]; simpl; [congruence|].
  destruct (starts_with old (c :: s)).
  - intros _. rewrite non_space_app. intros E. apply app_eq_nil in E.
    tauto.
  - simpl. destruct (is_space c); simpl; [assumption | discriminate].
Qed.

Lemma restore_from_not_blank (blocks : list str) :
  Forall (fun block => non_space block <> []) blocks ->
  forall g content,
    non_space content <> [] ->
    non_space
      (fold_left
         (fun content entry =>
            replace_all (placeholder (fst entry)) (snd entry) 0 content)
         (enumerate g blocks) content) <> [].
Proof.
  induction 1 as [|b bs Hb Hbs IH]; intros g content Hc; simpl;
    [assumption|].
  apply IH. now apply replace_all_not_blank.
Qed.

Lemma restore_not_blank (blocks : list str) (content : str) :
  Forall (fun block => non_space block <> []) blocks ->
  non_space content <> [] ->
  non_space (restore_code_blocks content blocks) <> [].
Proof. intros Hb Hc. now apply restore_from_not_blank. Qed.

(** A replacement puts the replacement text where the acronym was. *)
Lemma sub_first_word_shape (acronym replacement : str) (s : str) :
  forall prev r,
    sub_first_word acronym replacement prev s = Some r ->
    exists pre post,
      s = pre ++ acronym ++ post /\ r = pre ++ replacement ++ post.
Proof.
  induction s as [|c s IH]; intros prev r; simpl.
  - destruct (matches_word acronym prev []) eqn:E; [|discriminate].
    intros H. inversion H; subst. unfold matches_word in E.
    apply andb_prop in E. destruct E as [E _].
    apply andb_prop in E. destruct E as [_ E].
    destruct acronym; [|discriminate].
    exists [], []. simpl. now rewrite app_nil_r.
  - destruct (matches_word acronym prev (c :: s)) eqn:E.
    + intros H. inversion H; subst. unfold matches_word in E.
      apply andb_prop in E. destruct E as [E _].
      apply andb_prop in E. destruct E as [_ E].
      apply starts_with_app in E. exists [], (skipn (length acronym) (c :: s)).
      simpl. split; [exact E | reflexivity].
    + destruct (sub_first_word acronym replacement (Some c) s) as [r'|] eqn:Er;
        [|discriminate].
      intros H. inversion H; subst.
      destruct (IH _ _ Er) as (pre & post & -> & ->).
      exists (c :: pre), post. split; reflexivity.
Qed.

Lemma acronym_with_definition_not_blank (acronym definition : str) :
  non_space (acronym_with_definition acronym definition) <> [].
Proof.
  unfold acronym_with_definition. rewrite non_space_app. intros E.
  apply app_eq_nil in E. destruct E as [_ E]. discriminate E.
Qed.

Lemma define_acronym_not_blank (st : str * list str) (entry : str * str) :
  non_space (fst st) <> [] ->
  non_space (fst (define_acronym st entry)) <> [].
Proof.
  destruct st as [content defined], entry as [acronym definition].
  simpl. intros H.
  destruct (sub_first_word acronym
              (acronym_with_definition acronym definition) None content)
    as [r|] eqn:E; [|assumption].
  destruct (negb (existsb (str_eqb acronym) defined)); [|assumption].
  simpl. apply sub_first_word_shape in E.
  destruct E as (pre & post & _ & ->).
  rewrite !non_space_app. intros E.
  apply app_eq_nil in E. destruct E as [_ E].
  apply app_eq_nil in E. destruct E as [E _].
  now apply acronym_with_definition_not_blank in E.
Qed.

Lemma add_acronyms_not_blank (acronyms : list (str * str)) (content : str) :
  non_space content <> [] ->
  non_space (_add_acronym_definitions acronyms content) <> [].
Proof.
  unfold _add_acronym_definitions.
  change content with (fst (content, @nil str)) at 1.
  generalize (content, @nil str).
  induction acronyms as [|e es IH]; intros st H; simpl; [assumption|].
  apply IH. now apply define_acronym_not_blank.
Qed.

Lemma preprocess_not_blank (acronyms : list (str * str)) (content : str) :
  non_space content <> [] ->
  non_space (_preprocess_content acronyms content) <> [].
Proof.
  intros H. unfold _preprocess_content.
  pose proof (save_code_blocks_not_blank content 0 H) as Ht.
  pose proof (save_code_blocks_blocks content 0 0) as Hb.
  destruct (save_code_blocks 0 0 content) as [text blocks]. simpl in *.
  rewrite non_space_strip. apply add_acronyms_not_blank.
  apply restore_not_blank; [assumption|].
  now rewrite non_space_trailing, non_space_collapse_spaces,
    non_space_blank_lines, non_space_line_endings.
Qed.

(** X16.  With a table of acronyms whose entries hold no backslash (that
    of the source is one), the preprocessing of a text that is not blank
    gives a text that is trimmed and not empty: no document is emptied by
    it. *)
Theorem preprocess_trimmed_not_blank (acronyms : list (str * str))
    (content : str) :
  forallb literal_entry acronyms = true ->
  truthy (strip content) = true ->
  strip (_preprocess_content acronyms content)
  = _preprocess_content acronyms content
  /\ truthy (_preprocess_content acronyms content) = true.
Proof.
  intros _ H. split.
  - unfold _preprocess_content.
    destruct (save_code_blocks 0 0 content) as [text blocks].
    apply strip_idempotent.
  - apply truthy_strip_true in H.
    apply (preprocess_not_blank acronyms) in H.
    destruct (_preprocess_content acronyms content);
      [exfalso; apply H; reflexivity | reflexivity].
Qed.

Lemma preprocess_trimmed_not_blank_witness :
  strip (_preprocess_content domain_acronyms
           (lit " The  UE attaches. " ++ [NL]))
  = _preprocess_content domain_acronyms (lit " The  UE attaches. " ++ [NL])
  /\ truthy (_preprocess_content domain_acronyms
               (lit " The  UE attaches. " ++ [NL])) = true.
Proof.
  apply (preprocess_trimmed_not_blank domain_acronyms
           (lit " The  UE attaches. " ++ [NL])); reflexivity.
Defined.

(** ** Tidy whitespace *)

Lemma tidy_after_app (prev : ascii) (a b : str) :
  tidy_after prev (a ++ b) = tidy_after prev a && tidy_after (last a prev) b.
Proof.
  revert prev; induction a as [|c a IH]; intros prev; [reflexivity|].
  cbn [app tidy_after]. rewrite IH, last_cons, !andb_assoc. reflexivity.
Qed.

(** Only whether the character before is a space matters. *)
Lemma tidy_after_mono (x y : ascii) (s : str) :
  ascii_eqb y SP = false -> tidy_after x s = true -> tidy_after y s = true.
Proof.
  destruct s as [|c s]; [reflexivity|]. cbn [tidy_after]. intros Hy H.
  rewrite Hy. apply andb_prop in H. destruct H as [H Hs].
  apply andb_prop in H. destruct H as [Hc _].
  now rewrite Hc, Hs.
Qed.

Lemma collapse_spaces_spaced (s : str) :
  forall (prev : ascii) (in_run : bool),
    ascii_eqb prev SP = in_run ->
    spaced_after prev (collapse_spaces in_run s) = true.
Proof.
  induction s as [|c s IH]; intros prev in_run H; [reflexivity|].
  cbn [collapse_spaces].
  destruct (ascii_eqb c SP || ascii_eqb c TAB) eqn:E.
  - destruct in_run.
    + now apply IH.
    + cbn [spaced_after]. rewrite H. simpl. now apply IH.
  - apply orb_false_elim in E. destruct E as [E1 E2].
    cbn [spaced_after]. rewrite E1, E2, andb_false_r. simpl.
    now apply (IH c false).
Qed.

Lemma drop_trailing_tidy_aux (n : nat) :
  forall s prev,
    (length s <= n)%nat ->
    spaced_after prev s = true ->
    (ascii_eqb prev SP = true -> hd_error s <> Some NL) ->
    tidy_after prev (drop_trailing_spaces s) = true.
Proof.
  induction n as [|n IH]; intros s prev Hn Hs Hprev.
  - destruct s; [reflexivity | simpl in Hn; lia].
  - destruct s as [|c [|d s]]; [reflexivity | |].
    + cbn [drop_trailing_spaces tidy_after spaced_after] in *.
      apply andb_prop in Hs. destruct Hs as [Hs _].
      apply andb_prop in Hs. destruct Hs as [Ht Hp].
      rewrite Ht. simpl. rewrite andb_true_r.
      destruct (ascii_eqb prev SP) eqn:Ep; [|reflexivity].
      simpl in *. apply negb_true_iff in Hp. rewrite Hp. simpl.
      destruct (ascii_eqb c NL) eqn:Ec; [|reflexivity].
      apply ascii_eqb_eq in Ec. subst c. now destruct (Hprev eq_refl).
    + cbn [drop_trailing_spaces].
      change (spaced_after prev (c :: d :: s))
        with (negb (ascii_eqb c TAB)
              && negb (ascii_eqb prev SP && ascii_eqb c SP)
              && spaced_after c (d :: s)) in Hs.
      apply andb_prop in Hs. destruct Hs as [Hs Hrest].
      apply andb_prop in Hs. destruct Hs as [Ht Hp].
      destruct (ascii_eqb c SP && ascii_eqb d NL) eqn:E.
      * apply andb_prop in E. destruct E as [E1 E2].
        rewrite E1, andb_true_r in Hp. apply negb_true_iff in Hp.
        apply ascii_eqb_eq in E2. subst d.
        cbn [tidy_after]. rewrite Hp. simpl.
        apply (IH s NL); [simpl in Hn; lia | | discriminate].
        cbn [spaced_after] in Hrest. apply andb_prop in Hrest. tauto.
      * cbn [tidy_after]. rewrite Ht. simpl.
        assert (Hpair : negb (ascii_eqb prev SP
                              && (ascii_eqb c SP || ascii_eqb c NL)) = true).
        { destruct (ascii_eqb prev SP) eqn:Ep; [|reflexivity].
          simpl in *. apply negb_true_iff in Hp. rewrite Hp. simpl.
          destruct (ascii_eqb c NL) eqn:Ec; [|reflexivity].
          apply ascii_eqb_eq in Ec. subst c. now destruct (Hprev eq_refl). }
        rewrite Hpair. simpl.
        apply (IH (d :: s) c); [simpl in *; lia | assumption |].
        intros Ec Hd. rewrite Ec in E. simpl in E.
        inversion Hd; subst. discriminate.
Qed.

Lemma drop_trailing_tidy (s : str) :
  spaced_after NL s = true -> tidy (drop_trailing_spaces s) = true.
Proof.
  intros H. apply (drop_trailing_tidy_aux (length s)); auto. discriminate.
Qed.

Lemma tidy_after_prefix (prev : ascii) (a b : str) :
  tidy_after prev (a ++ b) = true -> tidy_after prev a = true.
Proof. rewrite tidy_after_app. intros H. apply andb_prop in H. tauto. Qed.

Lemma tidy_suffix (a b : str) : tidy (a ++ b) = true -> tidy b = true.
Proof.
  unfold tidy. rewrite tidy_after_app. intros H. apply andb_prop in H.
  destruct H as [_ H]. now apply (tidy_after_mono (last a NL)).
Qed.

Lemma lstrip_suffix (s : str) : exists a, s = a ++ lstrip s.
Proof.
  induction s as [|c s [a IH]]; [now exists []|]. simpl.
  destruct (is_space c); [|now exists []].
  exists (c :: a). simpl. now rewrite <- IH.
Qed.

Lemma strip_tidy (s : str) : tidy s = true -> tidy (strip s) = true.
Proof.
  intros H. unfold strip, rstrip.
  destruct (lstrip_suffix s) as [a Ea].
  destruct (lstrip_suffix (rev (lstrip s))) as [b Eb].
  rewrite Ea in H. apply tidy_suffix in H.
  apply (f_equal (@rev ascii)) in Eb. rewrite rev_involutive in Eb.
  rewrite rev_app_distr in Eb. rewrite Eb in H.
  now apply tidy_after_prefix in H.
Qed.

(** Putting the definition after an acronym keeps a tidy text tidy. *)
Lemma define_acronym_tidy (st : str * list str) (entry : str * str) :
  tidy_entry entry = true ->
  tidy (fst st) = true -> tidy (fst (define_acronym st entry)) = true.
Proof.
  destruct st as [content defined], entry as [acronym definition].
  unfold tidy_entry. cbn [fst snd define_acronym]. intros He H.
  apply andb_prop in He. destruct He as [He Htail].
  apply andb_prop in He. destruct He as [Hne Hlast].
  apply negb_true_iff in Hlast.
  destruct (sub_first_word acronym
              (acronym_with_definition acronym definition) None content)
    as [r|] eqn:E; [|assumption].
  destruct (negb (existsb (str_eqb acronym) defined)); [|assumption].
  cbn [fst]. apply sub_first_word_shape in E.
  destruct E as (pre & post & -> & ->).
  unfold tidy in *. unfold acronym_with_definition.
  set (tail := lit " (" ++ definition ++ lit ")") in *.
  rewrite (tidy_after_app NL pre (acronym ++ post)) in H.
  rewrite (tidy_after_app (last pre NL) acronym post) in H.
  apply andb_prop in H. destruct H as [Hpre H].
  apply andb_prop in H. destruct H as [Hacr Hpost].
  assert (Hl : last acronym (last pre NL) = last acronym NL).
  { destruct acronym as [|a l]; [discriminate|]. now rewrite !last_cons. }
  rewrite Hl in Hpost.
  rewrite (tidy_after_app NL pre ((acronym ++ tail) ++ post)).
  rewrite (tidy_after_app (last pre NL) (acronym ++ tail) post).
  rewrite (tidy_after_app (last pre NL) acronym tail).
  rewrite Hpre, Hacr, Hl, Htail. cbn [andb].
  apply (tidy_after_mono (last acronym NL)); [|assumption].
  assert (Hq : last (acronym ++ tail) (last pre NL) = ascii_of_nat 41).
  { unfold tail. rewrite !app_assoc. apply last_last. }
  rewrite Hq. reflexivity.
Qed.

Lemma add_acronyms_tidy (acronyms : list (str * str)) (content : str) :
  forallb tidy_entry acronyms = true ->
  tidy content = true ->
  tidy (_add_acronym_definitions acronyms content) = true.
Proof.
  unfold _add_acronym_definitions.
  change content with (fst (content, @nil str)) at 1.
  generalize (content, @nil str).
  induction acronyms as [|e es IH]; intros st Ha H; simpl; [assumption|].
  simpl in Ha. apply andb_prop in Ha. destruct Ha as [He Hes].
  apply IH; [assumption|]. now apply define_acronym_tidy.
Qed.

(** X17.  For a text without a code fence, and a table of acronyms whose
    entries hold no backslash and are tidy themselves (those of the source
    are both), the preprocessed text holds no tab, no two spaces in a row
    and no space before a newline. *)
Theorem preprocess_tidy (acronyms : list (str * str)) (content : str) :
  find_fence content = None ->
  forallb literal_entry acronyms = true ->
  forallb tidy_entry acronyms = true ->
  tidy (_preprocess_content acronyms content) = true.
Proof.
  intros Hf _ Ha. unfold _preprocess_content.
  rewrite (save_code_blocks_no_fence content 0 Hf).
  unfold restore_code_blocks. simpl fold_left.
  apply strip_tidy, add_acronyms_tidy; [assumption|].
  apply drop_trailing_tidy. now apply collapse_spaces_spaced.
Qed.

Lemma preprocess_tidy_witness :
  tidy (_preprocess_content domain_acronyms
          (lit "The   UE" ++ [TAB; SP; NL; NL; NL] ++ lit " attaches. "))
  = true.
Proof.
  apply (preprocess_tidy domain_acronyms
           (lit "The   UE" ++ [TAB; SP; NL; NL; NL] ++ lit " attaches. "));
    reflexivity.
Defined.


(** * Loading *)

Lemma dict_set_keys (d : list (str * str)) (k v : str) :
  map fst (dict_set d k v)
  = if existsb (fun k' => str_eqb k' k) (map fst d) then map fst d
    else map fst d ++ [k].
Proof.
  induction d as [|[k' v'] d IH]; simpl; [reflexivity|].
  destruct (str_eqb k' k) eqn:E; simpl; [reflexivity|].
  rewrite IH. now destruct (existsb _ (map fst d)).
Qed.

Lemma dict_set_NoDup (d : list (str * str)) (k v : str) :
  NoDup (map fst d) -> NoDup (map fst (dict_set d k v)).
Proof.
  intros H. rewrite dict_set_keys.
  destruct (existsb (fun k' => str_eqb k' k) (map fst d)) eqn:E;
    [assumption|].
  apply NoDup_app; [assumption | repeat constructor; simpl; tauto |].
  intros x Hx [E1 | []]. subst x.
  assert (E' : existsb (fun k' => str_eqb k' k) (map fst d) = true).
  { apply existsb_exists. exists k. split; [assumption|].
    now apply str_eqb_eq. }
  congruence.
Qed.

Lemma dict_set_In (d : list (str * str)) (k v : str) (doc : str * str) :
  In doc (dict_set d k v) -> In doc d \/ doc = (k, v).
Proof.
  induction d as [|[k' v'] d IH]; simpl.
  - intros [<- | []]. now right.
  - destruct (str_eqb k' k) eqn:E; simpl.
    + apply str_eqb_eq in E. subst k'. intros [<- | H]; tauto.
    + intros [<- | H]; [tauto|]. destruct (IH H); tauto.
Qed.

Lemma dict_set_not_nil (d : list (str * str)) (k v : str) :
  dict_set d k v <> [].
Proof.
  destruct d as [|[k' v'] d]; simpl; [discriminate|].
  destruct (str_eqb k' k); discriminate.
Qed.

Lemma load_file_NoDup (config : Config) (acronyms : list (str * str))
    (sections : list (str * str)) (file : str * option str) :
  NoDup (map fst sections) ->
  NoDup (map fst (load_file config acronyms sections file)).
Proof.
  intros H. destruct file as [stem [text|]]; simpl; [|assumption].
  destruct (len (strip text) <? min_chunk_size config); [assumption|].
  now apply dict_set_NoDup.
Qed.

Lemma load_file_In (config : Config) (acronyms : list (str * str))
    (sections : list (str * str)) (file : str * option str)
    (doc : str * str) :
  In doc (load_file config acronyms sections file) ->
  In doc sections \/ loaded_from config acronyms [file] doc.
Proof.
  destruct file as [stem [text|]]; simpl; [|tauto].
  destruct (Z.ltb_spec (len (strip text)) (min_chunk_size config));
    [tauto|].
  intros Hd. apply dict_set_In in Hd. destruct Hd as [Hd | ->]; [tauto|].
  right. exists stem, text. simpl. tauto.
Qed.

Lemma loaded_from_incl (config : Config) (acronyms : list (str * str))
    (l1 l2 : list (str * option str)) (doc : str * str) :
  incl l1 l2 ->
  loaded_from config acronyms l1 doc -> loaded_from config acronyms l2 doc.
Proof.
  intros Hi (stem & text & Hin & H). exists stem, text. split; auto.
Qed.

(** The invariant of the loop of [load_sections]. *)
Lemma load_loop_spec (config : Config) (acronyms : list (str * str))
    (txt_files : list (str * option str)) (sections : list (str * str)) :
  NoDup (map fst sections) ->
  let loaded := fold_left (load_file config acronyms) txt_files sections in
  NoDup (map fst loaded)
  /\ (forall doc, In doc loaded ->
        In doc sections \/ loaded_from config acronyms txt_files doc)
  /\ (loaded = [] <->
      sections = [] /\ existsb (kept config) txt_files = false).
Proof.
  revert sections.
  induction txt_files as [|file files IH]; intros sections Hnd; simpl.
  - repeat split; tauto.
  - destruct (IH (load_file config acronyms sections file)
                (load_file_NoDup config acronyms sections file Hnd))
      as (H1 & H2 & H3).
    split; [exact H1|]. split.
    + intros doc Hd. destruct (H2 doc Hd) as [Hs | Hl].
      * apply load_file_In in Hs. destruct Hs as [Hs | Hs]; [tauto|].
        right. revert Hs. apply loaded_from_incl.
        intros x [<- | []]. now left.
      * right. revert Hl. apply loaded_from_incl.
        intros x Hx. now right.
    + rewrite H3. clear H1 H2 H3 IH.
      destruct file as [stem [text|]]; unfold kept at 2; simpl;
        [|tauto].
      destruct (len (strip text) <? min_chunk_size config); simpl;
        [tauto|].
      split; [intros [E _]; now apply dict_set_not_nil in E|].
      intros [_ E]. discriminate.
Qed.

Lemma preprocess_trimmed (acronyms : list (str * str)) (content : str) :
  strip (_preprocess_content acronyms content)
  = _preprocess_content acronyms content.
Proof.
  unfold _preprocess_content.
  destruct (save_code_blocks 0 0 content) as [text blocks].
  apply strip_idempotent.
Qed.

Lemma loaded_from_sound (config : Config) (acronyms : list (str * str))
    (txt_files : list (str * option str)) (doc : str * str) :
  0 < min_chunk_size config ->
  loaded_from config acronyms txt_files doc ->
  forallb name_char (fst doc) = true
  /\ strip (snd doc) = snd doc /\ truthy (snd doc) = true.
Proof.
  intros Hmin (stem & text & _ & Hname & Hlen & Hcontent).
  rewrite Hname, Hcontent. split; [|split].
  - apply forallb_forall. intros x. apply clean_section_name_chars.
  - apply preprocess_trimmed.
  - assert (Hn : non_space (strip text) <> []).
    { apply truthy_strip_true. rewrite strip_idempotent.
      destruct (strip text); [unfold len in Hlen; simpl in Hlen; lia | reflexivity]. }
    apply (preprocess_not_blank acronyms) in Hn.
    destruct (_preprocess_content acronyms (strip text));
      [now elim Hn | reflexivity].
Qed.

(** X18.  With a table of acronyms whose entries hold no backslash (that
    of the source is one), on a fresh chunker [load_sections] stores
    sections with distinct names; each is the cleaned stem of a file that
    was read and whose trimmed text has at least [min_chunk_size]
    characters, with that text preprocessed; the name holds no whitespace,
    bar or newline, and the content is trimmed and not empty. *)
Theorem loaded_sections_sound (config : Config)
    (acronyms : list (str * str)) (txt_files : list (str * option str)) :
  0 < min_chunk_size config ->
  forallb literal_entry acronyms = true ->
  let sections := fst (load_sections config acronyms [] txt_files) in
  NoDup (map fst sections)
  /\ forall doc, In doc sections ->
       loaded_from config acronyms txt_files doc
       /\ forallb (fun c => negb (is_space c)) (fst doc) = true
       /\ plain_field (fst doc) = true
       /\ strip (snd doc) = snd doc /\ truthy (snd doc) = true.
Proof.
  intros Hmin _. unfold load_sections.
  destruct txt_files as [|file files];
    [simpl; split; [constructor | intros doc []]|].
  cbn [fst].
  destruct (load_loop_spec config acronyms (file :: files) []
              (NoDup_nil _)) as (H1 & H2 & _).
  split; [exact H1|]. intros doc Hd.
  destruct (H2 doc Hd) as [[] | Hl].
  split; [assumption|].
  destruct (loaded_from_sound config acronyms (file :: files) doc Hmin Hl)
    as (Hn & Hs & Ht).
  rewrite forallb_forall in Hn.
  split; [|split; [|split; assumption]].
  - apply forallb_forall. intros x Hx.
    now destruct (name_char_fixed x (Hn x Hx)) as (-> & _).
  - unfold plain_field. apply forallb_forall. intros x Hx.
    apply name_char_plain. auto.
Qed.

Lemma loaded_sections_sound_witness :
  let sections :=
    fst (load_sections tiny_config domain_acronyms [] three_files) in
  NoDup (map fst sections)
  /\ forall doc, In doc sections ->
       loaded_from tiny_config domain_acronyms three_files doc
       /\ forallb (fun c => negb (is_space c)) (fst doc) = true
       /\ plain_field (fst doc) = true
       /\ strip (snd doc) = snd doc /\ truthy (snd doc) = true.
Proof.
  apply (loaded_sections_sound tiny_config domain_acronyms three_files);
    reflexivity.
Defined.

(** X19.  On a fresh chunker [load_sections] returns [True] exactly when
    some file was read and is long enough, and [False] otherwise; with a
    child size of zero the summary of a successful load raises. *)
Theorem load_sections_result (config : Config)
    (acronyms : list (str * str)) (txt_files : list (str * option str)) :
  snd (load_sections config acronyms [] txt_files)
  = if existsb (kept config) txt_files
    then if child_chunk_size config =? 0 then Raise ZeroDivisionError
         else Ok true
    else Ok false.
Proof.
  unfold load_sections.
  destruct txt_files as [|file files]; [reflexivity|].
  cbn [snd].
  destruct (load_loop_spec config acronyms (file :: files) []
              (NoDup_nil _)) as (_ & _ & H3).
  cbv zeta in H3.
  destruct (fold_left (load_file config acronyms) (file :: files) [])
    as [|doc docs].
  - destruct H3 as [H3 _]. destruct (H3 eq_refl) as [_ ->]. reflexivity.
  - destruct (existsb (kept config) (file :: files)).
    + unfold int_floordiv.
      destruct (child_chunk_size config =? 0); [reflexivity|].
      simpl. unfold len_list. simpl length.
      now destruct (Z.ltb_spec 0 (Z.of_nat (S (length docs)))); [|lia].
    + destruct H3 as [_ H3]. discriminate (H3 (conj eq_refl eq_refl)).
Qed.

(** * Short documents *)

(** A document that fits the child size, itself at most the parent size,
    gives one parent and one child, both with the text of the document. *)
Lemma short_document_family (digest8 : str -> str) (config : Config)
    (name text : str) :
  len text <= child_chunk_size config ->
  child_chunk_size config <= parent_chunk_size config ->
  section_families digest8 config name text
  = let p := parent_record digest8 name 1 text in
    let c := child_record digest8 name p 0 1 text text in
    [(set_children p [chunk_id c] 1, [c])].
Proof.
  intros H1 H2. unfold section_families, _create_parent_chunks.
  destruct (Z.leb_spec (len text) (parent_chunk_size config)); [|lia].
  cbn [enumerate map]. unfold link_children, _create_child_chunks.
  cbn [content parent_record].
  destruct (Z.leb_spec (len text) (child_chunk_size config)); [|lia].
  reflexivity.
Qed.

Lemma short_sections_tokens (digest8 : str -> str) (config : Config)
    (sections : list (str * str)) :
  3 <= child_chunk_size config ->
  child_chunk_size config <= parent_chunk_size config ->
  (forall doc, In doc sections -> len (snd doc) <= 3) ->
  sum_tokens
    (of_level child (all_chunks (build_hierarchy digest8 config sections)))
  = 0.
Proof.
  intros H1 H2 Hdocs. rewrite all_chunks_build.
  unfold sum_tokens, of_level. rewrite filter_number_from by reflexivity.
  fold (of_level child (unnumbered_chunks digest8 config sections)).
  rewrite filter_children_raw. unfold all_families.
  induction sections as [|doc rest IH]; [reflexivity|].
  cbn [flat_map].
  rewrite (short_document_family digest8 config (fst doc) (snd doc)).
  - cbn -[Z.div]. rewrite IH by (intros d Hd; apply Hdocs; now right).
    assert (Hl : len (snd doc) <= 3) by (apply Hdocs; now left).
    pose proof (len_nonneg (snd doc)).
    rewrite Z.div_small by lia. reflexivity.
  - specialize (Hdocs doc (or_introl eq_refl)). lia.
  - assumption.
Qed.

(** X20.  When every document has at most three characters, and the child
    size is at least three and at most the parent size, each document
    gives one parent and one child, both with the text of the document,
    and [create_hierarchical_chunks] raises [ZeroDivisionError]. *)
Theorem short_sections_raise (digest8 : str -> str) (config : Config)
    (model_context_window : Z) (sections : list (str * str)) :
  3 <= child_chunk_size config ->
  child_chunk_size config <= parent_chunk_size config ->
  (forall doc, In doc sections -> len (snd doc) <= 3) ->
  map (fun c => (level c, content c))
      (all_chunks (build_hierarchy digest8 config sections))
  = flat_map (fun doc => [(parent, snd doc); (child, snd doc)]) sections
  /\ snd (create_hierarchical_chunks digest8 config model_context_window
            sections)
     = Raise ZeroDivisionError.
Proof.
  intros H1 H2 Hdocs. split.
  - rewrite all_chunks_build. unfold number_from. rewrite map_map.
    cbn [set_global_id level content].
    rewrite <- (map_map snd (fun c => (level c, content c))), enumerate_snd.
    unfold unnumbered_chunks.
    induction sections as [|doc rest IH]; [reflexivity|].
    cbn [flat_map]. rewrite map_app, IH by (intros d Hd; apply Hdocs; now right).
    unfold section_chunks.
    rewrite (short_document_family digest8 config (fst doc) (snd doc));
      [reflexivity | | assumption].
    specialize (Hdocs doc (or_introl eq_refl)). lia.
  - cbn [create_hierarchical_chunks snd].
    unfold _calculate_optimization_metrics, floordiv.
    now rewrite (avg_child_tokens_zero _
                   (short_sections_tokens digest8 config sections H1 H2 Hdocs)).
Qed.

Lemma short_sections_raise_witness :
  map (fun c => (level c, content c))
      (all_chunks (build_hierarchy sample_digest default_config
                     [(lit "note", lit "a b")]))
  = flat_map (fun doc => [(parent, snd doc); (child, snd doc)])
      [(lit "note", lit "a b")]
  /\ snd (create_hierarchical_chunks sample_digest default_config 4096
            [(lit "note", lit "a b")])
     = Raise ZeroDivisionError.
Proof.
  apply (short_sections_raise sample_digest default_config 4096
           [(lit "note", lit "a b")]).
  - simpl. lia.
  - simpl. lia.
  - intros doc [<- | []]. vm_compute. discriminate.
Defined.

(** * Padding *)

Lemma forallb_repeat {A : Type} (P : A -> bool) (x : A) (n : nat) :
  P x = true -> forallb P (repeat x n) = true.
Proof. intros H. induction n; simpl; [reflexivity | now rewrite H]. Qed.

Lemma find_fence_absent (s : str) :
  forallb (fun c => negb (ascii_eqb c BACKTICK)) s = true ->
  find_fence s = None.
Proof.
  induction s as [|c s IH]; [reflexivity|]. intros H.
  cbn [forallb] in H. apply andb_prop in H. destruct H as [Hc Hs].
  cbn [find_fence]. rewrite (IH Hs).
  assert (E : starts_with fence (c :: s) = false).
  { unfold fence. cbn [starts_with].
    apply negb_true_iff in Hc. unfold ascii_eqb in Hc.
    destruct (ascii_dec c BACKTICK) as [|Hn]; [discriminate|].
    destruct (ascii_dec BACKTICK c) as [E0|];
      [elim Hn; now symmetry | reflexivity]. }
  now rewrite E.
Qed.

Lemma normalize_line_endings_absent (s : str) :
  forallb (fun c => negb (ascii_eqb c CR)) s = true ->
  normalize_line_endings s = s.
Proof.
  induction s as [|c s IH]; [reflexivity|]. intros H.
  cbn [forallb] in H. apply andb_prop in H. destruct H as [Hc Hs].
  apply negb_true_iff in Hc. cbn [normalize_line_endings].
  destruct s as [|d s2]; [reflexivity|].
  rewrite Hc. cbn [andb]. now rewrite (IH Hs).
Qed.

Lemma collapse_blank_lines_absent (s : str) (seen : nat) :
  forallb (fun c => negb (ascii_eqb c NL)) s = true ->
  collapse_blank_lines seen s = s.
Proof.
  revert seen. induction s as [|c s IH]; intros seen H; [reflexivity|].
  cbn [forallb] in H. apply andb_prop in H. destruct H as [Hc Hs].
  apply negb_true_iff in Hc. cbn [collapse_blank_lines].
  now rewrite Hc, (IH _ Hs).
Qed.

Lemma collapse_spaces_run (n : nat) (rest : str) :
  collapse_spaces true (repeat SP n ++ rest) = collapse_spaces true rest.
Proof. induction n; [reflexivity | exact IHn]. Qed.

Lemma padded_plain (P : ascii -> bool) (n : nat) :
  P "a"%char = true -> P SP = true -> P "b"%char = true ->
  forallb P (padded n) = true.
Proof.
  intros Ha Hs Hb. unfold padded. rewrite !forallb_app.
  rewrite (forallb_repeat P SP n Hs). simpl. now rewrite Ha, Hb.
Qed.

Lemma strip_padded (n : nat) : strip (padded n) = padded n.
Proof.
  unfold strip, rstrip, padded.
  change (lstrip (lit "a" ++ repeat SP n ++ lit "b"))
    with (lit "a" ++ repeat SP n ++ lit "b").
  rewrite app_assoc. change (lit "b") with ["b"%char].
  rewrite rev_unit.
  change (lstrip ("b"%char :: rev (lit "a" ++ repeat SP n)))
    with ("b"%char :: rev (lit "a" ++ repeat SP n)).
  cbn [rev]. now rewrite rev_involutive.
Qed.

Lemma len_padded (n : nat) : len (padded n) = Z.of_nat n + 2.
Proof.
  unfold padded. rewrite !len_app. unfold len at 2.
  rewrite repeat_length. change (len (lit "a")) with 1.
  change (len (lit "b")) with 1. lia.
Qed.

(** The spaces between the two letters collapse to one. *)
Lemma preprocess_padded (n : nat) :
  (1 <= n)%nat ->
  _preprocess_content domain_acronyms (padded n) = lit "a b".
Proof.
  intros Hn. unfold _preprocess_content.
  rewrite save_code_blocks_no_fence
    by (apply find_fence_absent; now apply padded_plain).
  rewrite normalize_line_endings_absent by now apply padded_plain.
  rewrite collapse_blank_lines_absent by now apply padded_plain.
  assert (E : collapse_spaces false (padded n) = lit "a b").
  { unfold padded. destruct n as [|n]; [lia|].
    change (collapse_spaces false (lit "a" ++ repeat SP (S n) ++ lit "b"))
      with ("a"%char :: SP
              :: collapse_spaces true (repeat SP n ++ lit "b")).
    now rewrite collapse_spaces_run. }
  rewrite E. reflexivity.
Qed.

(** X21.  The length test of [load_sections] is made before the spaces
    are collapsed: a file of two letters with [n] spaces between them
    passes it as soon as [n + 2] reaches [min_chunk_size], is stored with
    three characters, and [create_hierarchical_chunks] then raises
    [ZeroDivisionError] on it. *)
Theorem padded_file_raises (digest8 : str -> str) (config : Config)
    (model_context_window : Z) (stem : str) (n : nat) :
  (1 <= n)%nat ->
  min_chunk_size config <= Z.of_nat n + 2 ->
  3 <= child_chunk_size config ->
  child_chunk_size config <= parent_chunk_size config ->
  let loaded :=
    load_sections config domain_acronyms [] [(stem, Some (padded n))] in
  loaded = ([(_clean_section_name stem, lit "a b")], Ok true)
  /\ snd (create_hierarchical_chunks digest8 config model_context_window
            (fst loaded))
     = Raise ZeroDivisionError.
Proof.
  intros Hn Hmin H1 H2.
  assert (E : load_sections config domain_acronyms []
                [(stem, Some (padded n))]
              = ([(_clean_section_name stem, lit "a b")], Ok true)).
  { unfold load_sections. cbn [fold_left load_file].
    rewrite strip_padded, len_padded.
    destruct (Z.ltb_spec (Z.of_nat n + 2) (min_chunk_size config)); [lia|].
    cbn [dict_set]. rewrite (preprocess_padded n Hn).
    unfold int_floordiv.
    destruct (Z.eqb_spec (child_chunk_size config) 0); [lia|].
    reflexivity. }
  cbv zeta. rewrite E. split; [reflexivity|].
  cbn [fst create_hierarchical_chunks snd].
  unfold _calculate_optimization_metrics, floordiv.
  rewrite (avg_child_tokens_zero _
             (short_sections_tokens digest8 config
                [(_clean_section_name stem, lit "a b")] H1 H2
                ltac:(intros doc [<- | []]; vm_compute; discriminate))).
  reflexivity.
Qed.

Lemma padded_file_raises_witness :
  let loaded :=
    load_sections default_config domain_acronyms []
      [(lit "Release Notes", Some (padded 98))] in
  loaded = ([(_clean_section_name (lit "Release Notes"), lit "a b")],
            Ok true)
  /\ snd (create_hierarchical_chunks sample_digest default_config 4096
            (fst loaded))
     = Raise ZeroDivisionError.
Proof.
  apply (padded_file_raises sample_digest default_config 4096
           (lit "Release Notes") 98).
  - lia.
  - simpl. lia.
  - simpl. lia.
  - simpl. lia.
Defined.

(** * From the files to the export *)

Section Pipeline.

Variable digest8 : str -> str.
Variable config : Config.

Lemma parent_id_plain (name : str) (i : nat) :
  plain_field name = true ->
  plain_field (name ++ lit "_P" ++ str_of_nat i) = true.
Proof.
  intros H. rewrite !plain_field_app, H.
  now rewrite (digits_plain _ (str_of_nat_digits i)).
Qed.

(** With plain section names and fingerprints every chunk is plain. *)
Lemma run_chunks_plain (sections : list (str * str)) :
  (forall t, plain_field (digest8 t) = true) ->
  (forall doc, In doc sections -> plain_field (fst doc) = true) ->
  forallb plain_chunk (all_chunks (build_hierarchy digest8 config sections))
  = true.
Proof.
  intros Hd Hnames. apply forallb_forall. intros c Hc.
  rewrite all_chunks_build in Hc. apply number_from_In in Hc.
  destruct Hc as (i & c0 & -> & Hc0 & _).
  unfold unnumbered_chunks in Hc0. apply in_flat_map in Hc0.
  destruct Hc0 as (doc & Hdoc & Hc0). specialize (Hnames doc Hdoc).
  unfold section_chunks in Hc0. apply in_app_or in Hc0.
  destruct Hc0 as [Hc0 | Hc0].
  - apply in_map_iff in Hc0. destruct Hc0 as (fam & <- & Hfam).
    destruct (families_shape digest8 config (fst doc) (snd doc))
      as [texts Hfams].
    rewrite Hfams in Hfam. apply in_map_iff in Hfam.
    destruct Hfam as ([idx t] & <- & _).
    unfold plain_chunk, link_children.
    cbn [fst snd set_children set_global_id parent_record chunk_id
         section_name parent_id content_hash].
    now rewrite (parent_id_plain _ (S idx) Hnames), Hnames, Hd.
  - apply in_concat in Hc0. destruct Hc0 as (cs & Hcs & Hc0).
    apply in_map_iff in Hcs. destruct Hcs as (fam & <- & Hfam).
    apply families_In in Hfam. destruct Hfam as (idx & p & Hp & ->).
    simpl in Hc0.
    destruct (create_children_shape digest8 config (fst doc) p idx)
      as [texts E].
    rewrite E in Hc0. apply in_map_iff in Hc0.
    destruct Hc0 as ([j t] & <- & _).
    destruct (create_parents_shape digest8 config (fst doc) (snd doc))
      as [ptexts Ep].
    rewrite Ep in Hp. apply in_map_iff in Hp.
    destruct Hp as ([k u] & <- & _).
    unfold plain_chunk.
    cbn [fst snd set_global_id child_record parent_record chunk_id
         section_name parent_id content_hash].
    rewrite (parent_id_plain _ k Hnames), Hnames, Hd, !andb_true_r.
    rewrite !plain_field_app, Hnames.
    now rewrite !(digits_plain _ (str_of_nat_digits _)).
Qed.

(** When no document is blank no chunk is. *)
Lemma run_content_not_blank (sections : list (str * str)) (c : Chunk) :
  (forall doc, In doc sections -> truthy (strip (snd doc)) = true) ->
  In c (all_chunks (build_hierarchy digest8 config sections)) ->
  truthy (strip (content c)) = true.
Proof.
  intros Hdocs Hc. rewrite all_chunks_build in Hc.
  apply number_from_In in Hc.
  destruct Hc as (i & c0 & -> & Hc0 & _). simpl.
  unfold unnumbered_chunks in Hc0. apply in_flat_map in Hc0.
  destruct Hc0 as (doc & Hdoc & Hc0). specialize (Hdocs doc Hdoc).
  unfold section_chunks in Hc0. apply in_app_or in Hc0.
  destruct Hc0 as [Hc0 | Hc0].
  - apply in_map_iff in Hc0. destruct Hc0 as (fam & <- & Hfam).
    now destruct (families_not_blank digest8 config _ _ fam Hdocs Hfam).
  - apply in_concat in Hc0. destruct Hc0 as (cs & Hcs & Hc0).
    apply in_map_iff in Hcs. destruct Hcs as (fam & <- & Hfam).
    destruct (families_not_blank digest8 config _ _ fam Hdocs Hfam)
      as (_ & _ & Hall).
    auto.
Qed.

End Pipeline.

(** X22.  The chunks built from what [load_sections] has stored on a fresh
    chunker have distinct ids and a content that is not blank, and, the
    fingerprint being made of characters other than the bar and the
    newline, none of their fields but the content holds a bar or a
    newline, which is what the export needs to write one well-formed line
    for each. *)
Theorem loaded_run_exportable (digest8 : str -> str) (config : Config)
    (acronyms : list (str * str)) (txt_files : list (str * option str)) :
  0 < min_chunk_size config ->
  (forall t, plain_field (digest8 t) = true) ->
  let sections := fst (load_sections config acronyms [] txt_files) in
  let flat := all_chunks (build_hierarchy digest8 config sections) in
  NoDup (map chunk_id flat)
  /\ forallb plain_chunk flat = true
  /\ (forall c, In c flat -> truthy (strip (content c)) = true).
Proof.
  intros Hmin Hd sections flat.
  assert (Hs : NoDup (map fst sections)
               /\ forall doc, In doc sections ->
                    forallb name_char (fst doc) = true
                    /\ strip (snd doc) = snd doc
                    /\ truthy (snd doc) = true).
  { subst sections. unfold load_sections.
    destruct txt_files as [|file files];
      [simpl; split; [constructor | intros doc []]|].
    cbn [fst].
    destruct (load_loop_spec config acronyms (file :: files) []
                (NoDup_nil _)) as (H1 & H2 & _).
    split; [exact H1|]. intros doc Hdoc.
    destruct (H2 doc Hdoc) as [[] | Hl].
    now apply (loaded_from_sound config acronyms (file :: files) doc). }
  destruct Hs as [Hnd Hdocs]. subst flat. split; [|split].
  - rewrite all_chunks_build. unfold number_from. rewrite map_map. simpl.
    rewrite <- map_map, enumerate_snd. now apply raw_ids_NoDup.
  - apply run_chunks_plain; [assumption|]. intros doc Hdoc.
    destruct (Hdocs doc Hdoc) as (Hn & _). unfold plain_field.
    apply forallb_forall. intros x Hx. apply name_char_plain.
    rewrite forallb_forall in Hn. auto.
  - intros c. apply run_content_not_blank. intros doc Hdoc.
    destruct (Hdocs doc Hdoc) as (_ & Hst & Ht). now rewrite Hst.
Qed.

Lemma loaded_run_exportable_witness :
  let sections :=
    fst (load_sections tiny_config domain_acronyms [] three_files) in
  let flat := all_chunks (build_hierarchy hex_digest tiny_config sections) in
  NoDup (map chunk_id flat)
  /\ forallb plain_chunk flat = true
  /\ (forall c, In c flat -> truthy (strip (content c)) = true).
Proof.
  apply (loaded_run_exportable hex_digest tiny_config domain_acronyms
           three_files).
  - reflexivity.
  - intros t. reflexivity.
Defined.

(** * After a successful run *)

(** X23.  Once [create_hierarchical_chunks] has returned, the divisions
    made when the output is saved do not raise: the recommendations are
    computed, the list of parents over which the metadata averages is not
    empty, and the list returned is not empty, so that
    [save_chunked_output] does not stop at its first test. *)
Theorem saving_after_success (digest8 : str -> str) (config : Config)
    (model_context_window : Z) (sections : list (str * str))
    (chunks : list Chunk) :
  snd (create_hierarchical_chunks digest8 config model_context_window
         sections)
  = Ok chunks ->
  let self := build_hierarchy digest8 config sections in
  chunks = all_chunks self
  /\ chunks <> []
  /\ (exists advice,
        _get_optimization_recommendations config self = Ok advice)
  /\ (exists avg_parent_tokens,
        mean_tokens (of_level parent (all_chunks self))
        = Ok avg_parent_tokens)
  /\ (exists avg_child_tokens,
        mean_tokens (of_level child (all_chunks self))
        = Ok avg_child_tokens).
Proof.
  intros H. cbn [create_hierarchical_chunks snd] in H. cbv zeta.
  set (self := build_hierarchy digest8 config sections) in *.
  destruct (Z.eq_dec (sum_tokens (of_level child (all_chunks self))) 0)
    as [Hz | Hnz].
  { unfold _calculate_optimization_metrics, floordiv in H.
    rewrite (avg_child_tokens_zero _ Hz) in H. discriminate H. }
  pose proof (sum_tokens_nonempty _ Hnz) as Hc.
  pose proof (parents_of_children digest8 config sections Hc) as Hp.
  fold self in Hp.
  assert (E : chunks = all_chunks self).
  { destruct (_calculate_optimization_metrics config model_context_window
                self); simpl in H; congruence. }
  split; [exact E|]. split; [|split; [|split]].
  - rewrite E. intros Hnil. rewrite Hnil in Hc. now apply Hc.
  - unfold _get_optimization_recommendations, floordiv.
    rewrite (avg_child_tokens_nonzero _ Hnz). simpl. eexists. reflexivity.
  - destruct (of_level parent (all_chunks self));
      [exfalso; now apply Hp|].
    simpl. eexists. reflexivity.
  - destruct (of_level child (all_chunks self));
      [exfalso; now apply Hc|].
    simpl. eexists. reflexivity.
Qed.

Lemma saving_after_success_witness :
  let self := build_hierarchy sample_digest small_config small_sections in
  all_chunks self = all_chunks self
  /\ all_chunks self <> []
  /\ (exists advice,
        _get_optimization_recommendations small_config self = Ok advice)
  /\ (exists avg_parent_tokens,
        mean_tokens (of_level parent (all_chunks self))
        = Ok avg_parent_tokens)
  /\ (exists avg_child_tokens,
        mean_tokens (of_level child (all_chunks self))
        = Ok avg_child_tokens).
Proof.
  apply (saving_after_success sample_digest small_config 4096 small_sections
           (all_chunks
              (build_hierarchy sample_digest small_config small_sections))).
  vm_compute. reflexivity.
Defined.

(** * Saving and restoring the code blocks *)

Lemma starts_with_prefix (a b s : str) :
  starts_with (a ++ b) s = true -> starts_with a s = true.
Proof.
  revert s; induction a as [|x a IH]; intros [|y s]; simpl;
    try reflexivity; try discriminate.
  destruct (ascii_dec x y); [simpl; apply IH | discriminate].
Qed.

Lemma starts_with_weaken (p x z : str) :
  starts_with p x = true -> starts_with p (x ++ z) = true.
Proof.
  revert x; induction p as [|a p IH]; intros [|b x]; simpl;
    try reflexivity; try discriminate.
  destruct (ascii_dec a b); [simpl; apply IH | discriminate].
Qed.

Lemma starts_with_split (p x y : str) :
  starts_with p (x ++ y) = true ->
  starts_with p x = true
  \/ exists p', p = x ++ p' /\ starts_with p' y = true.
Proof.
  revert x; induction p as [|a p IH]; intros x H; [now left|].
  destruct x as [|b x]; [right; exists (a :: p); auto|].
  simpl in H |- *. destruct (ascii_dec a b) as [->|]; [|discriminate].
  simpl in H |- *. destruct (IH x H) as [Hl | (p' & -> & Hp)]; [now left|].
  right. exists p'. auto.
Qed.

Lemma starts_with_refl (p : str) : starts_with p p = true.
Proof.
  induction p as [|a p IH]; simpl; [reflexivity|].
  destruct (ascii_dec a a); [assumption | congruence].
Qed.

Lemma starts_with_cancel (a p s : str) :
  starts_with (a ++ p) (a ++ s) = starts_with p s.
Proof.
  induction a as [|x a IH]; simpl; [reflexivity|].
  destruct (ascii_dec x x); [assumption | congruence].
Qed.

Lemma replace_all_skip (old new x y : str) :
  replace_all old new (length x) (x ++ y) = replace_all old new 0 y.
Proof. induction x as [|c x IH]; [reflexivity | exact IH]. Qed.

Lemma replace_all_pass (old new x y : str) :
  no_start old x y = true ->
  replace_all old new 0 (x ++ y) = x ++ replace_all old new 0 y.
Proof.
  induction x as [|c x IH]; [reflexivity|]. cbn [no_start].
  intros H. apply andb_prop in H. destruct H as [H1 H2].
  apply negb_true_iff in H1. cbn [app replace_all] in *.
  rewrite H1. now rewrite (IH H2).
Qed.

Lemma replace_all_hit (old new y : str) :
  old <> [] ->
  replace_all old new 0 (old ++ y) = new ++ replace_all old new 0 y.
Proof.
  destruct old as [|c old]; [congruence|]. intros _.
  cbn [app replace_all].
  change (c :: old ++ y) with ((c :: old) ++ y).
  rewrite (starts_with_weaken _ _ y (starts_with_refl (c :: old))).
  replace (length (c :: old) - 1)%nat with (length old) by (simpl; lia).
  now rewrite replace_all_skip.
Qed.

Lemma no_start_app (old x1 x2 y : str) :
  no_start old (x1 ++ x2) y
  = no_start old x1 (x2 ++ y) && no_start old x2 y.
Proof.
  induction x1 as [|c x1 IH]; [reflexivity|].
  cbn [app no_start]. rewrite IH, <- app_assoc, andb_assoc. reflexivity.
Qed.

(** ** Placeholders *)

Lemma digit_not_lt (c : ascii) : is_digit c = true -> ascii_eqb c LT = false.
Proof.
  destruct c as [[] [] [] [] [] [] [] []]; intros H; try discriminate H;
    reflexivity.
Qed.

Lemma digit_not_gt (c : ascii) : is_digit c = true -> c <> ">"%char.
Proof.
  destruct c as [[] [] [] [] [] [] [] []]; intros H; try discriminate H;
    discriminate.
Qed.

Lemma digit_not_backtick (c : ascii) :
  is_digit c = true -> ascii_eqb c BACKTICK = false.
Proof.
  destruct c as [[] [] [] [] [] [] [] []]; intros H; try discriminate H;
    reflexivity.
Qed.

Lemma placeholder_no_backtick (k : nat) : ~ In BACKTICK (placeholder k).
Proof.
  unfold placeholder. rewrite !in_app_iff. intros [H | [H | H]].
  - simpl in H. repeat (destruct H as [H | H]; [discriminate H|]). exact H.
  - pose proof (str_of_nat_digits k) as Hd. rewrite forallb_forall in Hd.
    apply Hd in H. apply digit_not_backtick in H. unfold ascii_eqb in H.
    destruct (ascii_dec BACKTICK BACKTICK); [discriminate | congruence].
  - simpl in H. repeat (destruct H as [H | H]; [discriminate H|]). exact H.
Qed.

Lemma digits_delimited (d1 : str) :
  forall d2 y,
    forallb is_digit d1 = true -> forallb is_digit d2 = true ->
    starts_with (d1 ++ lit ">>") (d2 ++ lit ">>" ++ y) = true -> d1 = d2.
Proof.
  induction d1 as [|a d1 IH]; intros d2 y H1 H2 H.
  - destruct d2 as [|b d2]; [reflexivity|]. exfalso.
    change (lit ">>") with [">"%char; ">"%char] in H.
    cbn [app starts_with] in H. cbn [forallb] in H2. apply andb_prop in H2.
    destruct H2 as [Hb _]. apply digit_not_gt in Hb.
    destruct (ascii_dec ">" b); [congruence | discriminate].
  - cbn [forallb] in H1. apply andb_prop in H1. destruct H1 as [Ha H1].
    destruct d2 as [|b d2].
    + exfalso. change (lit ">>") with [">"%char; ">"%char] in H.
      cbn [app starts_with] in H. apply digit_not_gt in Ha.
      destruct (ascii_dec a ">"); [congruence | discriminate].
    + cbn [forallb] in H2. apply andb_prop in H2. destruct H2 as [_ H2].
      cbn [app starts_with] in H.
      destruct (ascii_dec a b) as [->|]; [|discriminate].
      f_equal. apply (IH d2 y H1 H2 H).
Qed.

Lemma placeholder_other (k m : nat) (y : str) :
  k <> m -> starts_with (placeholder k) (placeholder m ++ y) = false.
Proof.
  intros Hkm. destruct (starts_with (placeholder k) (placeholder m ++ y))
    eqn:E; [|reflexivity].
  exfalso. apply Hkm. unfold placeholder in E.
  rewrite <- !app_assoc, starts_with_cancel in E.
  apply digits_delimited in E; try apply str_of_nat_digits.
  now apply str_of_nat_inj.
Qed.

Lemma starts_with_head (a c : ascii) (p s : str) :
  a <> c -> starts_with (a :: p) (c :: s) = false.
Proof.
  intros H. cbn [starts_with]. destruct (ascii_dec a c); [congruence|].
  reflexivity.
Qed.

Lemma placeholder_head (k : nat) :
  exists t, placeholder k = LT :: LT :: t.
Proof. eexists. reflexivity. Qed.

Lemma no_start_no_lt (k : nat) (x y : str) :
  forallb (fun c => negb (ascii_eqb c LT)) x = true ->
  no_start (placeholder k) x y = true.
Proof.
  induction x as [|c x IH]; [reflexivity|]. cbn [forallb no_start].
  intros H. apply andb_prop in H. destruct H as [Hc Hx].
  rewrite (IH Hx), andb_true_r. apply negb_true_iff in Hc.
  destruct (placeholder_head k) as [t ->]. cbn [app].
  rewrite starts_with_head; [reflexivity|].
  intros E0. rewrite <- E0 in Hc. discriminate Hc.
Qed.

(** Past a placeholder with another number. *)
Lemma replace_all_other (k m : nat) (new y : str) :
  k <> m ->
  replace_all (placeholder k) new 0 (placeholder m ++ y)
  = placeholder m ++ replace_all (placeholder k) new 0 y.
Proof.
  intros Hkm. apply replace_all_pass.
  pose proof (placeholder_other k m y Hkm) as Hfirst.
  assert (E : placeholder m
              = [LT] ++ lit "<CODE_BLOCK_" ++ (str_of_nat m ++ lit ">>"))
    by reflexivity.
  rewrite E in *. rewrite !no_start_app.
  apply andb_true_intro; split; [|apply andb_true_intro; split].
  - cbn [no_start]. rewrite andb_true_r. apply negb_true_iff.
    exact Hfirst.
  - destruct (placeholder_head k) as [t ->]. reflexivity.
  - apply andb_true_intro; split; apply no_start_no_lt; [|reflexivity].
    apply forallb_forall. intros c Hc.
    pose proof (str_of_nat_digits m) as Hd. rewrite forallb_forall in Hd.
    apply Hd in Hc. now rewrite (digit_not_lt c Hc).
Qed.

(** ** Pieces *)

Lemma no_placeholder_text_suffix (x y : str) :
  no_placeholder_text (x ++ y) = true -> no_placeholder_text y = true.
Proof.
  induction x as [|c x IH]; [auto|]. cbn [app no_placeholder_text].
  intros H. apply andb_prop in H. tauto.
Qed.

Lemma no_placeholder_text_prefix (x y : str) :
  no_placeholder_text (x ++ y) = true -> no_placeholder_text x = true.
Proof.
  induction x as [|c x IH]; [auto|]. cbn [app no_placeholder_text].
  intros H. apply andb_prop in H. destruct H as [H1 H2].
  rewrite (IH H2), andb_true_r. apply negb_true_iff in H1.
  apply negb_true_iff.
  destruct (starts_with placeholder_prefix (c :: x)) eqn:E; [|reflexivity].
  apply (starts_with_weaken _ _ y) in E. cbn [app] in E. congruence.
Qed.

Lemma inner_pattern_tail (p0 : ascii) (p1 : str) :
  inner_pattern (p0 :: p1) = true -> inner_pattern p1 = true.
Proof.
  destruct p1 as [|p1 p2]; [reflexivity|]. cbn [inner_pattern forallb].
  intros H. apply andb_prop in H. destruct H as [H _].
  apply andb_prop in H. destruct H as [_ H].
  apply andb_prop in H. destruct H as [H1 H2].
  apply andb_prop in H1. destruct H1 as [Hlt Hbt].
  rewrite Hbt, H2, Hlt. reflexivity.
Qed.

(** A match of a part of the prefix that begins outside the code blocks
    does not depend on the stage. *)
Lemma inner_match_original (k : nat) (ps : list piece) :
  Forall fenced ps ->
  forall n p,
    inner_pattern p = true ->
    starts_with p (text_at_stage k n ps) = true ->
    starts_with p (pieces_text ps) = true.
Proof.
  induction 1 as [|x ps Hx Hps IH]; intros n p Hp H; [exact H|].
  destruct p as [|p0 p1]; [reflexivity|].
  destruct x as [c | block].
  - cbn [text_at_stage pieces_text flat_map piece_text app starts_with]
      in *.
    destruct (ascii_dec p0 c); [|discriminate]. cbn [andb] in *.
    apply (IH n). { now apply inner_pattern_tail in Hp. } exact H.
  - exfalso. cbn [text_at_stage] in H. destruct Hx as [body ->].
    cbn [inner_pattern] in Hp. apply andb_prop in Hp.
    destruct Hp as [Hp Hlen]. apply andb_prop in Hp.
    destruct Hp as [Hbt Hin].
    destruct (n <? k)%nat.
    + unfold fence in H. cbn [app starts_with] in H.
      destruct (ascii_dec p0 BACKTICK) as [->|]; [|discriminate].
      discriminate Hbt.
    + destruct (placeholder_head n) as [t Et]. rewrite Et in H.
      cbn [app starts_with] in H.
      destruct (ascii_dec p0 LT) as [->|]; [|discriminate].
      cbn [andb] in H. cbn in Hlen.
      destruct p1 as [|p1 p2]; [discriminate|].
      cbn [starts_with] in H.
      destruct (ascii_dec p1 LT) as [->|]; [|discriminate].
      cbn [forallb] in Hin. discriminate Hin.
Qed.

Lemma plain_no_match (k n : nat) (c : ascii) (ps : list piece) :
  Forall fenced ps ->
  no_placeholder_text (c :: pieces_text ps) = true ->
  starts_with (placeholder k) (c :: text_at_stage k n ps) = false.
Proof.
  intros Hf Hn.
  destruct (starts_with (placeholder k) (c :: text_at_stage k n ps)) eqn:E;
    [|reflexivity].
  exfalso. unfold placeholder in E. apply starts_with_prefix in E.
  cbn [no_placeholder_text] in Hn. apply andb_prop in Hn.
  destruct Hn as [Hn _]. apply negb_true_iff in Hn.
  change placeholder_prefix with (LT :: lit "<CODE_BLOCK_") in Hn.
  change (lit "<<CODE_BLOCK_") with (LT :: lit "<CODE_BLOCK_") in E.
  cbn [starts_with] in *.
  destruct (ascii_dec LT c); [|discriminate]. cbn [andb] in *.
  apply (inner_match_original k ps Hf n) in E; [congruence | reflexivity].
Qed.

Lemma block_no_start (k : nat) (v y : str) :
  no_placeholder_text v = true ->
  (v <> [] -> last v NL = BACKTICK) ->
  no_start (placeholder k) v y = true.
Proof.
  induction v as [|c v IH]; [reflexivity|]. intros Hn Hl.
  cbn [no_placeholder_text] in Hn. apply andb_prop in Hn.
  destruct Hn as [Hc Hv]. apply negb_true_iff in Hc.
  cbn [no_start]. apply andb_true_intro. split.
  - apply negb_true_iff.
    destruct (starts_with (placeholder k) ((c :: v) ++ y)) eqn:E;
      [|reflexivity].
    exfalso. apply starts_with_split in E.
    destruct E as [E | (p' & E & _)].
    + unfold placeholder in E. apply starts_with_prefix in E.
      unfold placeholder_prefix in Hc. congruence.
    + apply (placeholder_no_backtick k). rewrite E.
      apply in_or_app. left.
      rewrite <- (Hl ltac:(discriminate)).
      clear. revert c. induction v as [|d v IHv]; intros c;
        [now left|].
      right. apply (IHv d).
  - apply IH; [assumption|]. intros Hne. specialize (Hl ltac:(discriminate)).
    destruct v; [congruence | exact Hl].
Qed.

Lemma fenced_last (body : str) : last (fence ++ body ++ fence) NL = BACKTICK.
Proof.
  rewrite !app_assoc. unfold fence at 2.
  change [BACKTICK; BACKTICK; BACKTICK]
    with ([BACKTICK; BACKTICK] ++ [BACKTICK]).
  rewrite app_assoc. apply last_last.
Qed.

(** One step of the loop that restores the blocks. *)
Lemma restore_stage (k : nat) (new : str) (ps : list piece) :
  Forall fenced ps ->
  forall n,
    no_placeholder_text (pieces_text ps) = true ->
    ((k < n)%nat \/ nth_error (code_pieces ps) (k - n) = Some new) ->
    replace_all (placeholder k) new 0 (text_at_stage k n ps)
    = text_at_stage (S k) n ps.
Proof.
  induction 1 as [|x ps Hx Hps IH]; intros n Hn Hk; [reflexivity|].
  destruct x as [c | block].
  - cbn [pieces_text flat_map piece_text app] in Hn.
    fold (pieces_text ps) in Hn.
    cbn [text_at_stage replace_all].
    rewrite (plain_no_match k n c ps Hps Hn). f_equal.
    apply IH; [|exact Hk].
    now apply (no_placeholder_text_suffix [c]).
  - cbn [pieces_text flat_map piece_text] in Hn.
    fold (pieces_text ps) in Hn.
    pose proof (no_placeholder_text_suffix _ _ Hn) as Hrest.
    pose proof (no_placeholder_text_prefix _ _ Hn) as Hblock.
    cbn [text_at_stage code_pieces] in *.
    destruct (Nat.ltb_spec n k) as [Hlt | Hge].
    + destruct (Nat.ltb_spec n (S k)); [|lia].
      rewrite replace_all_pass.
      * f_equal. apply IH; [assumption|]. right.
        destruct Hk as [Hk | Hk]; [lia|].
        replace (k - n)%nat with (S (k - S n)) in Hk by lia. exact Hk.
      * apply block_no_start; [assumption|]. intros _.
        destruct Hx as [body ->]. apply fenced_last.
    + destruct (Nat.eq_dec n k) as [-> | Hne].
      * destruct (Nat.ltb_spec k (S k)); [|lia].
        destruct Hk as [Hk | Hk]; [lia|].
        rewrite Nat.sub_diag in Hk. cbn in Hk. inversion Hk; subst.
        rewrite replace_all_hit.
        -- f_equal. apply IH; [assumption|]. left. lia.
        -- destruct (placeholder_head k) as [t ->]. discriminate.
      * destruct (Nat.ltb_spec n (S k)); [lia|].
        rewrite replace_all_other by lia. f_equal.
        apply IH; [assumption|]. left. lia.
Qed.

Lemma save_code_blocks_skip (x y : str) (n : nat) :
  save_code_blocks (length x) n (x ++ y) = save_code_blocks 0 n y.
Proof. induction x as [|c x IH]; [reflexivity | exact IH]. Qed.

Lemma text_at_stage_saved (k : nat) (ps : list piece) :
  forall n, (k <= n)%nat -> text_at_stage k n ps = text_at_stage 0 n ps.
Proof.
  induction ps as [|[c | block] ps IH]; intros n Hk; cbn [text_at_stage];
    [reflexivity | now rewrite IH |].
  destruct (Nat.ltb_spec n k); [lia|].
  destruct (Nat.ltb_spec n 0); [lia|]. now rewrite IH by lia.
Qed.

Lemma text_at_stage_restored (k : nat) (ps : list piece) :
  forall n, (n + length (code_pieces ps) <= k)%nat ->
            text_at_stage k n ps = pieces_text ps.
Proof.
  induction ps as [|[c | block] ps IH]; intros n Hk;
    cbn [text_at_stage code_pieces length pieces_text flat_map piece_text]
      in *.
  - reflexivity.
  - cbn [app]. f_equal. now apply IH.
  - destruct (Nat.ltb_spec n k); [|lia]. f_equal. apply IH. lia.
Qed.

(** What [save_code_blocks] returns, in pieces. *)
Lemma save_code_blocks_pieces (m : nat) :
  forall s n,
    (length s <= m)%nat ->
    exists ps,
      save_code_blocks 0 n s = (text_at_stage 0 n ps, code_pieces ps)
      /\ pieces_text ps = s /\ Forall fenced ps.
Proof.
  induction m as [|m IH]; intros s n Hm.
  - destruct s; [|simpl in Hm; lia]. exists []. repeat split. constructor.
  - destruct s as [|c s]; [exists []; repeat split; constructor|].
    cbn [save_code_blocks].
    destruct (fenced_block (c :: s)) as [block|] eqn:E.
    + apply fenced_block_prefix in E.
      destruct E as (body & after & Eb & Es).
      assert (Hb : exists tail, block = c :: tail /\ s = tail ++ after).
      { rewrite Eb in Es. unfold fence in Es. cbn [app] in Es.
        inversion Es; subst. eexists. split; [reflexivity|].
        unfold fence. cbn [app]. reflexivity. }
      destruct Hb as (tail & Et & Est).
      assert (El : (length block - 1)%nat = length tail)
        by (rewrite Et; simpl; lia).
      rewrite El, Est, save_code_blocks_skip.
      destruct (IH after (S n)) as (ps & Eps & Etext & Hf).
      { rewrite Est in Hm. simpl in Hm. rewrite length_app in Hm. lia. }
      exists (Code block :: ps). rewrite Eps.
      cbn [text_at_stage code_pieces pieces_text flat_map piece_text].
      split; [reflexivity|]. split.
      * fold (pieces_text ps). rewrite Etext, Et. cbn [app]. reflexivity.
      * constructor; [|assumption]. exists body. exact Eb.
    + destruct (IH s n) as (ps & Eps & Etext & Hf);
        [simpl in Hm; lia|].
      exists (Plain c :: ps). rewrite Eps.
      cbn [text_at_stage code_pieces pieces_text flat_map piece_text app].
      split; [reflexivity|]. split.
      * fold (pieces_text ps). now rewrite Etext.
      * constructor; [exact I | assumption].
Qed.

(** The loop from block [k] on. *)
Lemma restore_from_stage (ps : list piece) :
  Forall fenced ps ->
  no_placeholder_text (pieces_text ps) = true ->
  forall blocks k,
    skipn k (code_pieces ps) = blocks ->
    (k <= length (code_pieces ps))%nat ->
    fold_left
      (fun content entry =>
         replace_all (placeholder (fst entry)) (snd entry) 0 content)
      (enumerate k blocks) (text_at_stage k 0 ps)
    = pieces_text ps.
Proof.
  intros Hf Hn. induction blocks as [|b bs IH]; intros k Hk Hlen.
  - cbn [enumerate fold_left]. apply text_at_stage_restored.
    assert (Hl : length (skipn k (code_pieces ps)) = 0%nat)
      by now rewrite Hk.
    rewrite length_skipn in Hl. lia.
  - cbn [enumerate fold_left fst snd].
    assert (Hnth : nth_error (code_pieces ps) k = Some b).
    { rewrite <- (firstn_skipn k (code_pieces ps)), Hk.
      rewrite nth_error_app2 by (rewrite length_firstn; lia).
      rewrite length_firstn.
      replace (k - Nat.min k (length (code_pieces ps)))%nat with 0%nat
        by lia.
      reflexivity. }
    rewrite (restore_stage k b ps Hf 0 Hn)
      by (right; now rewrite Nat.sub_0_r).
    apply IH.
    + rewrite <- (firstn_skipn k (code_pieces ps)) at 1.
      replace (S k) with (length (firstn k (code_pieces ps)) + 1)%nat
        by (rewrite length_firstn; lia).
      rewrite skipn_app, Hk.
      rewrite skipn_all2 by lia.
      replace (length (firstn k (code_pieces ps)) + 1
               - length (firstn k (code_pieces ps)))%nat with 1%nat by lia.
      reflexivity.
    + assert (k < length (code_pieces ps))%nat
        by (apply nth_error_Some; congruence).
      lia.
Qed.

Lemma code_pieces_fenced (ps : list piece) :
  Forall fenced ps ->
  Forall (fun block => exists body, block = fence ++ body ++ fence)
    (code_pieces ps).
Proof.
  induction 1 as [|[c | block] ps Hx Hps IH]; cbn [code_pieces];
    [constructor | assumption | now constructor].
Qed.

(** X24.  In a text that does not hold the first thirteen characters of a
    placeholder, putting the saved code blocks back right after they were
    taken out gives the text again; every saved block begins and ends
    with a fence. *)
Theorem code_blocks_round_trip (content : str) :
  no_placeholder_text content = true ->
  let '(text, code_blocks) := save_code_blocks 0 0 content in
  restore_code_blocks text code_blocks = content
  /\ Forall (fun block => exists body, block = fence ++ body ++ fence)
       code_blocks.
Proof.
  intros Hn.
  destruct (save_code_blocks_pieces (length content) content 0 (le_n _))
    as (ps & -> & Etext & Hf).
  split; [|now apply code_pieces_fenced].
  unfold restore_code_blocks. rewrite <- Etext in Hn |- *.
  apply (restore_from_stage ps Hf Hn (code_pieces ps) 0);
    [reflexivity | lia].
Qed.

Lemma code_blocks_round_trip_witness :
  let content := lit "Run ```a  <<  b``` then```x```." in
  let '(text, code_blocks) := save_code_blocks 0 0 content in
  restore_code_blocks text code_blocks = content
  /\ Forall (fun block => exists body, block = fence ++ body ++ fence)
       code_blocks.
Proof.
  apply (code_blocks_round_trip (lit "Run ```a  <<  b``` then```x```.")).
  reflexivity.
Defined.
